(** * The Yul assembly analyzer (libyul/AsmAnalysis.cpp)

    A shallow embedding of [AsmAnalyzer]: the tree walk over the Yul AST that
    checks types, name usage and stack balance, and records the stack height
    reached after every node.  The analyzer's mutable members are threaded
    through a state-and-exception monad; the C++ exceptions and the one null
    dereference of the source are outcomes of that monad. *)

From Stdlib Require Import ZArith Ascii.
From stdpp Require Import gmap strings list pretty.

Set Warnings "-register-all".
Local Open Scope Z_scope.

(** ** Source-level data *)

(** Object addresses ([Literal const*], [Block const*], [Scope*] ...) are
    natural numbers; distinct objects have distinct addresses. *)
Abbreviation Addr := N (only parsing).
Abbreviation YulString := string (only parsing).
Abbreviation SourceLocation := N (only parsing).

(** The double-quote character used inside diagnostics. *)
Definition dq : string := String (Ascii.ascii_of_nat 34) EmptyString.

Inductive LiteralKind := KNumber | KBoolean | KString.

#[global] Instance LiteralKind_eq_dec : EqDecision LiteralKind.
Proof. solve_decision. Defined.

Record Literal := {
  lit_addr : Addr;
  lit_location : SourceLocation;
  lit_kind : LiteralKind;
  lit_value : YulString;
  lit_type : YulString }.

Record Identifier := {
  id_addr : Addr;
  id_location : SourceLocation;
  id_name : YulString }.

Record TypedName := {
  tn_location : SourceLocation;
  tn_name : YulString;
  tn_type : YulString }.

Inductive Expression :=
| ELiteral (l : Literal)
| EIdentifier (i : Identifier)
| EFunctionCall (addr : Addr) (location : SourceLocation)
    (functionName : Identifier) (arguments : list Expression).

Inductive Statement :=
| SExpressionStatement (addr : Addr) (location : SourceLocation) (expression : Expression)
| SAssignment (addr : Addr) (location : SourceLocation)
    (variableNames : list Identifier) (value : Expression)
| SVariableDeclaration (addr : Addr) (location : SourceLocation)
    (variables : list TypedName) (value : option Expression)
| SFunctionDefinition (addr : Addr) (location : SourceLocation) (name : YulString)
    (parameters returnVariables : list TypedName) (body : Block)
| SIf (addr : Addr) (location : SourceLocation) (condition : Expression) (body : Block)
| SSwitch (addr : Addr) (location : SourceLocation) (expression : Expression)
    (cases : list Case)
| SForLoop (addr : Addr) (location : SourceLocation)
    (pre : Block) (condition : Expression) (post : Block) (body : Block)
| SBreak (addr : Addr) (location : SourceLocation)
| SContinue (addr : Addr) (location : SourceLocation)
| SLeave (addr : Addr) (location : SourceLocation)
| SBlock (b : Block)
with Block :=
| MkBlock (addr : Addr) (location : SourceLocation) (statements : list Statement)
with Case :=
| MkCase (location : SourceLocation) (value : option Literal) (body : Block).

Definition locationOf (e : Expression) : SourceLocation :=
  match e with
  | ELiteral l => lit_location l
  | EIdentifier i => id_location i
  | EFunctionCall _ loc _ _ => loc
  end.

Definition block_addr (b : Block) : Addr := let 'MkBlock a _ _ := b in a.
Definition block_statements (b : Block) : list Statement := let 'MkBlock _ _ s := b in s.

(** ** Scopes (libyul/AsmScope.h) *)

Inductive ScopeIdentifier :=
| ScopeVariable (type : YulString)
| ScopeFunction (arguments returns : list YulString).

(** Modelled from the spec: the Scope class is declared outside this file.
    A scope maps names to a variable binding or a function binding, holds a
    pointer to its enclosing scope and records whether it is the scope of a
    function body.  The analyzer never writes to a scope, so the chain of
    enclosing scopes is kept by value; [scope_addr] is the identity of the
    scope object. *)
Inductive Scope := MkScope {
  scope_addr : Addr;
  identifiers : gmap string ScopeIdentifier;
  superScope : option Scope;
  functionScope : bool }.

(** A [Scope::Variable const*]: the variable [name] stored in the scope object
    at the given address. *)
Abbreviation VariablePtr := (N * string)%type (only parsing).

(** Modelled from the spec: lookup of a name along the scope chain; the
    result names the scope object that holds the binding. *)
Fixpoint Scope_lookup (s : Scope) (name : YulString) : option (Addr * ScopeIdentifier) :=
  match s with
  | MkScope a ids sup _ =>
      match ids !! name with
      | Some id => Some (a, id)
      | None => match sup with
                | Some p => Scope_lookup p name
                | None => None
                end
      end
  end.

(** Modelled from the spec: the number of variable bindings of a scope. *)
Definition isVariable (id : ScopeIdentifier) : bool :=
  match id with ScopeVariable _ => true | ScopeFunction _ _ => false end.

Definition numberOfVariables (s : Scope) : nat :=
  length (List.filter (λ kv : string * ScopeIdentifier, isVariable kv.2)
            (map_to_list (identifiers s))).

(** Modelled from the spec: whether the scope lies inside a function body. *)
Fixpoint insideFunction (s : Scope) : bool :=
  match s with
  | MkScope _ _ sup f =>
      f || match sup with Some p => insideFunction p | None => false end
  end.

(** ** Dialect, target machine and resolver (external collaborators) *)

Record BuiltinFunction := {
  bf_parameters : list YulString;
  bf_returns : list YulString;
  bf_literalArguments : bool }.

Record Dialect := {
  defaultType : YulString;
  boolType : YulString;
  types : gset string;
  builtin : YulString → option BuiltinFunction;
  validTypeForLiteral : LiteralKind → YulString → YulString → bool }.

(** The feature flags of the target machine read by the analyzer. *)
Record EVMVersion := {
  supportsReturndata : bool;
  hasStaticCall : bool;
  hasBitwiseShifting : bool;
  hasCreate2 : bool;
  hasExtCodeHash : bool;
  hasChainID : bool;
  hasSelfBalance : bool;
  evm_name : string }.

Inductive Instruction :=
| RETURNDATACOPY | RETURNDATASIZE | STATICCALL
| SHL | SHR | SAR | CREATE2 | EXTCODEHASH
| CHAINID | SELFBALANCE
| JUMP | JUMPI | JUMPDEST
| OtherInstruction (mnemonic : string).

#[global] Instance Instruction_eq_dec : EqDecision Instruction.
Proof. solve_decision. Defined.

(** [instructionInfo(_instr).name] *)
Definition instructionName (i : Instruction) : string :=
  match i with
  | RETURNDATACOPY => "RETURNDATACOPY" | RETURNDATASIZE => "RETURNDATASIZE"
  | STATICCALL => "STATICCALL" | SHL => "SHL" | SHR => "SHR" | SAR => "SAR"
  | CREATE2 => "CREATE2" | EXTCODEHASH => "EXTCODEHASH" | CHAINID => "CHAINID"
  | SELFBALANCE => "SELFBALANCE" | JUMP => "JUMP" | JUMPI => "JUMPI"
  | JUMPDEST => "JUMPDEST" | OtherInstruction m => m
  end.

(** [boost::to_lower_copy] on ASCII text. *)
Definition to_lower_ascii (c : Ascii.ascii) : Ascii.ascii :=
  let n := Ascii.nat_of_ascii c in
  if (65 <=? n)%nat && (n <=? 90)%nat then Ascii.ascii_of_nat (n + 32) else c.

Fixpoint to_lower_copy (s : string) : string :=
  match s with
  | EmptyString => EmptyString
  | String c r => String (to_lower_ascii c) (to_lower_copy r)
  end.

Inductive IdentifierContext := LValue | RValue | VariableDeclaration.

Inductive ErrorType := TypeError | DeclarationError | SyntaxError | Warning.

#[global] Instance ErrorType_eq_dec : EqDecision ErrorType.
Proof. solve_decision. Defined.

Record Error := {
  err_type : ErrorType;
  err_location : SourceLocation;
  err_message : string }.

#[global] Instance Error_eq_dec : EqDecision Error.
Proof. solve_decision. Defined.

(** [size_t(-1)], the resolver's answer for an unknown identifier. *)
Definition size_t_max : N := (2 ^ 64 - 1)%N.

(** The resolver callback.  It answers with a stack size and with the
    diagnostics it hands to the error reporter during the call. *)
Definition Resolver : Type :=
  Identifier → IdentifierContext → bool → list Error * N.

(** The members of the analyzer that are fixed at construction, together with
    the two helpers of other translation units the walk calls. *)
Record Config := {
  m_dialect : Dialect;
  m_resolver : option Resolver;
  m_dataNames : gset string;
  m_evmVersion : EVMVersion;
  (** [EVMDialect::strictAssemblyForEVM(EVMVersion{}).builtin(name)]: absent,
      or a built-in with its optional machine instruction. *)
  strictAssemblyBuiltin : YulString → option (option Instruction);
  (** [valueOfLiteral] of libyul/Utilities: the 256-bit value of a literal,
      [None] when one of its internal assertions fails. *)
  valueOfLiteral : Literal → option N }.

(** ** Error reporter and analysis info *)

(** Modelled from the spec: the error reporter collects typed diagnostics and
    raises the fatal-capacity condition once it holds more errors than its
    capacity. *)
Record ErrorReporter := {
  errors : list Error;
  maxErrorsAllowed : nat }.

Definition isError (e : Error) : bool := negb (bool_decide (err_type e = Warning)).

Definition errorCount (er : ErrorReporter) : nat :=
  length (List.filter isError (errors er)).

Definition hasErrors (er : ErrorReporter) : bool := existsb isError (errors er).

Definition overCapacity (er : ErrorReporter) : bool :=
  (maxErrorsAllowed er <? errorCount er)%nat.

Record AsmAnalysisInfo := {
  scopes : gmap N Scope;
  virtualBlocks : gmap N (option N);
  stackHeightInfo : gmap N Z }.

(** ** Analyzer state *)

(** The members of the analyzer that change during the walk.  The stack
    height of the source is an [int]; it is counted here in [Z], the heights
    of a program that fits in memory being far from the bounds of [int]. *)
Record AsmAnalyzer := {
  m_stackHeight : Z;
  m_currentScope : option Scope;
  m_activeVariables : gset (N * string);
  m_info : AsmAnalysisInfo;
  m_errorReporter : ErrorReporter;
  m_typeOfCurrentExpression : list YulString;
  m_currentForLoop : option Addr }.

Definition set_stackHeight (h : Z) (st : AsmAnalyzer) : AsmAnalyzer :=
  {| m_stackHeight := h; m_currentScope := m_currentScope st;
     m_activeVariables := m_activeVariables st; m_info := m_info st;
     m_errorReporter := m_errorReporter st;
     m_typeOfCurrentExpression := m_typeOfCurrentExpression st;
     m_currentForLoop := m_currentForLoop st |}.

Definition set_currentScope (s : option Scope) (st : AsmAnalyzer) : AsmAnalyzer :=
  {| m_stackHeight := m_stackHeight st; m_currentScope := s;
     m_activeVariables := m_activeVariables st; m_info := m_info st;
     m_errorReporter := m_errorReporter st;
     m_typeOfCurrentExpression := m_typeOfCurrentExpression st;
     m_currentForLoop := m_currentForLoop st |}.

Definition activate (v : N * string) (st : AsmAnalyzer) : AsmAnalyzer :=
  {| m_stackHeight := m_stackHeight st; m_currentScope := m_currentScope st;
     m_activeVariables := {[ v ]} ∪ m_activeVariables st; m_info := m_info st;
     m_errorReporter := m_errorReporter st;
     m_typeOfCurrentExpression := m_typeOfCurrentExpression st;
     m_currentForLoop := m_currentForLoop st |}.

Definition set_info (i : AsmAnalysisInfo) (st : AsmAnalyzer) : AsmAnalyzer :=
  {| m_stackHeight := m_stackHeight st; m_currentScope := m_currentScope st;
     m_activeVariables := m_activeVariables st; m_info := i;
     m_errorReporter := m_errorReporter st;
     m_typeOfCurrentExpression := m_typeOfCurrentExpression st;
     m_currentForLoop := m_currentForLoop st |}.

Definition set_errorReporter (er : ErrorReporter) (st : AsmAnalyzer) : AsmAnalyzer :=
  {| m_stackHeight := m_stackHeight st; m_currentScope := m_currentScope st;
     m_activeVariables := m_activeVariables st; m_info := m_info st;
     m_errorReporter := er;
     m_typeOfCurrentExpression := m_typeOfCurrentExpression st;
     m_currentForLoop := m_currentForLoop st |}.

Definition set_typeOfCurrentExpression (t : list YulString) (st : AsmAnalyzer) : AsmAnalyzer :=
  {| m_stackHeight := m_stackHeight st; m_currentScope := m_currentScope st;
     m_activeVariables := m_activeVariables st; m_info := m_info st;
     m_errorReporter := m_errorReporter st;
     m_typeOfCurrentExpression := t;
     m_currentForLoop := m_currentForLoop st |}.

Definition set_currentForLoop (f : option Addr) (st : AsmAnalyzer) : AsmAnalyzer :=
  {| m_stackHeight := m_stackHeight st; m_currentScope := m_currentScope st;
     m_activeVariables := m_activeVariables st; m_info := m_info st;
     m_errorReporter := m_errorReporter st;
     m_typeOfCurrentExpression := m_typeOfCurrentExpression st;
     m_currentForLoop := f |}.

(** [m_info.stackHeightInfo[node] = m_stackHeight] *)
Definition recordStackHeight (node : Addr) (st : AsmAnalyzer) : AsmAnalyzer :=
  set_info {| scopes := scopes (m_info st);
              virtualBlocks := virtualBlocks (m_info st);
              stackHeightInfo := <[node := m_stackHeight st]> (stackHeightInfo (m_info st)) |}
           st.

Definition add_error (e : Error) (st : AsmAnalyzer) : AsmAnalyzer :=
  set_errorReporter {| errors := errors (m_errorReporter st) ++ [e];
                       maxErrorsAllowed := maxErrorsAllowed (m_errorReporter st) |}
                    st.

(** ** The monad of the walk *)

(** The ways a handler can leave other than by returning or by the reporter's
    fatal error. *)
Inductive Abort :=
| AssertionFailed      (* yulAssert *)
| OutOfRange           (* std::out_of_range of map::at and vector::at *)
| BadVariantAccess     (* std::bad_variant_access of std::get *)
| BadOptionalAccess    (* std::bad_optional_access of optional::value *)
| InvalidNumber        (* std::runtime_error of the bigint constructor *)
| NullDereference.     (* member access through a null pointer *)

Inductive Outcome (A : Type) :=
| Normal (a : A) (st : AsmAnalyzer)
| FatalError (st : AsmAnalyzer)
| Crash (why : Abort).
Arguments Normal {A} a st.
Arguments FatalError {A} st.
Arguments Crash {A} why.

Definition M (A : Type) : Type := AsmAnalyzer → Outcome A.

#[global] Instance M_ret : MRet M := λ A a st, Normal a st.

#[global] Instance M_bind : MBind M := λ A B k m st,
  match m st with
  | Normal a st' => k a st'
  | FatalError st' => FatalError st'
  | Crash w => Crash w
  end.

Definition gets {A} (f : AsmAnalyzer → A) : M A := λ st, Normal (f st) st.
Definition modify (f : AsmAnalyzer → AsmAnalyzer) : M unit := λ st, Normal tt (f st).
Definition crash {A} (w : Abort) : M A := λ _, Crash w.
Definition yulAssert (b : bool) : M unit := if b then mret tt else crash AssertionFailed.
Definition when (b : bool) (m : M unit) : M unit := if b then m else mret tt.

(** [m_errorReporter.error(type, location, message)] *)
Definition error (ty : ErrorType) (loc : SourceLocation) (msg : string) : M unit :=
  λ st, let st' := add_error {| err_type := ty; err_location := loc; err_message := msg |} st in
        if overCapacity (m_errorReporter st') then FatalError st' else Normal tt st'.

Definition typeError := error TypeError.
Definition declarationError := error DeclarationError.

(** [*m_currentScope] *)
Definition currentScope : M Scope :=
  λ st, match m_currentScope st with
        | Some s => Normal s st
        | None => Crash NullDereference
        end.

(** [m_typeOfCurrentExpression.at(0)] *)
Definition typeOfCurrentExpression_at0 : M YulString :=
  λ st, match m_typeOfCurrentExpression st with
        | t :: _ => Normal t st
        | [] => Crash OutOfRange
        end.

(** [for (auto const& x: l) ...], the loop state passed along. *)
Definition forEach {A S : Type} (body : A → S → M S) : list A → S → M S :=
  fix go l s :=
    match l with
    | [] => mret s
    | x :: r => s' ← body x s; go r s'
    end.

(** [for (auto const& x: l | boost::adaptors::reversed) ...] *)
Definition forEachReversed {A S : Type} (body : A → S → M S) : list A → S → M S :=
  fix go l s :=
    match l with
    | [] => mret s
    | x :: r => s' ← go r s; body x s'
    end.

(** [for (size_t i = 0; i < l.size(); ++i) ...] over the elements [l[i]]. *)
Definition forEachIndexed {A S : Type} (body : nat → A → S → M S) : list A → S → M S :=
  λ l, forEach (λ ix, body ix.1 ix.2) (zip (seq 0 (length l)) l).

(** ** Number literals *)

Definition u256_max : Z := 2 ^ 256 - 1.

Definition digitValue (c : Ascii.ascii) : option N :=
  let n := N.of_nat (Ascii.nat_of_ascii c) in
  if (48 <=? n)%N && (n <=? 57)%N then Some (n - 48)%N
  else if (97 <=? n)%N && (n <=? 102)%N then Some (n - 87)%N
  else if (65 <=? n)%N && (n <=? 70)%N then Some (n - 55)%N
  else None.

Fixpoint parseDigits (base : N) (s : string) (acc : N) : option N :=
  match s with
  | EmptyString => Some acc
  | String c r =>
      match digitValue c with
      | Some d => if (d <? base)%N then parseDigits base r (acc * base + d)%N else None
      | None => None
      end
  end.

(** [bigint(std::string)] of the multiprecision library: base 16 after [0x],
    base 8 after a leading [0], base 10 otherwise; [None] stands for the
    exception raised on text that is not a number. *)
Definition bigint (s : string) : option Z :=
  match s with
  | EmptyString => None
  | String "0"%char (String "x"%char r) | String "0"%char (String "X"%char r) =>
      match r with
      | EmptyString => None
      | _ => Z.of_N <$> parseDigits 16 r 0
      end
  | String "0"%char r => Z.of_N <$> parseDigits 8 r 0
  | _ => Z.of_N <$> parseDigits 10 s 0
  end.

(** The conversion of [int + size_t] back to [int]. *)
Definition wrap_int (z : Z) : Z := (z + 2 ^ 31) mod 2 ^ 32 - 2 ^ 31.

Definition nonEmpty (s : string) : bool :=
  match s with EmptyString => false | String _ _ => true end.

(** ** The handlers *)

Section Analyzer.

Variable cfg : Config.

Definition expectValidType (ty : YulString) (loc : SourceLocation) : M unit :=
  when (negb (bool_decide (ty ∈ types (m_dialect cfg))))
    (typeError loc
       (dq +:+ ty +:+ dq +:+ " is not a valid type (user defined types are not yet supported)."))%string.

Definition expectedTypeMessage (expectedType givenType : YulString) : string :=
  ("Expected a value of type " +:+ dq +:+ expectedType +:+ dq +:+
   " but got " +:+ dq +:+ givenType)%string.

Definition expectType (expectedType givenType : YulString) (loc : SourceLocation) : M bool :=
  if bool_decide (expectedType ≠ givenType) then
    typeError loc (expectedTypeMessage expectedType givenType);;
    mret false
  else mret true.

Definition expectDeposit (deposit oldHeight : Z) (loc : SourceLocation) : M bool :=
  h ← gets m_stackHeight;
  if bool_decide (h - oldHeight ≠ deposit) then
    typeError loc
      ("Expected expression to return one item to the stack, but did return " +:+
       pretty (h - oldHeight) +:+ " items.")%string;;
    mret false
  else mret true.

(** [expectExpression(_expr)], given the walk of [_expr]. *)
Definition expectExpression (walk : M bool) (loc : SourceLocation) : M bool :=
  initialHeight ← gets m_stackHeight;
  ok ← walk;
  if ok : bool then expectDeposit 1 initialHeight loc else mret false.

(** [scope(_block)]: the scope the filler attached to a block. *)
Definition scope (block : Addr) : M Scope :=
  λ st, match scopes (m_info st) !! block with
        | Some s => Normal s st
        | None => Crash AssertionFailed
        end.

Definition jumpMessage : string :=
  ("Jump instructions and labels are low-level EVM features that can lead to " +:+
   "incorrect stack access. Because of that they are disallowed in strict assembly. " +:+
   "Use functions, " +:+ dq +:+ "switch" +:+ dq +:+ ", " +:+ dq +:+ "if" +:+ dq +:+
   " or " +:+ dq +:+ "for" +:+ dq +:+ " statements instead.")%string.

Definition errorForVM (instr : Instruction) (loc : SourceLocation) (vmKindMessage : string) : M unit :=
  typeError loc
    ("The " +:+ dq +:+ to_lower_copy (instructionName instr) +:+ dq +:+ " instruction is " +:+
     vmKindMessage +:+ " VMs " +:+ " (you are currently compiling for " +:+ dq +:+
     evm_name (m_evmVersion cfg) +:+ dq +:+ ").")%string.

Definition isOneOf (i : Instruction) (l : list Instruction) : bool :=
  bool_decide (i ∈ l).

(** [warnOnInstructions(evmasm::Instruction, SourceLocation const&)] *)
Definition warnOnInstructions_instr (instr : Instruction) (loc : SourceLocation) : M bool :=
  let v := m_evmVersion cfg in
  yulAssert (bool_decide (supportsReturndata v = hasStaticCall v));;
  yulAssert (bool_decide (hasBitwiseShifting v = hasCreate2 v));;
  if isOneOf instr [RETURNDATACOPY; RETURNDATASIZE] && negb (supportsReturndata v) then
    errorForVM instr loc "only available for Byzantium-compatible";; mret true
  else if bool_decide (instr = STATICCALL) && negb (hasStaticCall v) then
    errorForVM instr loc "only available for Byzantium-compatible";; mret true
  else if isOneOf instr [SHL; SHR; SAR] && negb (hasBitwiseShifting v) then
    errorForVM instr loc "only available for Constantinople-compatible";; mret true
  else if bool_decide (instr = CREATE2) && negb (hasCreate2 v) then
    errorForVM instr loc "only available for Constantinople-compatible";; mret true
  else if bool_decide (instr = EXTCODEHASH) && negb (hasExtCodeHash v) then
    errorForVM instr loc "only available for Constantinople-compatible";; mret true
  else if bool_decide (instr = CHAINID) && negb (hasChainID v) then
    errorForVM instr loc "only available for Istanbul-compatible";; mret true
  else if bool_decide (instr = SELFBALANCE) && negb (hasSelfBalance v) then
    errorForVM instr loc "only available for Istanbul-compatible";; mret true
  else if isOneOf instr [JUMP; JUMPI; JUMPDEST] then
    error SyntaxError loc jumpMessage;; mret true
  else mret false.

(** [warnOnInstructions(std::string const&, SourceLocation const&)] *)
Definition warnOnInstructions (instructionIdentifier : string) (loc : SourceLocation) : M bool :=
  match strictAssemblyBuiltin cfg instructionIdentifier with
  | Some (Some instr) => warnOnInstructions_instr instr loc
  | Some None => crash BadOptionalAccess
  | None => mret false
  end.

(** The resolver is called and the diagnostics it raises reach the reporter. *)
Definition callResolver (r : Resolver) (i : Identifier) (ctx : IdentifierContext)
    (inside : bool) : M N :=
  let '(diagnostics, size) := r i ctx inside in
  forEach (λ e (_ : unit), error (err_type e) (err_location e) (err_message e)) diagnostics tt;;
  mret size.

Definition numErrors : M nat := gets (λ st, length (errors (m_errorReporter st))).

Definition isActive (v : N * string) : M bool :=
  gets (λ st, bool_decide (v ∈ m_activeVariables st)).

Definition addToStackHeight (d : Z) : M unit :=
  modify (λ st, set_stackHeight (m_stackHeight st + d) st).

(** [operator()(Literal const&)] *)
Definition visit_Literal (l : Literal) : M bool :=
  expectValidType (lit_type l) (lit_location l);;
  addToStackHeight 1;;
  if bool_decide (lit_kind l = KString) && bool_decide (32 < String.length (lit_value l))%nat then
    typeError (lit_location l)
      ("String literal too long (" +:+ pretty (String.length (lit_value l)) +:+ " > 32)")%string;;
    mret false
  else
    tooLarge ← (if bool_decide (lit_kind l = KNumber) then
                  match bigint (lit_value l) with
                  | Some v => mret (bool_decide (u256_max < v))
                  | None => crash InvalidNumber
                  end
                else mret false);
    if tooLarge : bool then
      typeError (lit_location l) "Number literal too large (> 256 bits)";;
      mret false
    else
      when (bool_decide (lit_kind l = KBoolean))
        (yulAssert (bool_decide (lit_value l = "true") || bool_decide (lit_value l = "false")));;
      when (negb (validTypeForLiteral (m_dialect cfg) (lit_kind l) (lit_value l) (lit_type l)))
        (typeError (lit_location l)
           ("Invalid type " +:+ dq +:+ lit_type l +:+ dq +:+ " for literal " +:+ dq +:+
            lit_value l +:+ dq +:+ ".")%string);;
      modify (recordStackHeight (lit_addr l));;
      modify (set_typeOfCurrentExpression [lit_type l]);;
      mret true.

(** [operator()(Identifier const&)] *)
Definition visit_Identifier (i : Identifier) : M bool :=
  yulAssert (nonEmpty (id_name i));;
  numErrorsBefore ← numErrors;
  modify (set_typeOfCurrentExpression [defaultType (m_dialect cfg)]);;
  sc ← currentScope;
  success ← match Scope_lookup sc (id_name i) with
            | Some (a, ScopeVariable ty) =>
                active ← isActive (a, id_name i);
                when (negb active)
                  (declarationError (id_location i)
                     ("Variable " +:+ id_name i +:+ " used before it was declared.")%string);;
                modify (set_typeOfCurrentExpression [ty]);;
                addToStackHeight 1;;
                mret active
            | Some (_, ScopeFunction _ _) =>
                typeError (id_location i)
                  ("Function " +:+ id_name i +:+ " used without being called.")%string;;
                mret false
            | None =>
                stackSize ← match m_resolver cfg with
                            | Some r => callResolver r i RValue (insideFunction sc)
                            | None => mret size_t_max
                            end;
                ok ← (if bool_decide (stackSize = size_t_max) then
                        n ← numErrors;
                        when (bool_decide (numErrorsBefore = n))
                          (declarationError (id_location i) "Identifier not found.");;
                        mret false
                      else mret true);
                modify (λ st, set_stackHeight
                          (if bool_decide (stackSize = size_t_max) then m_stackHeight st + 1
                           else wrap_int (m_stackHeight st + Z.of_N stackSize)) st);;
                mret ok
            end;
  modify (recordStackHeight (id_addr i));;
  mret success.

(** [operator()(ExpressionStatement const&)], given the walk of the inner
    expression. *)
Definition topLevelMessage (returned : Z) : string :=
  ("Top-level expressions are not supposed to return values " +:+
   "(this expression returns " +:+ pretty returned +:+ " value" +:+
   (if bool_decide (returned = 1) then EmptyString else "s") +:+
   "). Use ``pop()`` or assign them.")%string.

Definition visit_ExpressionStatement (addr : Addr) (loc : SourceLocation)
    (walk : M bool) : M bool :=
  initialStackHeight ← gets m_stackHeight;
  success ← walk;
  h ← gets m_stackHeight;
  success ← (if success && bool_decide (h ≠ initialStackHeight) then
               error TypeError loc (topLevelMessage (h - initialStackHeight));;
               mret false
             else mret success);
  modify (recordStackHeight addr);;
  mret success.

(** [checkAssignment(Identifier const&, YulString)] *)
Definition checkAssignment (variable : Identifier) (valueType : YulString) : M bool :=
  yulAssert (nonEmpty (id_name variable));;
  numErrorsBefore ← numErrors;
  sc ← currentScope;
  '(success, variableSize, variableType) ←
    match Scope_lookup sc (id_name variable) with
    | Some (a, var) =>
        '(success, variableType) ←
          match var with
          | ScopeFunction _ _ =>
              typeError (id_location variable) "Assignment requires variable.";;
              mret (false, defaultType (m_dialect cfg))
          | ScopeVariable ty =>
              active ← isActive (a, id_name variable);
              if active : bool then mret (true, ty)
              else
                declarationError (id_location variable)
                  ("Variable " +:+ id_name variable +:+ " used before it was declared.")%string;;
                mret (false, defaultType (m_dialect cfg))
          end;
        mret (success, 1%N, variableType)
    | None =>
        match m_resolver cfg with
        | Some r =>
            size ← callResolver r variable LValue (insideFunction sc);
            mret (true, size, defaultType (m_dialect cfg))
        | None => mret (true, size_t_max, defaultType (m_dialect cfg))
        end
    end;
  success ← (if bool_decide (variableSize = size_t_max) then
               n ← numErrors;
               when (bool_decide (numErrorsBefore = n))
                 (declarationError (id_location variable)
                    "Variable not found or variable not lvalue.");;
               mret false
             else mret success);
  addToStackHeight (-1);;
  success ← (if bool_decide (variableSize ≠ 1%N) && bool_decide (variableSize ≠ size_t_max) then
               typeError (id_location variable)
                 ("Variable size (" +:+ pretty variableSize +:+
                  ") and value size (1) do not match.")%string;;
               mret false
             else mret success);
  if success && bool_decide (variableType ≠ valueType) then
    typeError (id_location variable)
      ("Assigning a value of type " +:+ dq +:+ valueType +:+ dq +:+
       " to a variable of type " +:+ dq +:+ variableType +:+ dq +:+ ".")%string;;
    mret false
  else mret success.

(** The type the [i]-th target receives: [m_typeOfCurrentExpression[i]] when
    it exists, the default type otherwise. *)
Definition givenTypeAt (i : nat) : M YulString :=
  gets (λ st, default (defaultType (m_dialect cfg)) (m_typeOfCurrentExpression st !! i)).

(** [operator()(Assignment const&)], given the walk of the value. *)
Definition visit_Assignment (addr : Addr) (loc : SourceLocation)
    (variableNames : list Identifier) (walk : M bool) : M bool :=
  let expectedItems := Z.of_nat (length variableNames) in
  yulAssert (bool_decide (1 ≤ expectedItems));;
  stackHeight ← gets m_stackHeight;
  success ← walk;
  h ← gets m_stackHeight;
  if bool_decide (h - stackHeight ≠ expectedItems) then
    declarationError loc
      ("Variable count does not match number of values (" +:+ pretty expectedItems +:+
       " vs. " +:+ pretty (h - stackHeight) +:+ ")")%string;;
    mret false
  else
    success ← forEachIndexed
                (λ i variable success,
                   givenType ← givenTypeAt i;
                   ok ← checkAssignment variable givenType;
                   mret (success && ok))
                variableNames success;
    modify (recordStackHeight addr);;
    mret success.

(** [m_activeVariables.insert(&std::get<Scope::Variable>(s.identifiers.at(name)))] *)
Definition activateVariable (s : Scope) (name : YulString) : M unit :=
  match identifiers s !! name with
  | None => crash OutOfRange
  | Some (ScopeFunction _ _) => crash BadVariantAccess
  | Some (ScopeVariable _) => modify (activate (scope_addr s, name))
  end.

(** One round of the loop of the declaration handler over the declared
    variables: the type check of the [i]-th variable, which is then marked
    active. *)
Definition declareVariable (i : nat) (variable : TypedName) (success : bool) : M bool :=
  givenType ← givenTypeAt i;
  expectValidType (tn_type variable) (tn_location variable);;
  success ← (if bool_decide (tn_type variable ≠ givenType) then
               typeError (tn_location variable)
                 ("Assigning value of type " +:+ dq +:+ givenType +:+ dq +:+
                  " to variable of type " +:+ dq +:+ tn_type variable +:+ ".")%string;;
               mret false
             else mret success);
  sc ← currentScope;
  activateVariable sc (tn_name variable);;
  mret success.

(** The first loop of the declaration handler: the resolver, when there is
    one, is told of every declared variable.  The identifier it receives is a
    temporary, written here with the address 0. *)
Definition notifyResolver (variables : list TypedName) : M unit :=
  match m_resolver cfg with
  | Some r =>
      forEach (λ variable (_ : unit),
                 sc ← currentScope;
                 callResolver r
                   {| id_addr := 0%N; id_location := tn_location variable;
                      id_name := tn_name variable |}
                   VariableDeclaration (insideFunction sc);;
                 mret tt)
              variables tt
  | None => mret tt
  end.

(** The value of a declaration: [None] stands for the return taken on a count
    mismatch, [Some success] for the handler going on. *)
Definition declaredValue (loc : SourceLocation) (numVariables : Z) (walk : option (M bool))
  : M (option bool) :=
  match walk with
  | Some walkValue =>
      stackHeight ← gets m_stackHeight;
      success ← walkValue;
      h ← gets m_stackHeight;
      let numValues := h - stackHeight in
      if bool_decide (numValues ≠ numVariables) then
        declarationError loc
          ("Variable count mismatch: " +:+ pretty numVariables +:+
           " variables and " +:+ pretty numValues +:+ " values.")%string;;
        addToStackHeight (numVariables - numValues);;
        mret None
      else mret (Some success)
  | None =>
      addToStackHeight numVariables;;
      mret (Some true)
  end.

(** [operator()(VariableDeclaration const&)], given the walk of the value when
    there is one. *)
Definition visit_VariableDeclaration (addr : Addr) (loc : SourceLocation)
    (variables : list TypedName) (walk : option (M bool)) : M bool :=
  let numVariables := Z.of_nat (length variables) in
  notifyResolver variables;;
  proceed ← declaredValue loc numVariables walk;
  match proceed with
  | None => mret false
  | Some success =>
      success ← forEachIndexed declareVariable variables success;
      modify (recordStackHeight addr);;
      mret success
  end.

(** [operator()(FunctionDefinition const&)], given the walk of the body. *)
Definition visit_FunctionDefinition (addr : Addr) (name : YulString)
    (parameters returnVariables : list TypedName) (walkBody : M bool) : M bool :=
  yulAssert (nonEmpty name);;
  virtualBlock ← (λ st, match virtualBlocks (m_info st) !! addr with
                        | Some (Some vb) => Normal vb st
                        | Some None => Crash AssertionFailed
                        | None => Crash OutOfRange
                        end);
  varScope ← scope virtualBlock;
  forEach (λ var (_ : unit),
             expectValidType (tn_type var) (tn_location var);;
             activateVariable varScope (tn_name var))
          (parameters ++ returnVariables) tt;;
  stackHeight ← gets m_stackHeight;
  modify (set_stackHeight (Z.of_nat (length parameters) + Z.of_nat (length returnVariables)));;
  success ← walkBody;
  modify (set_stackHeight stackHeight);;
  modify (recordStackHeight addr);;
  mret success.

(** The callee of a call: success so far, [parameterTypes], [returnTypes]
    (null pointers are [None]) and [needsLiteralArguments]. *)
Definition resolveCallee (functionName : Identifier)
  : M (bool * option (list YulString) * option (list YulString) * bool) :=
  match builtin (m_dialect cfg) (id_name functionName) with
  | Some f => mret (true, Some (bf_parameters f), Some (bf_returns f), bf_literalArguments f)
  | None =>
      sc ← currentScope;
      match Scope_lookup sc (id_name functionName) with
      | Some (_, ScopeVariable _) =>
          typeError (id_location functionName) "Attempt to call variable instead of function.";;
          mret (false, None, None, false)
      | Some (_, ScopeFunction arguments returns) =>
          mret (true, Some arguments, Some returns, false)
      | None =>
          warned ← warnOnInstructions (id_name functionName) (id_location functionName);
          when (negb warned)
            (declarationError (id_location functionName) "Function not found.");;
          mret (false, None, None, false)
      end
  end.

(** One round of the loop over the arguments of a call. *)
Definition argumentStep (functionName : Identifier) (needsLiteralArguments : bool)
    (arg : Expression) (walk : M bool) (acc : bool * list YulString)
  : M (bool * list YulString) :=
  let '(success, argTypes) := acc in
  ok ← expectExpression walk (locationOf arg);
  if ok : bool then
    ty ← typeOfCurrentExpression_at0;
    when needsLiteralArguments
      (match arg with
       | ELiteral l =>
           when (negb (bool_decide (lit_value l ∈ m_dataNames cfg)))
             (typeError (id_location functionName)
                ("Unknown data object " +:+ dq +:+ lit_value l +:+ dq +:+ ".")%string)
       | _ =>
           typeError (id_location functionName) "Function expects direct literals as arguments."
       end);;
    mret (success, argTypes ++ [ty])
  else mret (false, argTypes).

(** The pairwise check of the declared parameter types. *)
Definition expectParameterTypes (parameterTypes argTypes : list YulString)
    (arguments : list Expression) : M bool :=
  forEach (λ i success,
             match parameterTypes !! i, argTypes !! i, arguments !! i with
             | Some p, Some t, Some a =>
                 ok ← expectType p t (locationOf a);
                 mret (success && ok)
             | _, _, _ => crash OutOfRange
             end)
          (seq 0 (length parameterTypes)) true.

(** [operator()(FunctionCall const&)], given the loop over its arguments. *)
Definition visit_FunctionCall (addr : Addr) (functionName : Identifier)
    (arguments : list Expression)
    (walkArguments : bool → bool * list YulString → M (bool * list YulString)) : M bool :=
  yulAssert (nonEmpty (id_name functionName));;
  '(success, parameterTypes, returnTypes, needsLiteralArguments) ← resolveCallee functionName;
  success ← (if success : bool then
               match parameterTypes with
               | Some p =>
                   if bool_decide (length arguments ≠ length p) then
                     typeError (id_location functionName)
                       ("Function expects " +:+ pretty (length p) +:+ " arguments but got " +:+
                        pretty (length arguments) +:+ ".")%string;;
                     mret false
                   else mret true
               | None => crash NullDereference
               end
             else mret false);
  '(success, argTypes) ← walkArguments needsLiteralArguments (success, []);
  success ← (if success : bool then
               match parameterTypes with
               | Some p =>
                   yulAssert (bool_decide (length p = length argTypes));;
                   expectParameterTypes p argTypes arguments
               | None => crash AssertionFailed
               end
             else mret false);
  addToStackHeight
    (Z.of_nat (match returnTypes with Some r => length r | None => 0%nat end) -
     Z.of_nat (length arguments));;
  modify (recordStackHeight addr);;
  if success : bool then
    match returnTypes with
    | Some r => modify (set_typeOfCurrentExpression r);; mret true
    | None => crash AssertionFailed
    end
  else
    match returnTypes with
    | Some r =>
        modify (set_typeOfCurrentExpression (replicate (length r) (defaultType (m_dialect cfg))));;
        mret false
    | None => crash NullDereference
    end.

(** The condition of an [if] or of a [for]: one value of the boolean type. *)
Definition expectCondition (walk : M bool) (loc : SourceLocation) : M bool :=
  ok ← expectExpression walk loc;
  if ok : bool then
    ty ← typeOfCurrentExpression_at0;
    expectType (boolType (m_dialect cfg)) ty loc
  else mret false.

(** [operator()(If const&)] *)
Definition visit_If (addr : Addr) (condition : Expression)
    (walkCondition walkBody : M bool) : M bool :=
  initialHeight ← gets m_stackHeight;
  success ← expectCondition walkCondition (locationOf condition);
  modify (set_stackHeight initialHeight);;
  okBody ← walkBody;
  modify (recordStackHeight addr);;
  mret (success && okBody).

Definition case_location (c : Case) : SourceLocation := let 'MkCase l _ _ := c in l.
Definition case_value (c : Case) : option Literal := let 'MkCase _ v _ := c in v.

(** One round of the second loop of the switch handler: the case value, then
    the case body.  The loop state is [success] and the set [cases]. *)
Definition visit_Case (loc : SourceLocation) (value : option Literal) (walkBody : M bool)
    (acc : bool * gset N) : M (bool * gset N) :=
  let '(success, cases) := acc in
  '(success, cases) ←
    match value with
    | Some l =>
        initialStackHeight ← gets m_stackHeight;
        isCaseValueValid ← visit_Literal l;
        expectDeposit 1 initialStackHeight (lit_location l);;
        addToStackHeight (-1);;
        reported ← gets (λ st, hasErrors (m_errorReporter st));
        yulAssert (isCaseValueValid || reported);;
        if isCaseValueValid : bool then
          match valueOfLiteral cfg l with
          | None => crash AssertionFailed
          | Some v =>
              if bool_decide (v ∈ cases) then
                declarationError loc "Duplicate case defined.";;
                mret (false, cases)
              else mret (success, {[ v ]} ∪ cases)
          end
        else mret (false, cases)
    | None => mret (success, cases)
    end;
  okBody ← walkBody;
  mret (success && okBody, cases).

(** [operator()(Switch const&)], given the walk of the scrutinee and the loop
    over the cases. *)
Definition visit_Switch (addr : Addr) (expression : Expression) (cases : list Case)
    (walkExpression : M bool)
    (walkCases : bool * gset N → M (bool * gset N)) : M bool :=
  initialHeight ← gets m_stackHeight;
  success ← expectExpression walkExpression (locationOf expression);
  valueType ← (if success : bool then typeOfCurrentExpression_at0
               else mret (defaultType (m_dialect cfg)));
  success ← forEach (λ c success,
                       match case_value c with
                       | Some l =>
                           ok ← expectType valueType (lit_type l) (lit_location l);
                           mret (success && ok)
                       | None => mret success
                       end)
                    cases success;
  '(success, _) ← walkCases (success, ∅);
  modify (set_stackHeight initialHeight);;
  modify (recordStackHeight addr);;
  mret success.

(** [operator()(ForLoop const&)] *)
Definition visit_ForLoop (addr : Addr) (pre : Block) (condition : Expression)
    (walkPre walkCondition walkBody walkPost : M bool) : M bool :=
  outerScope ← gets m_currentScope;
  initialHeight ← gets m_stackHeight;
  okPre ← walkPre;
  preScope ← scope (block_addr pre);
  addToStackHeight (Z.of_nat (numberOfVariables preScope));;
  preScope ← scope (block_addr pre);
  modify (set_currentScope (Some preScope));;
  okCondition ← expectCondition walkCondition (locationOf condition);
  addToStackHeight (-1);;
  outerForLoop ← gets m_currentForLoop;
  modify (set_currentForLoop (Some addr));;
  okBody ← walkBody;
  okPost ← walkPost;
  modify (set_stackHeight initialHeight);;
  modify (recordStackHeight addr);;
  modify (set_currentScope outerScope);;
  modify (set_currentForLoop outerForLoop);;
  mret (okPre && okCondition && okBody && okPost).

Definition unbalancedMessage (stackDiff : Z) : string :=
  ("Unbalanced stack at the end of a block: " +:+
   (if bool_decide (0 < stackDiff) then pretty stackDiff +:+ " surplus item(s)."
    else pretty (- stackDiff) +:+ " missing item(s)."))%string.

(** [operator()(Block const&)], given the loop over its statements. *)
Definition visit_Block (addr : Addr) (loc : SourceLocation) (walkStatements : M bool) : M bool :=
  previousScope ← gets m_currentScope;
  blockScope ← scope addr;
  modify (set_currentScope (Some blockScope));;
  initialStackHeight ← gets m_stackHeight;
  success ← walkStatements;
  blockScope ← scope addr;
  addToStackHeight (- Z.of_nat (numberOfVariables blockScope));;
  h ← gets m_stackHeight;
  let stackDiff := h - initialStackHeight in
  success ← (if success && bool_decide (stackDiff ≠ 0) then
               declarationError loc (unbalancedMessage stackDiff);;
               mret false
             else mret success);
  modify (recordStackHeight addr);;
  modify (set_currentScope previousScope);;
  mret success.

(** [operator()(Break const&)], and the same for [Continue] and [Leave]. *)
Definition visit_Marker (addr : Addr) : M bool :=
  modify (recordStackHeight addr);;
  mret true.

(** ** The walk: the dispatch of [std::visit] over the node kinds *)

Fixpoint walk_Expression (e : Expression) : M bool :=
  match e with
  | ELiteral l => visit_Literal l
  | EIdentifier i => visit_Identifier i
  | EFunctionCall addr _ functionName arguments =>
      visit_FunctionCall addr functionName arguments
        (λ needsLiteralArguments,
           forEachReversed
             (λ arg, argumentStep functionName needsLiteralArguments arg (walk_Expression arg))
             arguments)
  end.

Fixpoint walk_Statement (s : Statement) : M bool :=
  match s with
  | SExpressionStatement addr loc e =>
      visit_ExpressionStatement addr loc (walk_Expression e)
  | SAssignment addr loc variableNames value =>
      visit_Assignment addr loc variableNames (walk_Expression value)
  | SVariableDeclaration addr loc variables value =>
      visit_VariableDeclaration addr loc variables (walk_Expression <$> value)
  | SFunctionDefinition addr _ name parameters returnVariables body =>
      visit_FunctionDefinition addr name parameters returnVariables (walk_Block body)
  | SIf addr _ condition body =>
      visit_If addr condition (walk_Expression condition) (walk_Block body)
  | SSwitch addr _ expression cases =>
      visit_Switch addr expression cases (walk_Expression expression)
        (forEach walk_Case cases)
  | SForLoop addr _ pre condition post body =>
      visit_ForLoop addr pre condition
        (walk_Block pre) (walk_Expression condition) (walk_Block body) (walk_Block post)
  | SBreak addr _ | SContinue addr _ | SLeave addr _ => visit_Marker addr
  | SBlock b => walk_Block b
  end
with walk_Block (b : Block) : M bool :=
  match b with
  | MkBlock addr loc statements =>
      visit_Block addr loc
        (forEach (λ s success, ok ← walk_Statement s; mret (success && ok)) statements true)
  end
with walk_Case (c : Case) : bool * gset N → M (bool * gset N) :=
  match c with
  | MkCase loc value body => visit_Case loc value (walk_Block body)
  end.

(** The loop of the block handler over the statements of the block. *)
Definition walk_Statements (statements : list Statement) : M bool :=
  forEach (λ s success, ok ← walk_Statement s; mret (success && ok)) statements true.

End Analyzer.

(** ** The entry point *)

(** What a run of the scope filler leaves behind: its verdict, or the
    reporter's fatal error, with the analysis info and the reporter it wrote
    to.  The filler itself lives in libyul/AsmScopeFiller. *)
Inductive FillerOutcome :=
| Filled (ok : bool) (info : AsmAnalysisInfo) (reporter : ErrorReporter)
| FillerFatal (info : AsmAnalysisInfo) (reporter : ErrorReporter).

Definition ScopeFiller : Type := Block → AsmAnalysisInfo → ErrorReporter → FillerOutcome.

Section Analyze.

Variable cfg : Config.
Variable filler : ScopeFiller.

(** [ScopeFiller(m_info, m_errorReporter)(_block)] *)
Definition runScopeFiller (b : Block) : M bool :=
  λ st, match filler b (m_info st) (m_errorReporter st) with
        | Filled ok info er => Normal ok (set_errorReporter er (set_info info st))
        | FillerFatal info er => FatalError (set_errorReporter er (set_info info st))
        end.

(** The handler of [catch (FatalError const&)]; [success] is still false. *)
Definition catchFatalError (st : AsmAnalyzer) : Outcome bool :=
  if bool_decide (errors (m_errorReporter st) = []) then Crash AssertionFailed
  else Normal (false && negb (hasErrors (m_errorReporter st))) st.

(** [AsmAnalyzer::analyze(Block const&)] *)
Definition analyze (b : Block) : M bool :=
  λ st,
    match runScopeFiller b st with
    | Normal false st1 => Normal false st1
    | Normal true st1 =>
        match walk_Block cfg b st1 with
        | Normal success st2 =>
            if negb success && negb (hasErrors (m_errorReporter st2)) then Crash AssertionFailed
            else Normal (success && negb (hasErrors (m_errorReporter st2))) st2
        | FatalError st2 => catchFatalError st2
        | Crash w => Crash w
        end
    | FatalError st1 => catchFatalError st1
    | Crash w => Crash w
    end.

End Analyze.

(** [Object] of libyul/Object.h, by the two members the strict helper
    reads. *)
Record Object := {
  code : Block;
  dataNames : gset string }.

Section Strict.

(** Of the analyzer the strict helper builds, the dialect, the absent resolver
    and the data names are fixed by the call.  The rest comes from outside
    this file: [other] carries the target machine and the two helpers of
    other translation units, [defaults] the members the class declaration
    initialises, [maxErrors] the capacity of a new error reporter. *)
Variable filler : ScopeFiller.
Variable other : Config.
Variable defaults : AsmAnalyzer.
Variable maxErrors : nat.

Definition strictConfig (dialect : Dialect) (object : Object) : Config :=
  {| m_dialect := dialect;
     m_resolver := None;
     m_dataNames := dataNames object;
     m_evmVersion := m_evmVersion other;
     strictAssemblyBuiltin := strictAssemblyBuiltin other;
     valueOfLiteral := valueOfLiteral other |}.

(** The analyzer over a new [AsmAnalysisInfo] and a reporter on an empty
    error list. *)
Definition strictAnalyzer : AsmAnalyzer :=
  set_errorReporter {| errors := []; maxErrorsAllowed := maxErrors |}
    (set_info {| scopes := ∅; virtualBlocks := ∅; stackHeightInfo := ∅ |} defaults).

(** [AsmAnalyzer::analyzeStrictAssertCorrect(Dialect const&, Object const&)] *)
Definition analyzeStrictAssertCorrect (dialect : Dialect) (object : Object)
  : Outcome AsmAnalysisInfo :=
  match analyze (strictConfig dialect object) filler (code object) strictAnalyzer with
  | Normal success st =>
      if success && bool_decide (errors (m_errorReporter st) = [])
      then Normal (m_info st) st
      else Crash AssertionFailed
  | FatalError st => FatalError st
  | Crash w => Crash w
  end.

End Strict.

(** ** Notions used to state the properties *)

(** [post R F m] says that a run of [m] that returns relates the state before
    to the state after by [R], and a run that ends in the reporter's fatal
    error relates them by [F]. *)
Definition post (R F : AsmAnalyzer → AsmAnalyzer → Prop) {A} (m : M A) : Prop :=
  ∀ st, match m st with
        | Normal _ st' => R st st'
        | FatalError st' => F st st'
        | Crash _ => True
        end.

(** What a walk may do to the reporter, the active set and the scope tables:
    diagnostics are only appended, variables only added, the tables of the
    scope filler left as they are. *)
Definition grows (st st' : AsmAnalyzer) : Prop :=
  errors (m_errorReporter st) `prefix_of` errors (m_errorReporter st') ∧
  maxErrorsAllowed (m_errorReporter st') = maxErrorsAllowed (m_errorReporter st) ∧
  m_activeVariables st ⊆ m_activeVariables st' ∧
  scopes (m_info st') = scopes (m_info st) ∧
  virtualBlocks (m_info st') = virtualBlocks (m_info st).

(** What the walk of an expression leaves alone. *)
Definition sameFrame (st st' : AsmAnalyzer) : Prop :=
  m_currentScope st' = m_currentScope st ∧
  m_currentForLoop st' = m_currentForLoop st ∧
  m_activeVariables st' = m_activeVariables st.

(** What the declaration handler does to the scope and to the active set. *)
Definition keepsScope (st st' : AsmAnalyzer) : Prop :=
  m_currentScope st' = m_currentScope st ∧
  m_activeVariables st ⊆ m_activeVariables st'.

(** What the walk of a statement or of a block has put back when it returns. *)
Definition restores (st st' : AsmAnalyzer) : Prop :=
  m_currentScope st' = m_currentScope st ∧
  m_currentForLoop st' = m_currentForLoop st.

(** No constraint: the state a fatal error leaves behind. *)
Definition anyState (st st' : AsmAnalyzer) : Prop := True.

(** The number of diagnostics the reporter holds. *)
Definition numDiagnostics (st : AsmAnalyzer) : nat := length (errors (m_errorReporter st)).

Definition noFewer (st st' : AsmAnalyzer) : Prop :=
  (numDiagnostics st ≤ numDiagnostics st')%nat.

(** A handler that, when it returns false, has handed a diagnostic to the
    reporter. *)
Definition reportsFailure (m : M bool) : Prop :=
  ∀ st b st', m st = Normal b st' →
    noFewer st st' ∧ (b = false → (numDiagnostics st < numDiagnostics st')%nat).

(** The same for one round of a loop whose state holds the flag [success]:
    the flag is lowered only with a diagnostic. *)
Definition keepsFailure {S} (ok : S → bool) (m : S → M S) : Prop :=
  ∀ s st s' st', m s st = Normal s' st' →
    noFewer st st' ∧
    (ok s' = false → ok s = false ∨ (numDiagnostics st < numDiagnostics st')%nat).

(** The literals the literal handler accepts: a string of at most 32 bytes, a
    number of at most 256 bits. *)
Definition literalValid (l : Literal) : bool :=
  negb (bool_decide (lit_kind l = KString) && bool_decide (32 < String.length (lit_value l))%nat)
  && negb (bool_decide (lit_kind l = KNumber) &&
           match bigint (lit_value l) with
           | Some v => bool_decide (u256_max < v)
           | None => false
           end).

Definition duplicateCase (loc : SourceLocation) : Error :=
  {| err_type := DeclarationError; err_location := loc;
     err_message := "Duplicate case defined." |}.

(** Whether [v] is a variable bound in the scope [s] or in a scope that
    encloses it. *)
Fixpoint boundInChain (s : Scope) (v : N * string) : bool :=
  match s with
  | MkScope a ids sup _ =>
      (bool_decide (v.1 = a) &&
       match ids !! v.2 with Some (ScopeVariable _) => true | _ => false end)
      || match sup with Some p => boundInChain p v | None => false end
  end.

(** What a step that only talks to the reporter leaves alone. *)
Definition reportsOnly (st st' : AsmAnalyzer) : Prop :=
  m_stackHeight st' = m_stackHeight st ∧
  m_currentScope st' = m_currentScope st ∧
  m_activeVariables st' = m_activeVariables st ∧
  m_info st' = m_info st ∧
  m_typeOfCurrentExpression st' = m_typeOfCurrentExpression st ∧
  m_currentForLoop st' = m_currentForLoop st.

(** What the marking of variables leaves alone. *)
Definition marksOnly (st st' : AsmAnalyzer) : Prop :=
  m_stackHeight st' = m_stackHeight st ∧
  m_currentScope st' = m_currentScope st ∧
  m_info st' = m_info st ∧
  m_typeOfCurrentExpression st' = m_typeOfCurrentExpression st ∧
  m_currentForLoop st' = m_currentForLoop st.

(** The state a fatal error leaves behind holds a diagnostic. *)
Definition hasReported (_ st' : AsmAnalyzer) : Prop := errors (m_errorReporter st') ≠ [].

(** The runs of a loop that conjoins the verdicts of its rounds, as the loop
    of the block handler does. *)
Inductive runsAll {A} (f : A → M bool) : list A → AsmAnalyzer → bool → AsmAnalyzer → Prop :=
| runsAll_nil st : runsAll f [] st true st
| runsAll_cons x r st ok st1 b st' :
    f x st = Normal ok st1 → runsAll f r st1 b st' → runsAll f (x :: r) st (ok && b) st'.

(** The number of variables a statement declares in the scope of its block. *)
Definition declaredVariables (s : Statement) : nat :=
  match s with
  | SVariableDeclaration _ _ variables _ => length variables
  | _ => 0%nat
  end.

(** The parameter and return types of the callee of a call: those of the
    built-in of that name, else those of the function the name is bound to in
    the scope chain. *)
Definition calleeSignature (cfg : Config) (current : option Scope) (name : YulString)
  : option (list YulString * list YulString) :=
  match builtin (m_dialect cfg) name with
  | Some f => Some (bf_parameters f, bf_returns f)
  | None =>
      match current with
      | Some sc =>
          match Scope_lookup sc name with
          | Some (_, ScopeFunction arguments returns) => Some (arguments, returns)
          | _ => None
          end
      | None => None
      end
  end.

(** A target the assignment check accepts for a value of type [ty]: an
    active variable of that type, or a name the resolver sized 1. *)
Definition acceptedTarget (cfg : Config) (sc : Scope) (active : gset (N * string))
    (v : Identifier) (ty : YulString) : Prop :=
  (∃ a, Scope_lookup sc (id_name v) = Some (a, ScopeVariable ty) ∧ (a, id_name v) ∈ active) ∨
  (Scope_lookup sc (id_name v) = None ∧
   ∃ r, m_resolver cfg = Some r ∧
        (r v LValue (insideFunction sc)).2 = 1%N ∧
        ty = defaultType (m_dialect cfg)).

(** The diagnostic the check of literal arguments raises for an argument, if
    any. *)
Definition literalArgumentError (cfg : Config) (fn : Identifier) (arg : Expression)
  : option Error :=
  match arg with
  | ELiteral l =>
      if bool_decide (lit_value l ∈ m_dataNames cfg) then None
      else Some {| err_type := TypeError; err_location := id_location fn;
                   err_message := ("Unknown data object " +:+ dq +:+ lit_value l +:+ dq +:+
                                   ".")%string |}
  | _ => Some {| err_type := TypeError; err_location := id_location fn;
                 err_message := "Function expects direct literals as arguments." |}
  end.

(** Two diagnostics of the literal and identifier handlers. *)
Definition invalidLiteralType (l : Literal) : Error :=
  {| err_type := TypeError; err_location := lit_location l;
     err_message := ("Invalid type " +:+ dq +:+ lit_type l +:+ dq +:+ " for literal " +:+ dq +:+
                     lit_value l +:+ dq +:+ ".")%string |}.

Definition usedBeforeDeclared (i : Identifier) : Error :=
  {| err_type := DeclarationError; err_location := id_location i;
     err_message := ("Variable " +:+ id_name i +:+ " used before it was declared.")%string |}.

(** The nodes a walk visits: the addresses the handlers use as keys of
    [stackHeightInfo].  The name of a callee and the targets of an assignment
    are identifiers the walk does not visit. *)
Fixpoint nodes_Expression (e : Expression) : list Addr :=
  match e with
  | ELiteral l => [lit_addr l]
  | EIdentifier i => [id_addr i]
  | EFunctionCall addr _ _ arguments => addr :: concat (nodes_Expression <$> arguments)
  end.

Fixpoint nodes_Statement (s : Statement) : list Addr :=
  match s with
  | SExpressionStatement addr _ e => addr :: nodes_Expression e
  | SAssignment addr _ _ value => addr :: nodes_Expression value
  | SVariableDeclaration addr _ _ value =>
      addr :: match value with Some e => nodes_Expression e | None => [] end
  | SFunctionDefinition addr _ _ _ _ body => addr :: nodes_Block body
  | SIf addr _ condition body => addr :: nodes_Expression condition ++ nodes_Block body
  | SSwitch addr _ expression cases =>
      addr :: nodes_Expression expression ++ concat (nodes_Case <$> cases)
  | SForLoop addr _ pre condition post body =>
      addr :: nodes_Block pre ++ nodes_Expression condition ++ nodes_Block body ++ nodes_Block post
  | SBreak addr _ | SContinue addr _ | SLeave addr _ => [addr]
  | SBlock b => nodes_Block b
  end
with nodes_Block (b : Block) : list Addr :=
  match b with
  | MkBlock addr _ statements => addr :: concat (nodes_Statement <$> statements)
  end
with nodes_Case (c : Case) : list Addr :=
  match c with
  | MkCase _ value body =>
      match value with Some l => [lit_addr l] | None => [] end ++ nodes_Block body
  end.

(** Entries of [stackHeightInfo] are only added or overwritten. *)
Definition keepsEntries (st st' : AsmAnalyzer) : Prop :=
  ∀ n, is_Some (stackHeightInfo (m_info st) !! n) → is_Some (stackHeightInfo (m_info st') !! n).

Definition annotated (ns : list Addr) (st : AsmAnalyzer) : Prop :=
  ∀ n, n ∈ ns → is_Some (stackHeightInfo (m_info st) !! n).

Definition annotates (ns : list Addr) (m : M bool) : Prop :=
  ∀ st st', m st = Normal true st' → annotated ns st'.

(** The blocks a walk enters: the addresses the block handler looks up in
    the scope table. *)
Fixpoint blocks_Statement (s : Statement) : list Addr :=
  match s with
  | SFunctionDefinition _ _ _ _ _ body => blocks_Block body
  | SIf _ _ _ body => blocks_Block body
  | SSwitch _ _ _ cases => concat (blocks_Case <$> cases)
  | SForLoop _ _ pre _ post body => blocks_Block pre ++ blocks_Block body ++ blocks_Block post
  | SBlock b => blocks_Block b
  | _ => []
  end
with blocks_Block (b : Block) : list Addr :=
  match b with
  | MkBlock addr _ statements => addr :: concat (blocks_Statement <$> statements)
  end
with blocks_Case (c : Case) : list Addr :=
  match c with
  | MkCase _ _ body => blocks_Block body
  end.

Definition scoped (bs : list Addr) (st : AsmAnalyzer) : Prop :=
  ∀ a, a ∈ bs → is_Some (scopes (m_info st) !! a).

(** The variables a declaration of [variables] marks when [s] is the
    current scope: the pairs the marking loop inserts. *)
Definition markedBy (s : Scope) (variables : list TypedName) : gset (N * string) :=
  list_to_set ((λ v, (scope_addr s, tn_name v)) <$> variables).

(** The variables whose marking a walk reaches: those of the declarations,
    in the scope of the block that holds them, and the parameters and return
    variables of the function definitions, in the scope of their virtual
    block.  The tables are those of the analysis info. *)
Section Declared.

Variable scopeTable : gmap N Scope.
Variable virtualTable : gmap N (option N).

Fixpoint declared_Statement (current : option Scope) (s : Statement) : gset (N * string) :=
  match s with
  | SVariableDeclaration _ _ variables _ =>
      match current with Some sc => markedBy sc variables | None => ∅ end
  | SFunctionDefinition addr _ _ parameters returnVariables body =>
      match virtualTable !! addr with
      | Some (Some virtualBlock) =>
          match scopeTable !! virtualBlock with
          | Some varScope => markedBy varScope (parameters ++ returnVariables)
          | None => ∅
          end
      | _ => ∅
      end ∪ declared_Block body
  | SIf _ _ _ body => declared_Block body
  | SSwitch _ _ _ cases => ⋃ (declared_Case <$> cases)
  | SForLoop _ _ pre _ post body =>
      declared_Block pre ∪ declared_Block body ∪ declared_Block post
  | SBlock b => declared_Block b
  | _ => ∅
  end
with declared_Block (b : Block) : gset (N * string) :=
  match b with
  | MkBlock addr _ statements =>
      ⋃ (declared_Statement (scopeTable !! addr) <$> statements)
  end
with declared_Case (c : Case) : gset (N * string) :=
  match c with
  | MkCase _ _ body => declared_Block body
  end.

Definition declared_Statements (current : option Scope) (statements : list Statement)
  : gset (N * string) :=
  ⋃ (declared_Statement current <$> statements).

End Declared.

(** A run that starts from the tables [S] and [V] and with the current
    scope [cur] keeps the tables, puts the current scope back and marks,
    besides what was active, only elements of [D]. *)
Definition addsOnly (S : gmap N Scope) (V : gmap N (option N)) (cur : option Scope)
    (D : gset (N * string)) (st st' : AsmAnalyzer) : Prop :=
  scopes (m_info st) = S → virtualBlocks (m_info st) = V → m_currentScope st = cur →
  scopes (m_info st') = S ∧ virtualBlocks (m_info st') = V ∧ m_currentScope st' = cur ∧
  m_activeVariables st' ⊆ m_activeVariables st ∪ D.

(** ** A small dialect and programs to run the walk on *)

Module Examples.

(** A typed dialect with one built-in, [add(u256, u256) -> u256]. *)
Definition dialect : Dialect := {|
  defaultType := "u256";
  boolType := "bool";
  types := {[ "u256"; "bool" ]};
  builtin := λ name,
    if bool_decide (name = "add")
    then Some {| bf_parameters := ["u256"; "u256"]; bf_returns := ["u256"];
                 bf_literalArguments := false |}
    else None;
  validTypeForLiteral := λ kind _ ty,
    match kind with
    | KBoolean => bool_decide (ty = "bool")
    | _ => bool_decide (ty = "u256")
    end |}.

Definition istanbul : EVMVersion := {|
  supportsReturndata := true; hasStaticCall := true; hasBitwiseShifting := true;
  hasCreate2 := true; hasExtCodeHash := true; hasChainID := true; hasSelfBalance := true;
  evm_name := "istanbul" |}.

(** A value for every literal: a number by its value, [true] and [false] as 1
    and 0, a string of at most 32 bytes as its bytes followed by zeros up to
    32 bytes, read as one big-endian number. *)
Fixpoint bytesValue (s : string) (acc : N) : N :=
  match s with
  | EmptyString => acc
  | String c r => bytesValue r (acc * 256 + N.of_nat (Ascii.nat_of_ascii c))%N
  end.

Definition literalValue (l : Literal) : option N :=
  match lit_kind l with
  | KNumber => Z.to_N <$> bigint (lit_value l)
  | KBoolean => Some (if bool_decide (lit_value l = "true") then 1%N else 0%N)
  | KString =>
      if bool_decide (String.length (lit_value l) ≤ 32)%nat
      then Some (bytesValue (lit_value l) 0 *
                 256 ^ N.of_nat (32 - String.length (lit_value l)))%N
      else None
  end.

Definition cfg : Config := {|
  m_dialect := dialect;
  m_resolver := None;
  m_dataNames := ∅;
  m_evmVersion := istanbul;
  strictAssemblyBuiltin := λ name,
    if bool_decide (name = "jump") then Some (Some JUMP)
    else if bool_decide (name = "shl") then Some (Some SHL)
    else None;
  valueOfLiteral := literalValue |}.

(** A fresh analyzer over the given analysis info. *)
Definition fresh (info : AsmAnalysisInfo) : AsmAnalyzer := {|
  m_stackHeight := 0;
  m_currentScope := None;
  m_activeVariables := ∅;
  m_info := info;
  m_errorReporter := {| errors := []; maxErrorsAllowed := 256 |};
  m_typeOfCurrentExpression := [];
  m_currentForLoop := None |}.

Definition number (addr loc : N) (v : string) : Literal :=
  {| lit_addr := addr; lit_location := loc; lit_kind := KNumber; lit_value := v;
     lit_type := "u256" |}.

Definition emptyScope (addr : N) (sup : option Scope) : Scope :=
  {| scope_addr := addr; identifiers := ∅; superScope := sup; functionScope := false |}.

Definition infoOf (l : list (N * Scope)) : AsmAnalysisInfo :=
  {| scopes := list_to_map l; virtualBlocks := ∅; stackHeightInfo := ∅ |}.

(** [{ let x := 7  let y := add(x, 1) }] *)
Definition scope1 : Scope :=
  {| scope_addr := 100;
     identifiers := {[ "x" := ScopeVariable "u256"; "y" := ScopeVariable "u256" ]};
     superScope := None; functionScope := false |}.

Definition program1 : Block :=
  MkBlock 1 1 [
    SVariableDeclaration 2 2 [ {| tn_location := 3; tn_name := "x"; tn_type := "u256" |} ]
      (Some (ELiteral (number 4 4 "7")));
    SVariableDeclaration 5 5 [ {| tn_location := 6; tn_name := "y"; tn_type := "u256" |} ]
      (Some (EFunctionCall 7 7 {| id_addr := 8; id_location := 8; id_name := "add" |}
               [ EIdentifier {| id_addr := 9; id_location := 9; id_name := "x" |};
                 ELiteral (number 10 10 "1") ])) ].

Definition result {A} (o : Outcome A) : option A :=
  match o with Normal a _ => Some a | _ => None end.

Definition finalState {A} (o : Outcome A) : option AsmAnalyzer :=
  match o with Normal _ st | FatalError st => Some st | Crash _ => None end.

(** The diagnostics held by the reporter when the run ends. *)
Definition reported {A} (o : Outcome A) : option (list Error) :=
  (λ st, errors (m_errorReporter st)) <$> finalState o.

(** The entry of [stackHeightInfo] for a node when the run ends. *)
Definition heightAfter {A} (node : N) (o : Outcome A) : option Z :=
  finalState o ≫= λ st, stackHeightInfo (m_info st) !! node.

Definition activeAfter {A} (o : Outcome A) : option (list (N * string)) :=
  (λ st, elements (m_activeVariables st)) <$> finalState o.

(** A scope filler that succeeds with a prepared analysis info. *)
Definition fillerOf (info : AsmAnalysisInfo) : ScopeFiller :=
  λ _ _ er, Filled true info er.

Definition typed (loc : N) (name ty : string) : TypedName :=
  {| tn_location := loc; tn_name := name; tn_type := ty |}.

Definition ident (addr : N) (name : string) : Identifier :=
  {| id_addr := addr; id_location := addr; id_name := name |}.

Definition variables (addr : N) (names : list string) (sup : option Scope) : Scope :=
  {| scope_addr := addr;
     identifiers := list_to_map ((λ n, (n, ScopeVariable "u256")) <$> names);
     superScope := sup; functionScope := false |}.

(** A string literal of 33 bytes and the number literal 2^256. *)
Definition longString : Literal :=
  {| lit_addr := 2; lit_location := 2; lit_kind := KString;
     lit_value := "abcdefghijklmnopqrstuvwxyz0123456"; lit_type := "u256" |}.

Definition bigNumber : Literal :=
  number 2 2 "115792089237316195423570985008687907853269984665640564039457584007913129639936".

(** [{ let x := "abcdefghijklmnopqrstuvwxyz0123456" }] and [{ let x := 2^256 }];
    the literal is node 2, the declaration node 6. *)
Definition declare (l : Literal) : Block :=
  MkBlock 1 1 [ SVariableDeclaration 6 6 [typed 3 "x" "u256"] (Some (ELiteral l)) ].

(** [{ let x, y := 1 }] *)
Definition declMismatch : Block :=
  MkBlock 1 1 [ SVariableDeclaration 2 2 [typed 3 "x" "u256"; typed 4 "y" "u256"]
                  (Some (ELiteral (number 5 5 "1"))) ].

(** [{ let x  let y  x, y := 1 }] *)
Definition assignMismatch : Block :=
  MkBlock 1 1 [ SVariableDeclaration 6 6 [typed 3 "x" "u256"] None;
                SVariableDeclaration 7 7 [typed 4 "y" "u256"] None;
                SAssignment 2 2 [ident 8 "x"; ident 9 "y"] (ELiteral (number 5 5 "1")) ].

Definition xyInfo : AsmAnalysisInfo := infoOf [(1%N, variables 100 ["x"; "y"] None)].

(** [{ function f(a:bool, b:u256) {}  f(true, 1) }] *)
Definition fScope : Scope :=
  {| scope_addr := 100;
     identifiers := {[ "f" := ScopeFunction ["bool"; "u256"] [] ]};
     superScope := None; functionScope := false |}.

Definition fVirtualScope : Scope :=
  {| scope_addr := 101;
     identifiers := {[ "a" := ScopeVariable "bool"; "b" := ScopeVariable "u256" ]};
     superScope := Some fScope; functionScope := true |}.

Definition callF : Expression :=
  EFunctionCall 6 6 (ident 7 "f")
    [ ELiteral {| lit_addr := 8; lit_location := 8; lit_kind := KBoolean;
                  lit_value := "true"; lit_type := "bool" |};
      ELiteral (number 9 9 "1") ].

Definition callProgram : Block :=
  MkBlock 1 1 [ SFunctionDefinition 2 2 "f" [typed 3 "a" "bool"; typed 4 "b" "u256"] []
                  (MkBlock 5 5 []);
                SExpressionStatement 10 10 callF ].

Definition callInfo : AsmAnalysisInfo :=
  {| scopes := {[ 1%N := fScope; 50%N := fVirtualScope; 5%N := emptyScope 102 (Some fVirtualScope) ]};
     virtualBlocks := {[ 2%N := Some 50%N ]};
     stackHeightInfo := ∅ |}.

(** [{ g() }] with no function [g], and [{ jump(0) }]. *)
Definition unknownCall : Block :=
  MkBlock 1 1 [ SExpressionStatement 2 2 (EFunctionCall 3 3 (ident 4 "g") []) ].

Definition jumpCall : Block :=
  MkBlock 1 1 [ SExpressionStatement 2 2
                  (EFunctionCall 3 3 (ident 4 "jump") [ELiteral (number 5 5 "0")]) ].

Definition emptyInfo : AsmAnalysisInfo := infoOf [(1%N, emptyScope 100 None)].

(** [{ { let x := 1 } { } }] *)
Definition outerScope : Scope := emptyScope 100 None.
Definition firstScope : Scope := variables 101 ["x"] (Some outerScope).
Definition secondScope : Scope := emptyScope 102 (Some outerScope).

Definition firstSibling : Statement :=
  SBlock (MkBlock 2 2 [ SVariableDeclaration 3 3 [typed 4 "x" "u256"]
                          (Some (ELiteral (number 5 5 "1"))) ]).
Definition secondSibling : Statement := SBlock (MkBlock 6 6 []).

Definition siblings : Block := MkBlock 1 1 [firstSibling; secondSibling].

Definition siblingsInfo : AsmAnalysisInfo :=
  infoOf [(1%N, outerScope); (2%N, firstScope); (6%N, secondScope)].

(** The analyzer inside the outer block of [siblings], before its first
    statement. *)
Definition insideOuter : AsmAnalyzer :=
  set_currentScope (Some outerScope) (fresh siblingsInfo).

(** [{ 1 }] and the expression statement [y] with no variable [y]. *)
Definition literalStatement : Block :=
  MkBlock 1 1 [ SExpressionStatement 2 2 (ELiteral (number 3 3 "1")) ].

Definition unknownIdentifier : Statement :=
  SExpressionStatement 2 2 (EIdentifier (ident 3 "y")).

(** [switch 1 case 1 {} case 1 {}] *)
Definition duplicateSwitch : Statement :=
  SSwitch 2 2 (ELiteral (number 3 3 "1"))
    [ MkCase 4 (Some (number 5 5 "1")) (MkBlock 6 6 []);
      MkCase 7 (Some (number 8 8 "1")) (MkBlock 9 9 []) ].

Definition switchInfo : AsmAnalysisInfo :=
  infoOf [(1%N, emptyScope 100 None); (6%N, emptyScope 101 None); (9%N, emptyScope 102 None)].

(** [{ for { let i := 0 } true { } { } }] *)
Definition loopScope : Scope := variables 101 ["i"] (Some outerScope).

Definition trueLiteral (addr : N) : Literal :=
  {| lit_addr := addr; lit_location := addr; lit_kind := KBoolean;
     lit_value := "true"; lit_type := "bool" |}.

Definition loop : Statement :=
  SForLoop 2 2
    (MkBlock 3 3 [ SVariableDeclaration 4 4 [typed 5 "i" "u256"]
                     (Some (ELiteral (number 6 6 "0"))) ])
    (ELiteral (trueLiteral 7))
    (MkBlock 8 8 [])
    (MkBlock 9 9 []).

Definition loopInfo : AsmAnalysisInfo :=
  infoOf [(1%N, outerScope); (3%N, loopScope);
          (8%N, emptyScope 102 (Some loopScope)); (9%N, emptyScope 103 (Some loopScope))].

(** An analyzer whose reporter tolerates no error. *)
Definition zeroCapacity (info : AsmAnalysisInfo) : AsmAnalyzer :=
  set_errorReporter {| errors := []; maxErrorsAllowed := 0 |} (fresh info).

(** The analyzer inside [program1], after the declaration of [x]. *)
Definition info1 : AsmAnalysisInfo := infoOf [(1%N, scope1)].

Definition afterX : AsmAnalyzer :=
  activate (100%N, "x") (set_currentScope (Some scope1) (set_stackHeight 1 (fresh info1))).

Definition xPlusOne : Expression :=
  EFunctionCall 7 7 (ident 8 "add") [ EIdentifier (ident 9 "x"); ELiteral (number 10 10 "1") ].

(** [x := 2] *)
Definition assignX : Statement :=
  SAssignment 11 11 [ident 8 "x"] (ELiteral (number 12 12 "2")).

(** The number literal [1] typed as a boolean. *)
Definition oneAsBool : Literal :=
  {| lit_addr := 3; lit_location := 3; lit_kind := KNumber; lit_value := "1";
     lit_type := "bool" |}.

(** [let x, y := 1], inside a block with the variables [x] and [y]. *)
Definition xyScope : Scope := variables 100 ["x"; "y"] None.

Definition insideXY : AsmAnalyzer := set_currentScope (Some xyScope) (fresh xyInfo).

Definition mismatchedDeclaration : Statement :=
  SVariableDeclaration 2 2 [typed 3 "x" "u256"; typed 4 "y" "u256"]
    (Some (ELiteral (number 5 5 "1"))).

(** [let x:bool] with no value, walked after an expression of type [bool]. *)
Definition boolDeclaration : Statement :=
  SVariableDeclaration 2 2 [typed 3 "x" "bool"] None.

Definition afterBool : AsmAnalyzer :=
  set_typeOfCurrentExpression ["bool"]
    (set_currentScope (Some (variables 100 ["x"] None)) (fresh xyInfo)).

(** [if true { }] *)
Definition ifTrue : Statement := SIf 2 2 (ELiteral (trueLiteral 3)) (MkBlock 4 4 []).

Definition insideIf : AsmAnalyzer :=
  set_currentScope (Some outerScope) (fresh (infoOf [(4%N, emptyScope 101 (Some outerScope))])).

(** [switch 1 case 1 {} case 2 {}] *)
Definition distinctSwitch : Statement :=
  SSwitch 2 2 (ELiteral (number 3 3 "1"))
    [ MkCase 4 (Some (number 5 5 "1")) (MkBlock 6 6 []);
      MkCase 7 (Some (number 8 8 "2")) (MkBlock 9 9 []) ].

Definition insideSwitch : AsmAnalyzer := set_currentScope (Some outerScope) (fresh switchInfo).



Definition object1 : Object := {| code := program1; dataNames := ∅ |}.





(** [{ let a := 1  { let x := 2 }  let b := 3 }] *)
Definition nestedScope : Scope := variables 100 ["a"; "b"] None.
Definition innerScope : Scope := variables 101 ["x"] (Some nestedScope).

Definition nested : Block :=
  MkBlock 1 1 [
    SVariableDeclaration 2 2 [typed 3 "a" "u256"] (Some (ELiteral (number 4 4 "1")));
    SBlock (MkBlock 5 5 [ SVariableDeclaration 6 6 [typed 7 "x" "u256"]
                            (Some (ELiteral (number 8 8 "2"))) ]);
    SVariableDeclaration 9 9 [typed 10 "b" "u256"] (Some (ELiteral (number 11 11 "3"))) ].

Definition nestedInfo : AsmAnalysisInfo := infoOf [(1%N, nestedScope); (5%N, innerScope)].

(** The object whose code is [{ g() }], with no function [g]. *)
Definition objectG : Object := {| code := unknownCall; dataNames := ∅ |}.

End Examples.

(** * Properties *)

(** ** Reasoning about the monad *)

Lemma bind_Normal {A B} (m : M A) (k : A → M B) st b st' :
  (m ≫= k) st = Normal b st' →
  ∃ a st1, m st = Normal a st1 ∧ k a st1 = Normal b st'.
Proof.
  unfold mbind, M_bind. destruct (m st) as [a st1| |]; intros H; try discriminate.
  by exists a, st1.
Qed.

Lemma bind_run {A B} (m : M A) (k : A → M B) st a st1 :
  m st = Normal a st1 → (m ≫= k) st = k a st1.
Proof. unfold mbind, M_bind. by intros ->. Qed.

Lemma error_run ty loc msg st :
  error ty loc msg st =
    let st' := add_error {| err_type := ty; err_location := loc; err_message := msg |} st in
    if overCapacity (m_errorReporter st') then FatalError st' else Normal tt st'.
Proof. reflexivity. Qed.

(** ** Running the handlers step by step *)

Lemma gets_Normal {A} (f : AsmAnalyzer → A) st a st' :
  gets f st = Normal a st' → a = f st ∧ st' = st.
Proof. unfold gets. by intros [= <- <-]. Qed.

Lemma modify_Normal f st u st' : modify f st = Normal u st' → st' = f st.
Proof. unfold modify. by intros [= <-]. Qed.

Lemma ret_Normal {A} (a b : A) st st' :
  (mret a : M A) st = Normal b st' → b = a ∧ st' = st.
Proof. unfold mret, M_ret. by intros [= <- <-]. Qed.

Lemma yulAssert_Normal b st u st' : yulAssert b st = Normal u st' → b = true ∧ st' = st.
Proof. destruct b; simpl; [by intros [= <-] | done]. Qed.

Lemma scope_Normal a st s st' :
  scope a st = Normal s st' → scopes (m_info st) !! a = Some s ∧ st' = st.
Proof. unfold scope. destruct (_ !! _); [by intros [= <- <-] | done]. Qed.

Lemma addToStackHeight_Normal d st u st' :
  addToStackHeight d st = Normal u st' → st' = set_stackHeight (m_stackHeight st + d) st.
Proof. unfold addToStackHeight, modify. by intros [= <-]. Qed.

Lemma error_Normal ty loc msg st u st' :
  error ty loc msg st = Normal u st' →
  st' = add_error {| err_type := ty; err_location := loc; err_message := msg |} st.
Proof. rewrite error_run. simpl. destruct (overCapacity _); [done | by intros [= <-]]. Qed.

(** Splits the run of a handler that returned into the runs of its steps. *)
Ltac run_inv :=
  repeat match goal with
    | H : (_ ≫= _) _ = Normal _ _ |- _ =>
        let H1 := fresh "Hrun" in
        apply bind_Normal in H as (? & ? & H1 & H)
    | H : gets _ _ = Normal _ _ |- _ => apply gets_Normal in H as [? ?]; subst
    | H : modify _ _ = Normal _ _ |- _ => apply modify_Normal in H; subst
    | H : @mret M _ _ _ _ = Normal _ _ |- _ => apply ret_Normal in H as [? ?]; simplify_eq
    | H : yulAssert _ _ = Normal _ _ |- _ => apply yulAssert_Normal in H as [? ?]; subst
    | H : scope _ _ = Normal _ _ |- _ => apply scope_Normal in H as [? ?]; subst
    | H : addToStackHeight _ _ = Normal _ _ |- _ => apply addToStackHeight_Normal in H; subst
    | H : error _ _ _ _ = Normal _ _ |- _ => apply error_Normal in H; subst
    | H : declarationError _ _ _ = Normal _ _ |- _ => apply error_Normal in H; subst
    | H : typeError _ _ _ = Normal _ _ |- _ => apply error_Normal in H; subst
    | H : (if ?c then _ else _) _ = Normal _ _ |- _ => destruct c eqn:?
    end.

(** ** Relations every handler maintains *)

Section Post.

Variables R F : AsmAnalyzer → AsmAnalyzer → Prop.
Hypothesis R_refl : ∀ st, R st st.
Hypothesis R_trans : ∀ a b c, R a b → R b c → R a c.
Hypothesis RF_trans : ∀ a b c, R a b → F b c → F a c.

Abbreviation post := (post R F).

Lemma post_ret {A} (a : A) : post (mret a).
Proof. intros st. apply R_refl. Qed.

Lemma post_bind {A B} (m : M A) (k : A → M B) :
  post m → (∀ a, post (k a)) → post (m ≫= k).
Proof.
  intros Hm Hk st. specialize (Hm st). unfold mbind, M_bind.
  destruct (m st) as [a st1| |]; auto.
  specialize (Hk a st1). destruct (k a st1); eauto.
Qed.

Lemma post_gets {A} (f : AsmAnalyzer → A) : post (gets f).
Proof. intros st. apply R_refl. Qed.

Lemma post_crash {A} w : post (crash (A := A) w).
Proof. by intros st. Qed.

Lemma post_yulAssert b : post (yulAssert b).
Proof. destruct b; [apply post_ret | apply post_crash]. Qed.

Lemma post_when b m : post m → post (when b m).
Proof. destruct b; [done | intros _; apply post_ret]. Qed.

Lemma post_modify f : (∀ st, R st (f st)) → post (modify f).
Proof. intros Hf st. apply Hf. Qed.

Lemma post_forEach {A S} (body : A → S → M S) l :
  Forall (λ x, ∀ s, post (body x s)) l → ∀ s, post (forEach body l s).
Proof.
  induction 1 as [|x r Hx _ IH]; intros s; simpl; [apply post_ret|].
  apply post_bind; [apply Hx | apply IH].
Qed.

Lemma post_forEachReversed {A S} (body : A → S → M S) l :
  Forall (λ x, ∀ s, post (body x s)) l → ∀ s, post (forEachReversed body l s).
Proof.
  induction 1 as [|x r Hx _ IH]; intros s; simpl; [apply post_ret|].
  apply post_bind; [apply IH | apply Hx].
Qed.

Lemma post_forEachIndexed {A S} (body : nat → A → S → M S) l :
  (∀ i x s, post (body i x s)) → ∀ s, post (forEachIndexed body l s).
Proof.
  intros Hb s. unfold forEachIndexed. apply post_forEach.
  apply Forall_forall. intros [i x] _ s'. apply Hb.
Qed.

Hypothesis R_stackHeight : ∀ h st, R st (set_stackHeight h st).
Hypothesis R_typeOfCurrentExpression : ∀ t st, R st (set_typeOfCurrentExpression t st).
Hypothesis R_recordStackHeight : ∀ a st, R st (recordStackHeight a st).
Hypothesis R_error : ∀ e st, R st (add_error e st).
Hypothesis F_error : ∀ e st, F st (add_error e st).

Variable cfg : Config.

Lemma post_error ty loc msg : post (error ty loc msg).
Proof.
  intros st. rewrite error_run. simpl.
  destruct (overCapacity _); [apply F_error | apply R_error].
Qed.

Lemma post_currentScope : post currentScope.
Proof. intros st. unfold currentScope. destruct (m_currentScope st); auto. Qed.

Lemma post_scope a : post (scope a).
Proof. intros st. unfold scope. destruct (_ !! _); auto. Qed.

Lemma post_typeOfCurrentExpression_at0 : post typeOfCurrentExpression_at0.
Proof. intros st. unfold typeOfCurrentExpression_at0. destruct (m_typeOfCurrentExpression st); auto. Qed.

Lemma post_addToStackHeight d : post (addToStackHeight d).
Proof. apply post_modify. intros st. apply R_stackHeight. Qed.

(** The routine steps of a proof of [post]. *)
Ltac post_step :=
  first
    [ apply post_ret | apply post_gets | apply post_crash | apply post_yulAssert
    | apply post_error | apply post_currentScope | apply post_scope
    | apply post_typeOfCurrentExpression_at0 | apply post_addToStackHeight
    | apply post_modify; intros;
      first [apply R_stackHeight | apply R_typeOfCurrentExpression
            | apply R_recordStackHeight | apply R_error]
    | apply post_when
    | apply post_bind; [| intros]
    | assumption
    | match goal with
      | |- post (if ?b then _ else _) => destruct b
      | |- post (match ?x with _ => _ end) => destruct x
      end ].

Lemma post_expectValidType ty loc : post (expectValidType cfg ty loc).
Proof. unfold expectValidType, typeError. repeat post_step. Qed.

Lemma post_expectType e g loc : post (expectType e g loc).
Proof. unfold expectType, typeError. repeat post_step. Qed.

Lemma post_expectDeposit d h loc : post (expectDeposit d h loc).
Proof. unfold expectDeposit, typeError. repeat post_step. Qed.

Lemma post_expectExpression walk loc : post walk → post (expectExpression walk loc).
Proof. intros. unfold expectExpression. repeat first [apply post_expectDeposit | post_step]. Qed.

Lemma post_expectCondition walk loc : post walk → post (expectCondition cfg walk loc).
Proof.
  intros. unfold expectCondition.
  repeat first [apply post_expectExpression | apply post_expectType | post_step].
Qed.

Lemma post_warnOnInstructions name loc : post (warnOnInstructions cfg name loc).
Proof.
  unfold warnOnInstructions, warnOnInstructions_instr, errorForVM, typeError.
  repeat post_step.
Qed.

Lemma post_callResolver r i ctx inside : post (callResolver r i ctx inside).
Proof.
  unfold callResolver. destruct (r i ctx inside) as [diagnostics size].
  apply post_bind; [|intros; apply post_ret].
  apply post_forEach, Forall_forall. intros e _ []. apply post_error.
Qed.

Lemma post_visit_Literal l : post (visit_Literal cfg l).
Proof.
  unfold visit_Literal, typeError.
  repeat first [apply post_expectValidType | post_step].
Qed.

Lemma post_visit_Identifier i : post (visit_Identifier cfg i).
Proof.
  unfold visit_Identifier, typeError, declarationError, numErrors, isActive.
  repeat first [apply post_callResolver | post_step].
Qed.

Lemma post_resolveCallee fn : post (resolveCallee cfg fn).
Proof.
  unfold resolveCallee, typeError, declarationError.
  repeat first [apply post_warnOnInstructions | post_step].
Qed.

Lemma post_argumentStep fn lit arg walk acc :
  post walk → post (argumentStep cfg fn lit arg walk acc).
Proof.
  intros. unfold argumentStep, typeError. destruct acc.
  repeat first [apply post_expectExpression | post_step].
Qed.

Lemma post_expectParameterTypes ps ts args : post (expectParameterTypes ps ts args).
Proof.
  unfold expectParameterTypes. apply post_forEach, Forall_forall. intros i _ s.
  repeat first [apply post_expectType | post_step].
Qed.

Lemma post_visit_FunctionCall addr fn args walkArguments :
  (∀ lit acc, post (walkArguments lit acc)) →
  post (visit_FunctionCall cfg addr fn args walkArguments).
Proof.
  intros Hw. unfold visit_FunctionCall, typeError.
  repeat first [apply post_resolveCallee | apply post_expectParameterTypes | apply Hw | post_step].
Qed.

Lemma Expression_nested_ind (P : Expression → Prop) :
  (∀ l, P (ELiteral l)) →
  (∀ i, P (EIdentifier i)) →
  (∀ addr loc fn args, Forall P args → P (EFunctionCall addr loc fn args)) →
  ∀ e, P e.
Proof.
  intros Hl Hi Hf. fix IH 1. intros [l|i|addr loc fn args]; [apply Hl | apply Hi |].
  apply Hf. induction args as [|a r IHr]; constructor; [apply IH | apply IHr].
Qed.

Lemma post_walk_Expression e : post (walk_Expression cfg e).
Proof.
  induction e as [l|i|addr loc fn args IH] using Expression_nested_ind; simpl.
  - apply post_visit_Literal.
  - apply post_visit_Identifier.
  - apply post_visit_FunctionCall. intros lit acc.
    apply post_forEachReversed. eapply Forall_impl; [exact IH|].
    intros arg Harg s. by apply post_argumentStep.
Qed.

Section Statements.

Hypothesis R_activate : ∀ v st, R st (activate v st).
Hypothesis R_currentScope : ∀ s st, R st (set_currentScope s st).
Hypothesis R_currentForLoop : ∀ f st, R st (set_currentForLoop f st).

Ltac post_step' :=
  first
    [ post_step
    | apply post_modify; intros;
      first [apply R_activate | apply R_currentScope | apply R_currentForLoop] ].

Lemma post_activateVariable s name : post (activateVariable s name).
Proof. unfold activateVariable. repeat post_step'. Qed.

Lemma post_checkAssignment v ty : post (checkAssignment cfg v ty).
Proof.
  unfold checkAssignment, typeError, declarationError, numErrors, isActive.
  repeat first [apply post_callResolver | post_step'].
Qed.

Lemma post_visit_ExpressionStatement addr loc walk :
  post walk → post (visit_ExpressionStatement addr loc walk).
Proof. intros. unfold visit_ExpressionStatement. repeat post_step'. Qed.

Lemma post_visit_Assignment addr loc names walk :
  post walk → post (visit_Assignment cfg addr loc names walk).
Proof.
  intros. unfold visit_Assignment, declarationError, givenTypeAt.
  repeat first [apply post_forEachIndexed; intros | apply post_checkAssignment | post_step'].
Qed.

Lemma post_declareVariable i v success : post (declareVariable cfg i v success).
Proof.
  unfold declareVariable, typeError, givenTypeAt.
  repeat first [apply post_expectValidType | apply post_activateVariable | post_step'].
Qed.

Lemma post_notifyResolver vars : post (notifyResolver cfg vars).
Proof.
  unfold notifyResolver. destruct (m_resolver cfg); [|apply post_ret].
  apply post_forEach, Forall_forall. intros v _ [].
  repeat first [apply post_callResolver | post_step'].
Qed.

Lemma post_declaredValue loc n walk :
  (∀ w, walk = Some w → post w) → post (declaredValue loc n walk).
Proof.
  intros Hw. unfold declaredValue, declarationError.
  destruct walk as [w|]; [specialize (Hw w eq_refl)|]; repeat post_step'.
Qed.

Lemma post_visit_VariableDeclaration addr loc vars walk :
  (∀ w, walk = Some w → post w) →
  post (visit_VariableDeclaration cfg addr loc vars walk).
Proof.
  intros Hw. unfold visit_VariableDeclaration.
  apply post_bind; [apply post_notifyResolver|].
  intros _. apply post_bind; [by apply post_declaredValue|].
  intros [success|]; [|apply post_ret].
  repeat first [apply post_forEachIndexed; intros | apply post_declareVariable | post_step'].
Qed.

Lemma post_visit_FunctionDefinition addr name ps rs walk :
  post walk → post (visit_FunctionDefinition cfg addr name ps rs walk).
Proof.
  intros. unfold visit_FunctionDefinition.
  apply post_bind; [apply post_yulAssert|intros _].
  apply post_bind.
  { intros st. destruct (virtualBlocks (m_info st) !! addr) as [[vb|]|]; auto. }
  intros vb. apply post_bind; [apply post_scope|intros varScope].
  apply post_bind.
  { apply post_forEach, Forall_forall. intros v _ [].
    repeat first [apply post_expectValidType | apply post_activateVariable | post_step']. }
  intros _. repeat post_step'.
Qed.

Lemma post_visit_If addr c walkCondition walkBody :
  post walkCondition → post walkBody → post (visit_If cfg addr c walkCondition walkBody).
Proof.
  intros. unfold visit_If.
  repeat first [apply post_expectCondition | post_step'].
Qed.

Lemma post_visit_Case loc value walkBody acc :
  post walkBody → post (visit_Case cfg loc value walkBody acc).
Proof.
  intros. unfold visit_Case, declarationError. destruct acc.
  repeat first [apply post_visit_Literal | apply post_expectDeposit | post_step'].
Qed.

Lemma post_visit_Switch addr e cases walkExpression walkCases :
  post walkExpression → (∀ acc, post (walkCases acc)) →
  post (visit_Switch cfg addr e cases walkExpression walkCases).
Proof.
  intros He Hc. unfold visit_Switch.
  apply post_bind; [apply post_gets|intros h].
  apply post_bind; [by apply post_expectExpression|intros success].
  apply post_bind; [repeat post_step'|intros valueType].
  apply post_bind.
  { apply post_forEach, Forall_forall. intros c _ s.
    repeat first [apply post_expectType | post_step']. }
  intros success'. apply post_bind; [apply Hc|intros [success'' seen]].
  repeat post_step'.
Qed.

Lemma post_visit_ForLoop addr pre c walkPre walkCondition walkBody walkPost :
  post walkPre → post walkCondition → post walkBody → post walkPost →
  post (visit_ForLoop cfg addr pre c walkPre walkCondition walkBody walkPost).
Proof.
  intros. unfold visit_ForLoop.
  repeat first [apply post_expectCondition | post_step'].
Qed.

Lemma post_visit_Block addr loc walkStatements :
  post walkStatements → post (visit_Block addr loc walkStatements).
Proof. intros. unfold visit_Block, declarationError. repeat post_step'. Qed.

Lemma post_visit_Marker addr : post (visit_Marker addr).
Proof. unfold visit_Marker. repeat post_step'. Qed.

(** Induction over statements, blocks and cases together. *)
Section NestedInduction.

Variables (P : Statement → Prop) (PB : Block → Prop) (PC : Case → Prop).

Hypothesis H_ExpressionStatement : ∀ addr loc e, P (SExpressionStatement addr loc e).
Hypothesis H_Assignment : ∀ addr loc names value, P (SAssignment addr loc names value).
Hypothesis H_VariableDeclaration :
  ∀ addr loc vars value, P (SVariableDeclaration addr loc vars value).
Hypothesis H_FunctionDefinition :
  ∀ addr loc name ps rs body, PB body → P (SFunctionDefinition addr loc name ps rs body).
Hypothesis H_If : ∀ addr loc c body, PB body → P (SIf addr loc c body).
Hypothesis H_Switch : ∀ addr loc e cases, Forall PC cases → P (SSwitch addr loc e cases).
Hypothesis H_ForLoop :
  ∀ addr loc pre c post body, PB pre → PB post → PB body →
    P (SForLoop addr loc pre c post body).
Hypothesis H_Break : ∀ addr loc, P (SBreak addr loc).
Hypothesis H_Continue : ∀ addr loc, P (SContinue addr loc).
Hypothesis H_Leave : ∀ addr loc, P (SLeave addr loc).
Hypothesis H_SBlock : ∀ b, PB b → P (SBlock b).
Hypothesis H_Block : ∀ addr loc statements, Forall P statements → PB (MkBlock addr loc statements).
Hypothesis H_Case : ∀ loc value body, PB body → PC (MkCase loc value body).

Lemma Block_nested_ind : ∀ b, PB b.
Proof.
  fix IHb 1 with (IHs (s : Statement) : P s) (IHc (c : Case) : PC c).
  - intros [addr loc statements]. apply H_Block.
    induction statements as [|s r IHr]; constructor; [apply IHs | apply IHr].
  - destruct s as [addr loc e|addr loc names value|addr loc vars value
                  |addr loc name ps rs body|addr loc c body|addr loc e cases
                  |addr loc pre c post body|addr loc|addr loc|addr loc|b].
    + apply H_ExpressionStatement.
    + apply H_Assignment.
    + apply H_VariableDeclaration.
    + apply H_FunctionDefinition, IHb.
    + apply H_If, IHb.
    + apply H_Switch. induction cases as [|c' r IHr]; constructor; [apply IHc | apply IHr].
    + apply H_ForLoop; apply IHb.
    + apply H_Break.
    + apply H_Continue.
    + apply H_Leave.
    + apply H_SBlock, IHb.
  - intros [loc value body]. apply H_Case, IHb.
Qed.

Lemma Case_nested_ind : ∀ c, PC c.
Proof. intros [loc value body]. apply H_Case, Block_nested_ind. Qed.

Lemma Statement_nested_ind : ∀ s, P s.
Proof.
  destruct s as [addr loc e|addr loc names value|addr loc vars value
                |addr loc name ps rs body|addr loc c body|addr loc e cases
                |addr loc pre c post body|addr loc|addr loc|addr loc|b].
  - apply H_ExpressionStatement.
  - apply H_Assignment.
  - apply H_VariableDeclaration.
  - apply H_FunctionDefinition, Block_nested_ind.
  - apply H_If, Block_nested_ind.
  - apply H_Switch, Forall_forall. intros c' _. apply Case_nested_ind.
  - apply H_ForLoop; apply Block_nested_ind.
  - apply H_Break.
  - apply H_Continue.
  - apply H_Leave.
  - apply H_SBlock, Block_nested_ind.
Qed.

(** The three at once. *)
Lemma Walk_nested_ind : (∀ s, P s) ∧ (∀ b, PB b) ∧ (∀ c, PC c).
Proof.
  split; [apply Statement_nested_ind|]. split; [apply Block_nested_ind | apply Case_nested_ind].
Qed.

End NestedInduction.

Lemma post_walk_Block b : post (walk_Block cfg b).
Proof.
  revert b.
  apply (Block_nested_ind
           (λ s, post (walk_Statement cfg s))
           (λ b, post (walk_Block cfg b))
           (λ c, ∀ acc, post (walk_Case cfg c acc))); simpl; intros.
  - apply post_visit_ExpressionStatement, post_walk_Expression.
  - apply post_visit_Assignment, post_walk_Expression.
  - apply post_visit_VariableDeclaration. intros w Hw.
    destruct value; simplify_eq/=. apply post_walk_Expression.
  - by apply post_visit_FunctionDefinition.
  - apply post_visit_If; [apply post_walk_Expression | done].
  - apply post_visit_Switch; [apply post_walk_Expression|].
    by apply post_forEach.
  - apply post_visit_ForLoop; auto using post_walk_Expression.
  - apply post_visit_Marker.
  - apply post_visit_Marker.
  - apply post_visit_Marker.
  - done.
  - apply post_visit_Block. apply post_forEach.
    eapply Forall_impl; [eassumption|]. intros s Hs success; simpl in *.
    apply post_bind; [done | intros; apply post_ret].
  - by apply post_visit_Case.
Qed.

Lemma post_walk_Statement s : post (walk_Statement cfg s).
Proof.
  pose proof (post_walk_Block (MkBlock 0%N 0%N [s])) as H. intros st.
  destruct s; simpl.
  all: try (apply post_visit_Marker).
  - apply post_visit_ExpressionStatement, post_walk_Expression.
  - apply post_visit_Assignment, post_walk_Expression.
  - apply post_visit_VariableDeclaration. intros w Hw.
    destruct value; simplify_eq/=. apply post_walk_Expression.
  - apply post_visit_FunctionDefinition, post_walk_Block.
  - apply post_visit_If; [apply post_walk_Expression | apply post_walk_Block].
  - apply post_visit_Switch; [apply post_walk_Expression|].
    intros acc. apply post_forEach, Forall_forall. intros [loc v body] _ acc'.
    apply post_visit_Case, post_walk_Block.
  - apply post_visit_ForLoop; auto using post_walk_Expression, post_walk_Block.
  - apply post_walk_Block.
Qed.

End Statements.

End Post.

(** ** The relations, for every node *)

Lemma grows_refl st : grows st st.
Proof. by repeat split. Qed.

Lemma grows_trans a b c : grows a b → grows b c → grows a c.
Proof.
  intros (?&?&?&?&?) (?&?&?&?&?). repeat split; try congruence.
  - by etrans.
  - set_solver.
Qed.

Lemma grows_unchanged st st' :
  m_errorReporter st' = m_errorReporter st →
  m_activeVariables st' = m_activeVariables st →
  scopes (m_info st') = scopes (m_info st) →
  virtualBlocks (m_info st') = virtualBlocks (m_info st) →
  grows st st'.
Proof. intros He Ha Hs Hv. repeat split; rewrite ?He, ?Ha; done. Qed.

Lemma grows_add_error e st : grows st (add_error e st).
Proof. repeat split; simpl; try done. by apply prefix_app_r. Qed.

Lemma grows_activate v st : grows st (activate v st).
Proof. repeat split; simpl; try done. set_solver. Qed.

Lemma grows_walk_Expression cfg e : post grows grows (walk_Expression cfg e).
Proof.
  apply post_walk_Expression; [apply grows_refl | apply grows_trans | apply grows_trans | ..];
    intros; first [apply grows_add_error | by apply grows_unchanged].
Qed.

Lemma grows_walk_Block cfg b : post grows grows (walk_Block cfg b).
Proof.
  apply post_walk_Block; [apply grows_refl | apply grows_trans | apply grows_trans | ..];
    intros; first [apply grows_add_error | apply grows_activate | by apply grows_unchanged].
Qed.

Lemma grows_walk_Statement cfg s : post grows grows (walk_Statement cfg s).
Proof.
  apply post_walk_Statement; [apply grows_refl | apply grows_trans | apply grows_trans | ..];
    intros; first [apply grows_add_error | apply grows_activate | by apply grows_unchanged].
Qed.

Lemma grows_walk_Statements cfg statements :
  post grows grows (walk_Statements cfg statements).
Proof.
  unfold walk_Statements.
  apply post_forEach; [apply grows_refl | apply grows_trans | apply grows_trans |].
  apply Forall_forall. intros s _ success.
  apply post_bind; [apply grows_trans | apply grows_trans | apply grows_walk_Statement |].
  intros ok st. apply grows_refl.
Qed.

Lemma sameFrame_trans a b c : sameFrame a b → sameFrame b c → sameFrame a c.
Proof. intros (?&?&?) (?&?&?). repeat split; congruence. Qed.

Lemma sameFrame_walk_Expression cfg e : post sameFrame sameFrame (walk_Expression cfg e).
Proof.
  apply post_walk_Expression; try (intros; by repeat split); apply sameFrame_trans.
Qed.

Lemma sameFrame_expectCondition cfg e loc :
  post sameFrame sameFrame (expectCondition cfg (walk_Expression cfg e) loc).
Proof.
  apply post_expectCondition; try (intros; by repeat split); try apply sameFrame_trans.
  apply sameFrame_walk_Expression.
Qed.

Lemma restores_trans a b c : restores a b → restores b c → restores a c.
Proof. intros [? ?] [? ?]. split; congruence. Qed.

Lemma restores_sameFrame st st' : sameFrame st st' → restores st st'.
Proof. by intros (?&?&?). Qed.

Lemma restores_walk_Expression cfg e : post restores anyState (walk_Expression cfg e).
Proof.
  intros st. pose proof (sameFrame_walk_Expression cfg e st) as H.
  destruct (walk_Expression cfg e st); [by apply restores_sameFrame | done | done].
Qed.

Lemma restores_visit_Block addr loc walkStatements :
  post restores anyState walkStatements →
  post restores anyState (visit_Block addr loc walkStatements).
Proof.
  intros Hw st. destruct (visit_Block addr loc walkStatements st) eqn:H; [|done|done].
  unfold visit_Block in H. run_inv;
    match goal with
    | Hs : walkStatements ?s0 = Normal _ _ |- _ =>
        specialize (Hw s0); rewrite Hs in Hw; destruct Hw as [_ Hw]
    end;
    split; simpl in *; congruence.
Qed.

Lemma restores_visit_ForLoop cfg addr pre c walkPre walkBody walkPost e :
  post restores anyState walkPre →
  post restores anyState
    (visit_ForLoop cfg addr pre c walkPre (walk_Expression cfg e) walkBody walkPost).
Proof.
  intros Hpre st.
  destruct (visit_ForLoop _ _ _ _ _ _ _ _ st) eqn:H; [|done|done].
  unfold visit_ForLoop in H. run_inv.
  match goal with
  | Hp : walkPre st = Normal _ _, Hc : expectCondition _ _ _ ?s0 = Normal _ _ |- _ =>
      specialize (Hpre st); rewrite Hp in Hpre; destruct Hpre as [_ Hpre];
      pose proof (sameFrame_expectCondition cfg e (locationOf c) s0) as Hcond;
      rewrite Hc in Hcond; destruct Hcond as (_ & Hcond & _)
  end.
  split; simpl in *; congruence.
Qed.

(** A statement or a block that returns has put back the current scope and
    the current loop it was entered with. *)
Lemma restores_walk_Block cfg b : post restores anyState (walk_Block cfg b).
Proof.
  revert b.
  apply (Block_nested_ind
           (λ s, post restores anyState (walk_Statement cfg s))
           (λ b, post restores anyState (walk_Block cfg b))
           (λ c, ∀ acc, post restores anyState (walk_Case cfg c acc))); simpl; intros.
  - apply post_visit_ExpressionStatement; try (intros; by repeat split);
      try apply restores_trans. apply restores_walk_Expression.
  - apply post_visit_Assignment; try (intros; by repeat split);
      try apply restores_trans. apply restores_walk_Expression.
  - apply post_visit_VariableDeclaration; try (intros; by repeat split);
      try apply restores_trans.
    intros w Hw. destruct value; simplify_eq/=. apply restores_walk_Expression.
  - apply post_visit_FunctionDefinition; try (intros; by repeat split);
      try apply restores_trans.
  - apply post_visit_If; try (intros; by repeat split);
      try apply restores_trans. apply restores_walk_Expression.
  - apply post_visit_Switch; try (intros; by repeat split);
      try apply restores_trans; [apply restores_walk_Expression|].
    apply post_forEach; try (intros; by repeat split); apply restores_trans.
  - by apply restores_visit_ForLoop.
  - apply post_visit_Marker; try (intros; by repeat split).
  - apply post_visit_Marker; try (intros; by repeat split).
  - apply post_visit_Marker; try (intros; by repeat split).
  - done.
  - apply restores_visit_Block.
    apply post_forEach; try (intros; by repeat split); try apply restores_trans.
    eapply Forall_impl; [eassumption|]. intros s Hs success; simpl in *.
    apply post_bind; try (intros; by repeat split); apply restores_trans.
  - apply post_visit_Case; try (intros; by repeat split); apply restores_trans.
Qed.

(** ** Stack-height entries on the error paths *)

(** C1. The handlers do not record a stack-height entry on every path.  In
    [{ let x := s }] with [s] a string literal of 33 bytes, and in
    [{ let x := 2^256 }], the literal handler reports its error and returns
    false, and [stackHeightInfo] has no entry for the literal (node 2), while
    the declaration around it (node 6) has one.  In [{ let x, y := 1 }] the
    declaration (node 2) gets no entry and in [{ let x  let y  x, y := 1 }]
    the assignment (node 2) gets none, while the nodes around them (the
    literal 5, the block 1) get theirs. *)
Theorem error_returns_leave_no_stack_height :
  let tooLong := walk_Block Examples.cfg (Examples.declare Examples.longString)
                   (Examples.fresh Examples.xyInfo) in
  let tooLarge := walk_Block Examples.cfg (Examples.declare Examples.bigNumber)
                    (Examples.fresh Examples.xyInfo) in
  let declaration := walk_Block Examples.cfg Examples.declMismatch (Examples.fresh Examples.xyInfo) in
  let assignment := walk_Block Examples.cfg Examples.assignMismatch (Examples.fresh Examples.xyInfo) in
  (Examples.result tooLong = Some false ∧
   Examples.heightAfter 2 tooLong = None ∧
   Examples.heightAfter 6 tooLong = Some 1) ∧
  (Examples.result tooLarge = Some false ∧
   Examples.heightAfter 2 tooLarge = None ∧
   Examples.heightAfter 6 tooLarge = Some 1) ∧
  (Examples.result declaration = Some false ∧
   Examples.heightAfter 2 declaration = None ∧
   Examples.heightAfter 5 declaration = Some 1 ∧
   Examples.heightAfter 1 declaration = Some 0) ∧
  (Examples.result assignment = Some false ∧
   Examples.heightAfter 2 assignment = None ∧
   Examples.heightAfter 5 assignment = Some 3 ∧
   Examples.heightAfter 1 assignment = Some 1).
Proof. by vm_compute. Qed.

(** ** The order of the argument types of a call *)

(** C2. In [{ function f(a:bool, b:u256) {}  f(true, 1) }] every argument
    has the type of its parameter, yet the walk rejects the call: the types
    collected from right to left are compared with the parameters from left to
    right, so [bool] is checked against the type of the second argument and
    [u256] against the type of the first, and two type errors are reported at
    the locations 8 and 9 of the arguments. *)
Theorem parameter_types_checked_against_reversed_arguments :
  let run := walk_Block Examples.cfg Examples.callProgram (Examples.fresh Examples.callInfo) in
  Examples.result run = Some false ∧
  Examples.reported run =
    Some [ {| err_type := TypeError; err_location := 8;
              err_message := expectedTypeMessage "bool" "u256" |};
           {| err_type := TypeError; err_location := 9;
              err_message := expectedTypeMessage "u256" "bool" |} ].
Proof. by vm_compute. Qed.

(** ** Every failed walk has reported *)

Lemma noFewer_run {A} (m : M A) st a st' :
  post noFewer anyState m → m st = Normal a st' → noFewer st st'.
Proof. intros H Hrun. specialize (H st). by rewrite Hrun in H. Qed.

Lemma noFewer_trans a b c : noFewer a b → noFewer b c → noFewer a c.
Proof. unfold noFewer. lia. Qed.

Ltac count_diagnostics :=
  repeat match goal with
    | H : bool_decide _ = true |- _ => apply bool_decide_eq_true in H
    | H : bool_decide _ = false |- _ => apply bool_decide_eq_false in H
    | H : _ && _ = true |- _ => apply andb_true_iff in H as [? ?]
    | H : _ ∧ _ |- _ => destruct H
    | H : negb _ = false |- _ => apply negb_false_iff in H
    | H : negb _ = true |- _ => apply negb_true_iff in H
    | H : ?x = ?x → _ |- _ => specialize (H eq_refl)
    | H : ?P → _, HP : ?P |- _ => specialize (H HP)
    end;
  unfold noFewer, numDiagnostics in *; simpl in *;
  rewrite ?length_app in *; simpl in *.

(** The side conditions of the [post] lemmas, for [noFewer]. *)
Ltac noFewer_side :=
  first [ apply noFewer_trans | done | by (intros; count_diagnostics; lia) ].

Lemma noFewer_expectValidType cfg ty loc : post noFewer anyState (expectValidType cfg ty loc).
Proof. apply post_expectValidType; noFewer_side. Qed.

Lemma noFewer_callResolver r i ctx inside :
  post noFewer anyState (callResolver r i ctx inside).
Proof. apply post_callResolver; noFewer_side. Qed.

Ltac run_inv' :=
  repeat first
    [ progress run_inv
    | match goal with
      | H : when _ _ _ = Normal _ _ |- _ => unfold when in H
      | H : numErrors _ = Normal _ _ |- _ => unfold numErrors in H
      | H : isActive _ _ = Normal _ _ |- _ => unfold isActive in H
      | H : givenTypeAt _ _ _ = Normal _ _ |- _ => unfold givenTypeAt in H
      | H : currentScope ?s = Normal _ _ |- _ =>
          unfold currentScope in H; destruct (m_currentScope s) eqn:?; [|done];
          injection H as <- <-
      | H : typeOfCurrentExpression_at0 ?s = Normal _ _ |- _ =>
          unfold typeOfCurrentExpression_at0 in H;
          destruct (m_typeOfCurrentExpression s) eqn:?; [done|]; injection H as <- <-
      | H : crash _ _ = Normal _ _ |- _ => discriminate H
      | H : (match ?x with _ => _ end) _ = Normal _ _ |- _ => destruct x eqn:?
      | H : (let '(_, _) := ?x in _) _ = Normal _ _ |- _ => destruct x eqn:?
      end ].

Ltac use_runs :=
  repeat match goal with
    | H : expectValidType _ _ _ _ = Normal _ _ |- _ =>
        apply (noFewer_run _ _ _ _ (noFewer_expectValidType _ _ _)) in H
    | H : callResolver _ _ _ _ _ = Normal _ _ |- _ =>
        apply (noFewer_run _ _ _ _ (noFewer_callResolver _ _ _ _)) in H
    | Hm : reportsFailure ?m, H : ?m _ = Normal _ _ |- _ => apply Hm in H
    | Hm : post noFewer anyState ?m, H : ?m _ = Normal _ _ |- _ =>
        apply (noFewer_run _ _ _ _ Hm) in H
    end.

Ltac contradict_negb :=
  match goal with
  | H1 : negb ?b = _, H2 : ?b = _ |- _ => rewrite H2 in H1; simpl in H1; discriminate H1
  end.

Ltac finish :=
  split; [count_diagnostics; lia | intros; first [discriminate | contradict_negb | (count_diagnostics; lia)]].

Lemma reportsFailure_visit_Literal cfg l : reportsFailure (visit_Literal cfg l).
Proof.
  intros st b st' H. unfold visit_Literal, typeError in H.
  run_inv'; use_runs; finish.
Qed.

Lemma reportsFailure_visit_Identifier cfg i : reportsFailure (visit_Identifier cfg i).
Proof.
  intros st b st' H. unfold visit_Identifier, typeError, declarationError in H.
  run_inv'; use_runs; finish.
Qed.

Lemma reportsFailure_expectType e g loc : reportsFailure (expectType e g loc).
Proof. intros st b st' H. unfold expectType in H. run_inv'; finish. Qed.

Lemma reportsFailure_expectDeposit d h loc : reportsFailure (expectDeposit d h loc).
Proof. intros st b st' H. unfold expectDeposit in H. run_inv'; finish. Qed.

Lemma reportsFailure_expectExpression walk loc :
  reportsFailure walk → reportsFailure (expectExpression walk loc).
Proof.
  intros Hw st b st' H. unfold expectExpression in H.
  pose proof (reportsFailure_expectDeposit 1 (m_stackHeight st) loc).
  run_inv'; use_runs; finish.
Qed.

Lemma reportsFailure_expectCondition cfg walk loc :
  reportsFailure walk → reportsFailure (expectCondition cfg walk loc).
Proof.
  intros Hw st b st' H. unfold expectCondition in H.
  apply (reportsFailure_expectExpression _ loc) in Hw.
  run_inv'; use_runs.
  all: try match goal with
           | H : expectType _ _ _ _ = Normal _ _ |- _ => apply reportsFailure_expectType in H
           end.
  all: finish.
Qed.

Lemma warnOnInstructions_run cfg name loc st w st' :
  warnOnInstructions cfg name loc st = Normal w st' →
  noFewer st st' ∧ (w = true → (numDiagnostics st < numDiagnostics st')%nat).
Proof.
  unfold warnOnInstructions, warnOnInstructions_instr, errorForVM, typeError. intros H.
  run_inv'; finish.
Qed.

Lemma resolveCallee_run cfg fn st success ps rs lit st' :
  resolveCallee cfg fn st = Normal (success, ps, rs, lit) st' →
  noFewer st st' ∧ (success = false → (numDiagnostics st < numDiagnostics st')%nat).
Proof.
  unfold resolveCallee, typeError, declarationError. intros H.
  run_inv'.
  all: try match goal with
           | H : warnOnInstructions _ _ _ _ = Normal _ _ |- _ =>
               apply warnOnInstructions_run in H
           end.
  all: finish.
Qed.

Ltac finish_keeps :=
  split;
  [ count_diagnostics; lia
  | intros; repeat match goal with b : bool |- _ => destruct b end; simpl in *;
    first [by left | discriminate | right; count_diagnostics; lia] ].

Lemma keepsFailure_forEach {A S} (ok : S → bool) (body : A → S → M S) l :
  Forall (λ x, keepsFailure ok (body x)) l → keepsFailure ok (forEach body l).
Proof.
  induction 1 as [|x r Hx _ IH]; intros s st s' st' Hrun; simpl in Hrun.
  - run_inv. split; [by unfold noFewer | auto].
  - apply bind_Normal in Hrun as (s1 & st1 & Hstep & Hrun).
    apply Hx in Hstep as [? Hs1]. apply IH in Hrun as [? Hs']. count_diagnostics.
    split; [lia|]. intros Hok. destruct (Hs' Hok) as [Hok1|?]; [|right; lia].
    destruct (Hs1 Hok1); [by left | right; lia].
Qed.

Lemma keepsFailure_forEachReversed {A S} (ok : S → bool) (body : A → S → M S) l :
  Forall (λ x, keepsFailure ok (body x)) l → keepsFailure ok (forEachReversed body l).
Proof.
  induction 1 as [|x r Hx _ IH]; intros s st s' st' Hrun; simpl in Hrun.
  - run_inv. split; [by unfold noFewer | auto].
  - apply bind_Normal in Hrun as (s1 & st1 & Hrest & Hstep).
    apply Hx in Hstep as [? Hs']. apply IH in Hrest as [? Hs1]. count_diagnostics.
    split; [lia|]. intros Hok. destruct (Hs' Hok) as [Hok1|?]; [|right; lia].
    destruct (Hs1 Hok1); [by left | right; lia].
Qed.

Lemma keepsFailure_forEachIndexed {A S} (ok : S → bool) (body : nat → A → S → M S) l :
  (∀ i x, keepsFailure ok (body i x)) → keepsFailure ok (forEachIndexed body l).
Proof.
  intros Hb. unfold forEachIndexed. apply keepsFailure_forEach, Forall_forall.
  intros [i x] _. apply Hb.
Qed.

Lemma keepsFailure_argumentStep cfg fn lit arg walk :
  reportsFailure walk → keepsFailure fst (argumentStep cfg fn lit arg walk).
Proof.
  intros Hw [s tys] st [s' tys'] st' H. unfold argumentStep, typeError in H.
  apply (reportsFailure_expectExpression _ (locationOf arg)) in Hw.
  run_inv'; use_runs; finish_keeps.
Qed.

Lemma reportsFailure_expectParameterTypes ps ts args :
  reportsFailure (expectParameterTypes ps ts args).
Proof.
  intros st b st' H. unfold expectParameterTypes in H.
  apply (keepsFailure_forEach id) in H.
  - destruct H as [? H]. split; [done|]. intros ->. by destruct (H eq_refl).
  - apply Forall_forall. intros i _ s st1 s1 st2 Hrun.
    run_inv'.
    all: try match goal with
             | H : expectType _ _ _ _ = Normal _ _ |- _ => apply reportsFailure_expectType in H
             end.
    all: finish_keeps.
Qed.

Ltac finish_all :=
  split;
  [ count_diagnostics; lia
  | intros; subst; simpl in *;
    repeat match goal with b : bool |- _ => destruct b end; simpl in *;
    try discriminate; count_diagnostics;
    repeat match goal with H : _ ∨ _ |- _ => destruct H end;
    try discriminate; try lia ].

Lemma reportsFailure_visit_FunctionCall cfg addr fn args walkArguments :
  (∀ lit, keepsFailure fst (walkArguments lit)) →
  reportsFailure (visit_FunctionCall cfg addr fn args walkArguments).
Proof.
  intros Hw st b st' H. unfold visit_FunctionCall, typeError in H.
  run_inv';
    repeat match goal with
      | H : resolveCallee _ _ _ = Normal _ _ |- _ => apply resolveCallee_run in H
      | H : walkArguments _ _ _ = Normal _ _ |- _ => apply Hw in H; simpl in H
      | H : expectParameterTypes _ _ _ _ = Normal _ _ |- _ =>
          apply reportsFailure_expectParameterTypes in H
      end;
    finish_all.
Qed.

Lemma reportsFailure_walk_Expression cfg e : reportsFailure (walk_Expression cfg e).
Proof.
  induction e as [l|i|addr loc fn args IH] using Expression_nested_ind; simpl.
  - apply reportsFailure_visit_Literal.
  - apply reportsFailure_visit_Identifier.
  - apply reportsFailure_visit_FunctionCall. intros lit.
    apply keepsFailure_forEachReversed. eapply Forall_impl; [exact IH|].
    intros arg Harg. by apply keepsFailure_argumentStep.
Qed.

Lemma reportsFailure_visit_ExpressionStatement addr loc walk :
  reportsFailure walk → reportsFailure (visit_ExpressionStatement addr loc walk).
Proof.
  intros Hw st b st' H. unfold visit_ExpressionStatement in H.
  run_inv'; use_runs; finish.
Qed.

Lemma reportsFailure_checkAssignment cfg v ty : reportsFailure (checkAssignment cfg v ty).
Proof.
  intros st b st' H. unfold checkAssignment, typeError, declarationError in H.
  run_inv'; use_runs; finish.
Qed.

Lemma keepsFailure_assignTarget cfg i v :
  keepsFailure id (λ success : bool,
                     givenType ← givenTypeAt cfg i;
                     ok ← checkAssignment cfg v givenType;
                     mret (success && ok)).
Proof.
  intros s st s' st' H. run_inv'.
  match goal with
  | H : checkAssignment _ _ _ _ = Normal _ _ |- _ => apply reportsFailure_checkAssignment in H
  end.
  finish_keeps.
Qed.

Lemma reportsFailure_visit_Assignment cfg addr loc names walk :
  reportsFailure walk → reportsFailure (visit_Assignment cfg addr loc names walk).
Proof.
  intros Hw st b st' H. unfold visit_Assignment, declarationError in H.
  run_inv'; use_runs;
    try match goal with
        | H : forEachIndexed _ _ _ _ = Normal _ _ |- _ =>
            apply (keepsFailure_forEachIndexed id) in H;
            [|intros; apply keepsFailure_assignTarget]
        end;
    finish_all.
Qed.

Lemma noFewer_notifyResolver cfg vars : post noFewer anyState (notifyResolver cfg vars).
Proof. apply post_notifyResolver; noFewer_side. Qed.

Lemma declaredValue_run loc n walk st r st' :
  (∀ w, walk = Some w → reportsFailure w) →
  declaredValue loc n walk st = Normal r st' →
  noFewer st st' ∧ (r ≠ Some true → (numDiagnostics st < numDiagnostics st')%nat).
Proof.
  intros Hw H. unfold declaredValue, declarationError in H.
  destruct walk as [w|]; [specialize (Hw w eq_refl)|].
  - run_inv'; use_runs.
    + count_diagnostics. split; [lia|]. intros _. lia.
    + count_diagnostics. split; [lia|]. intros Hr.
      match goal with b : bool |- _ => destruct b end; [done|]. lia.
  - run_inv'. by split; [count_diagnostics|].
Qed.

Lemma keepsFailure_declareVariable cfg i v : keepsFailure id (declareVariable cfg i v).
Proof.
  intros s st s' st' H. unfold declareVariable, activateVariable, typeError in H.
  run_inv'; use_runs; finish_keeps.
Qed.

Lemma reportsFailure_visit_VariableDeclaration cfg addr loc vars walk :
  (∀ w, walk = Some w → reportsFailure w) →
  reportsFailure (visit_VariableDeclaration cfg addr loc vars walk).
Proof.
  intros Hw st b st' H. unfold visit_VariableDeclaration in H.
  apply bind_Normal in H as (? & st1 & Hnotify & H).
  apply bind_Normal in H as (r & st2 & Hvalue & H).
  apply (noFewer_run _ _ _ _ (noFewer_notifyResolver _ _)) in Hnotify.
  apply (declaredValue_run _ _ _ _ _ _ Hw) in Hvalue as [? Hr].
  destruct r as [success|].
  - apply bind_Normal in H as (s' & st3 & Hloop & H).
    apply (keepsFailure_forEachIndexed id) in Hloop as [? Hs'];
      [|intros; apply keepsFailure_declareVariable].
    run_inv. count_diagnostics. split; [lia|]. intros ->.
    destruct (Hs' eq_refl) as [->|?]; [|lia].
    assert ((length (errors (m_errorReporter st1)) < length (errors (m_errorReporter st2)))%nat)
      by (by apply Hr). lia.
  - run_inv. count_diagnostics. split; [lia|]. intros _.
    assert ((length (errors (m_errorReporter st1)) < length (errors (m_errorReporter st2)))%nat)
      by (by apply Hr). lia.
Qed.

Lemma noFewer_activateVariable s name : post noFewer anyState (activateVariable s name).
Proof. apply post_activateVariable; noFewer_side. Qed.

Lemma reportsFailure_visit_FunctionDefinition cfg addr name ps rs walk :
  reportsFailure walk → reportsFailure (visit_FunctionDefinition cfg addr name ps rs walk).
Proof.
  intros Hw st b st' H. unfold visit_FunctionDefinition in H.
  apply bind_Normal in H as (? & ? & Hassert & H). apply yulAssert_Normal in Hassert as [_ ->].
  apply bind_Normal in H as (vb & st1 & Hvb & H).
  assert (st1 = st) as ->.
  { destruct (virtualBlocks (m_info st) !! addr) as [[?|]|]; by simplify_eq. }
  apply bind_Normal in H as (varScope & ? & Hscope & H). apply scope_Normal in Hscope as [_ ->].
  apply bind_Normal in H as (? & st2 & Hloop & H).
  assert (noFewer st st2).
  { eapply (noFewer_run _ _ _ _ _ Hloop). }
  run_inv'; use_runs; finish_all.
  Unshelve.
  apply post_forEach; try noFewer_side. apply Forall_forall. intros v _ [].
  apply post_bind; try noFewer_side; [apply noFewer_expectValidType|].
  intros _. apply noFewer_activateVariable.
Qed.

Lemma reportsFailure_visit_If cfg addr c walkCondition walkBody :
  reportsFailure walkCondition → reportsFailure walkBody →
  reportsFailure (visit_If cfg addr c walkCondition walkBody).
Proof.
  intros Hc Hb st b st' H. unfold visit_If in H.
  apply (reportsFailure_expectCondition cfg _ (locationOf c)) in Hc.
  run_inv'; use_runs; finish_all.
Qed.

Lemma keepsFailure_visit_Case cfg loc value walkBody :
  reportsFailure walkBody → keepsFailure fst (visit_Case cfg loc value walkBody).
Proof.
  intros Hb [s seen] st [s' seen'] st' H. unfold visit_Case, declarationError in H.
  pose proof (reportsFailure_visit_Literal cfg) as Hlit.
  run_inv';
    repeat match goal with
      | H : visit_Literal _ _ _ = Normal _ _ |- _ => apply Hlit in H
      | H : expectDeposit _ _ _ _ = Normal _ _ |- _ =>
          apply reportsFailure_expectDeposit in H as [H _]
      end;
    use_runs; finish_keeps.
Qed.

Lemma reportsFailure_visit_Switch cfg addr e cases walkExpression walkCases :
  reportsFailure walkExpression → keepsFailure fst walkCases →
  reportsFailure (visit_Switch cfg addr e cases walkExpression walkCases).
Proof.
  intros He Hc st b st' H. unfold visit_Switch in H.
  apply (reportsFailure_expectExpression _ (locationOf e)) in He.
  apply bind_Normal in H as (h & ? & Hh & H). apply gets_Normal in Hh as [-> ->].
  apply bind_Normal in H as (s0 & st1 & Hexpr & H). apply He in Hexpr as [? Hs0].
  apply bind_Normal in H as (valueType & st2 & Htype & H).
  assert (st2 = st1) as -> by (destruct s0; run_inv'; done).
  apply bind_Normal in H as (s1 & st3 & Htypes & H).
  apply (keepsFailure_forEach id) in Htypes as [? Hs1].
  2: { apply Forall_forall. intros c _ s st4 s' st5 Hrun.
       destruct (case_value c); run_inv';
         try match goal with
             | H : expectType _ _ _ _ = Normal _ _ |- _ =>
                 apply reportsFailure_expectType in H
             end; finish_keeps. }
  apply bind_Normal in H as ([s2 seen] & st4 & Hcases & H).
  apply Hc in Hcases as [? Hs2]. simpl in *. unfold id in *.
  run_inv; count_diagnostics; (split; [lia|]); intros ->.
  all: destruct (Hs2 eq_refl) as [Hs|?]; [|lia].
  all: destruct (Hs1 Hs) as [Hs'|?]; [|lia].
  all: try discriminate. lia.
Qed.

Lemma reportsFailure_visit_ForLoop cfg addr pre c walkPre walkCondition walkBody walkPost :
  reportsFailure walkPre → reportsFailure walkCondition →
  reportsFailure walkBody → reportsFailure walkPost →
  reportsFailure (visit_ForLoop cfg addr pre c walkPre walkCondition walkBody walkPost).
Proof.
  intros Hpre Hc Hbody Hpost st b st' H. unfold visit_ForLoop in H.
  apply (reportsFailure_expectCondition cfg _ (locationOf c)) in Hc.
  run_inv'; use_runs; finish_all.
Qed.

Lemma reportsFailure_visit_Block addr loc walkStatements :
  reportsFailure walkStatements → reportsFailure (visit_Block addr loc walkStatements).
Proof.
  intros Hw st b st' H. unfold visit_Block, declarationError in H.
  run_inv'; use_runs; finish_all.
Qed.

Lemma reportsFailure_walk_Block cfg b : reportsFailure (walk_Block cfg b).
Proof.
  revert b.
  apply (Block_nested_ind
           (λ s, reportsFailure (walk_Statement cfg s))
           (λ b, reportsFailure (walk_Block cfg b))
           (λ c, keepsFailure fst (walk_Case cfg c))); simpl; intros.
  - apply reportsFailure_visit_ExpressionStatement, reportsFailure_walk_Expression.
  - apply reportsFailure_visit_Assignment, reportsFailure_walk_Expression.
  - apply reportsFailure_visit_VariableDeclaration. intros w Hw.
    destruct value; simplify_eq/=. apply reportsFailure_walk_Expression.
  - by apply reportsFailure_visit_FunctionDefinition.
  - apply reportsFailure_visit_If; [apply reportsFailure_walk_Expression | done].
  - apply reportsFailure_visit_Switch; [apply reportsFailure_walk_Expression|].
    by apply keepsFailure_forEach.
  - apply reportsFailure_visit_ForLoop; auto using reportsFailure_walk_Expression.
  - intros st b st' H. unfold visit_Marker in H. run_inv. finish.
  - intros st b st' H. unfold visit_Marker in H. run_inv. finish.
  - intros st b st' H. unfold visit_Marker in H. run_inv. finish.
  - done.
  - apply reportsFailure_visit_Block.
    intros st b st' Hloop. apply (keepsFailure_forEach id) in Hloop.
    + destruct Hloop as [? Hb]. split; [done|]. intros ->. by destruct (Hb eq_refl).
    + eapply Forall_impl; [eassumption|]. intros s Hs success st1 s1 st2 Hrun; simpl in *.
      run_inv'; use_runs; finish_keeps.
  - by apply keepsFailure_visit_Case.
Qed.

(** A walk that returns false has handed at least one diagnostic to the
    reporter, whatever the resolver does. *)
Lemma failed_walk_has_reported cfg b st st' :
  walk_Block cfg b st = Normal false st' → errors (m_errorReporter st') ≠ [].
Proof.
  intros H. apply reportsFailure_walk_Block in H as [_ H]. specialize (H eq_refl).
  unfold numDiagnostics in H. destruct (errors (m_errorReporter st')); [simpl in H; lia | done].
Qed.

(** ** The verdict of [analyze] *)

Lemma hasErrors_nonempty er : hasErrors er = true → errors er ≠ [].
Proof. unfold hasErrors. by destruct (errors er). Qed.

(** C3.  [analyze] returns true only when the reporter holds no error, and
    when it returns false the reporter holds at least one diagnostic: a
    failed walk has reported ([failed_walk_has_reported]), the fatal error
    passes an assertion on the reporter before [analyze] returns, and a run
    that ends with success but with errors reported is turned into a
    rejection.  The first return, taken when the scope filler fails, checks
    nothing; there the diagnostic is the one the filler reports with its
    failure. *)
Theorem analyze_rejects_with_diagnostic cfg filler b st r st' :
  (∀ blk info er info' er', filler blk info er = Filled false info' er' → errors er' ≠ []) →
  analyze cfg filler b st = Normal r st' →
  (r = true → hasErrors (m_errorReporter st') = false) ∧
  (r = false → errors (m_errorReporter st') ≠ []).
Proof.
  intros Hfiller. unfold analyze, runScopeFiller, catchFatalError.
  destruct (filler b (m_info st) (m_errorReporter st)) as [ok info er|info er] eqn:Hfill.
  - destruct ok.
    + destruct (walk_Block cfg b _) as [success st2|st2|w] eqn:Hwalk; [| |done].
      * destruct success; simpl.
        -- destruct (hasErrors (m_errorReporter st2)) eqn:He; intros [= <- <-];
             split; try done. intros _. by apply hasErrors_nonempty.
        -- destruct (hasErrors (m_errorReporter st2)) eqn:He; [|done].
           intros [= <- <-]. split; [done|]. intros _.
           by eapply failed_walk_has_reported.
      * case_bool_decide; [done|]. intros [= <- <-]. by split.
    + intros [= <- <-]. split; [done|]. intros _. simpl. eauto.
  - simpl. case_bool_decide; [done|]. intros [= <- <-]. by split.
Qed.

Lemma analyze_rejects_with_diagnostic_witness :
  ∃ st', analyze Examples.cfg (Examples.fillerOf Examples.emptyInfo) Examples.literalStatement
           (Examples.fresh Examples.emptyInfo) = Normal false st' ∧
         errors (m_errorReporter st') ≠ [].
Proof.
  assert (∃ st', analyze Examples.cfg (Examples.fillerOf Examples.emptyInfo)
                   Examples.literalStatement (Examples.fresh Examples.emptyInfo) = Normal false st')
    as [st' Hrun] by (eexists; vm_compute; reflexivity).
  exists st'. split; [exact Hrun|].
  refine (proj2 (analyze_rejects_with_diagnostic Examples.cfg (Examples.fillerOf Examples.emptyInfo)
                   Examples.literalStatement (Examples.fresh Examples.emptyInfo) false st' _ Hrun)
                eq_refl).
  intros blk info er info' er' H. unfold Examples.fillerOf in H. discriminate H.
Defined.

(** ** Frames of the helper steps *)

(** A run that returns satisfies the relation a [post] statement gives for it. *)
Lemma post_run {A} R F (m : M A) st a st' : post R F m → m st = Normal a st' → R st st'.
Proof. intros H Hrun. specialize (H st). by rewrite Hrun in H. Qed.

Lemma reportsOnly_refl st : reportsOnly st st.
Proof. by repeat split. Qed.

Lemma reportsOnly_trans a b c : reportsOnly a b → reportsOnly b c → reportsOnly a c.
Proof. intros (?&?&?&?&?&?) (?&?&?&?&?&?). repeat split; congruence. Qed.

Lemma reportsOnly_error ty loc msg st u st' :
  error ty loc msg st = Normal u st' → reportsOnly st st'.
Proof. intros H. apply error_Normal in H as ->. by repeat split. Qed.

Lemma reportsOnly_callResolver r i ctx inside st n st' :
  callResolver r i ctx inside st = Normal n st' → reportsOnly st st'.
Proof.
  unfold callResolver. destruct (r i ctx inside) as [diagnostics size]. intros H.
  apply bind_Normal in H as ([] & st1 & Hloop & H). apply ret_Normal in H as [_ ->].
  revert st Hloop. induction diagnostics as [|e l IH]; intros st Hloop; simpl in Hloop.
  - apply ret_Normal in Hloop as [_ ->]. apply reportsOnly_refl.
  - apply bind_Normal in Hloop as ([] & st2 & Herr & Hloop).
    eapply reportsOnly_trans; [by eapply reportsOnly_error | by apply IH].
Qed.

Lemma reportsOnly_expectValidType cfg ty loc st u st' :
  expectValidType cfg ty loc st = Normal u st' → reportsOnly st st'.
Proof.
  unfold expectValidType, typeError. intros H. run_inv'; [|apply reportsOnly_refl].
  by repeat split.
Qed.

Lemma reportsOnly_notifyResolver cfg vars st u st' :
  notifyResolver cfg vars st = Normal u st' → reportsOnly st st'.
Proof.
  unfold notifyResolver. destruct (m_resolver cfg) as [r|].
  - revert st. induction vars as [|v l IH]; intros st H; simpl in H.
    + apply ret_Normal in H as [_ ->]. apply reportsOnly_refl.
    + apply bind_Normal in H as ([] & st1 & Hstep & H).
      eapply reportsOnly_trans; [|by apply IH].
      run_inv'. by eapply reportsOnly_callResolver.
  - intros H. apply ret_Normal in H as [_ ->]. apply reportsOnly_refl.
Qed.

Lemma marksOnly_refl st : marksOnly st st.
Proof. by repeat split. Qed.

Lemma marksOnly_trans a b c : marksOnly a b → marksOnly b c → marksOnly a c.
Proof. intros (?&?&?&?&?) (?&?&?&?&?). repeat split; congruence. Qed.

Lemma marksOnly_reportsOnly st st' : reportsOnly st st' → marksOnly st st'.
Proof. by intros (?&?&?&?&?&?). Qed.

(** A relation that is reflexive and transitive and holds across every round of a
    loop holds across the loop. *)
Lemma forEach_invariant {A S} (R : AsmAnalyzer → AsmAnalyzer → Prop) (body : A → S → M S) l :
  (∀ st, R st st) → (∀ a b c, R a b → R b c → R a c) →
  (∀ x s st s' st', x ∈ l → body x s st = Normal s' st' → R st st') →
  ∀ s st s' st', forEach body l s st = Normal s' st' → R st st'.
Proof.
  intros Hrefl Htrans. induction l as [|x r IH]; intros Hbody s st s' st' H; simpl in H.
  - apply ret_Normal in H as [_ ->]. apply Hrefl.
  - apply bind_Normal in H as (s1 & st1 & Hstep & H).
    eapply Htrans; [eapply Hbody; [left|exact Hstep]|].
    eapply IH; [|exact H]. intros. eapply Hbody; [by right|eassumption].
Qed.

(** A loop whose rounds each move the stack height by [d]. *)
Lemma forEach_height {A S} (d : Z) (body : A → S → M S) l :
  (∀ x s st s' st', body x s st = Normal s' st' → m_stackHeight st' = m_stackHeight st + d) →
  ∀ s st s' st', forEach body l s st = Normal s' st' →
    m_stackHeight st' = m_stackHeight st + d * Z.of_nat (length l).
Proof.
  intros Hbody. induction l as [|x r IH]; intros s st s' st' H; simpl in H.
  - apply ret_Normal in H as [_ ->]. simpl. lia.
  - apply bind_Normal in H as (s1 & st1 & Hstep & H).
    apply Hbody in Hstep. apply IH in H. rewrite length_cons, Nat2Z.inj_succ. lia.
Qed.

(** The loop of the block handler, round by round. *)
Lemma forEach_runsAll {A} (f : A → M bool) l : ∀ b0 st b st',
  forEach (λ x success, ok ← f x; mret (success && ok)) l b0 st = Normal b st' →
  ∃ b', runsAll f l st b' st' ∧ b = b0 && b'.
Proof.
  induction l as [|x r IH]; intros b0 st b st' H; simpl in H.
  - apply ret_Normal in H as [-> ->]. exists true. split; [constructor|by destruct b0].
  - apply bind_Normal in H as (s1 & st1 & Hstep & H).
    apply bind_Normal in Hstep as (ok & st2 & Hf & Hstep). apply ret_Normal in Hstep as [-> ->].
    apply IH in H as (b' & Hruns & ->). exists (ok && b'). split; [by econstructor|].
    by destruct b0, ok, b'.
Qed.

(** A loop over a flag whose rounds, to end with the flag raised, must start
    with it raised and leave the state alone. *)
Lemma forEach_true {A} (P : A → Prop) (body : A → bool → M bool) l :
  (∀ x s st s' st', body x s st = Normal s' st' → s' = true → s = true ∧ st' = st ∧ P x) →
  ∀ s st st', forEach body l s st = Normal true st' → s = true ∧ st' = st ∧ Forall P l.
Proof.
  intros Hbody. induction l as [|x r IH]; intros s st st' H; simpl in H.
  - apply ret_Normal in H as [<- ->]. by repeat split.
  - apply bind_Normal in H as (s1 & st1 & Hstep & H).
    apply IH in H as (-> & -> & Hr).
    apply Hbody in Hstep as (-> & -> & Hx); [|done].
    split; [done|]. split; [done|]. by constructor.
Qed.

(** A loop whose rounds never raise the flag ends with it raised only if it
    started so. *)
Lemma forEach_flag {A} (body : A → bool → M bool) l :
  (∀ x s st s' st', body x s st = Normal s' st' → s' = true → s = true) →
  ∀ s st st', forEach body l s st = Normal true st' → s = true.
Proof.
  intros Hbody. induction l as [|x r IH]; intros s st st' H; simpl in H.
  - by apply ret_Normal in H as [<- _].
  - apply bind_Normal in H as (s1 & st1 & Hstep & H).
    apply IH in H as ->. by eapply Hbody.
Qed.

Lemma activateVariable_marksOnly s name st u st' :
  activateVariable s name st = Normal u st' → marksOnly st st'.
Proof.
  unfold activateVariable. intros H. run_inv'. by repeat split.
Qed.

Lemma declareVariable_marksOnly cfg i v s st s' st' :
  declareVariable cfg i v s st = Normal s' st' → marksOnly st st'.
Proof.
  unfold declareVariable. intros H.
  apply bind_Normal in H as (ty & ? & Hty & H). unfold givenTypeAt in Hty.
  apply gets_Normal in Hty as [-> ->].
  apply bind_Normal in H as ([] & st1 & Hvalid & H).
  apply reportsOnly_expectValidType, marksOnly_reportsOnly in Hvalid.
  apply bind_Normal in H as (s1 & st2 & Hcheck & H).
  assert (marksOnly st1 st2).
  { unfold typeError in Hcheck. run_inv'; by repeat split. }
  apply bind_Normal in H as (sc & st3 & Hsc & H).
  assert (st3 = st2) as -> by (by run_inv').
  apply bind_Normal in H as ([] & st4 & Hmark & H). apply ret_Normal in H as [_ ->].
  apply activateVariable_marksOnly in Hmark.
  eauto using marksOnly_trans.
Qed.

Lemma declareVariables_marksOnly cfg vars s st s' st' :
  forEachIndexed (declareVariable cfg) vars s st = Normal s' st' → marksOnly st st'.
Proof.
  unfold forEachIndexed. apply forEach_invariant; [apply marksOnly_refl | apply marksOnly_trans|].
  intros [i v] s0 st0 s1 st1 _. apply declareVariable_marksOnly.
Qed.

(** The loop of the function-definition handler over the parameters and the
    return variables marks each of them active in the scope of the virtual
    block. *)
Lemma activateParameters cfg varScope (l : list TypedName) : ∀ st st',
  forEach (λ var (_ : unit),
             expectValidType cfg (tn_type var) (tn_location var);;
             activateVariable varScope (tn_name var)) l tt st = Normal tt st' →
  marksOnly st st' ∧ m_activeVariables st ⊆ m_activeVariables st' ∧
  ∀ v, v ∈ l → (scope_addr varScope, tn_name v) ∈ m_activeVariables st'.
Proof.
  induction l as [|v r IH]; intros st st' H; simpl in H.
  - apply ret_Normal in H as [_ ->]. split; [apply marksOnly_refl|]. split; [done|].
    intros v Hv. by apply elem_of_nil in Hv.
  - apply bind_Normal in H as ([] & st1 & Hstep & H).
    apply bind_Normal in Hstep as ([] & st2 & Hvalid & Hstep).
    apply reportsOnly_expectValidType in Hvalid as Hr.
    apply activateVariable_marksOnly in Hstep as Hm.
    apply IH in H as (Hm' & Hsub & Hin).
    assert (Hv : (scope_addr varScope, tn_name v) ∈ m_activeVariables st1 ∧
                 m_activeVariables st ⊆ m_activeVariables st1).
    { unfold activateVariable in Hstep. destruct Hr as (_ & _ & Ha & _).
      run_inv'. simpl. rewrite Ha.
      split; [by apply elem_of_union_l, elem_of_singleton | apply union_subseteq_r]. }
    destruct Hv as [Hv Hsub1].
    split; [eauto using marksOnly_trans, marksOnly_reportsOnly|].
    split; [by etrans|].
    intros v' Hv'. apply elem_of_cons in Hv' as [->|Hv']; [by apply Hsub|by apply Hin].
Qed.

(** ** The active-variable set *)

(** C4 does not hold as stated.  In [{ { let x := 1 } { } }] the first inner
    block is walked from the state inside the outer block; the state it
    returns is the one the second inner block is entered with.  There the
    active set holds [x] of the first block (scope 101), which is bound
    neither in the scope of the second block nor in a scope that encloses it.
    The same holds when the outer block is left. *)
Lemma closed_block_variable_stays_active :
  let atSecond := walk_Statement Examples.cfg Examples.firstSibling Examples.insideOuter in
  let atExit := walk_Block Examples.cfg Examples.siblings (Examples.fresh Examples.siblingsInfo) in
  Examples.result atSecond = Some true ∧
  Examples.activeAfter atSecond = Some [(101%N, "x")] ∧
  boundInChain Examples.secondScope (101%N, "x") = false ∧
  Examples.result atExit = Some true ∧
  Examples.activeAfter atExit = Some [(101%N, "x")] ∧
  boundInChain Examples.outerScope (101%N, "x") = false.
Proof. by vm_compute. Qed.

Lemma keepsScope_trans a b c : keepsScope a b → keepsScope b c → keepsScope a c.
Proof. intros [? ?] [? ?]. split; [congruence | by etrans]. Qed.

Lemma keepsScope_declaredValue cfg loc n value :
  post keepsScope keepsScope (declaredValue loc n (walk_Expression cfg <$> value)).
Proof.
  apply post_declaredValue; try (intros; by split); try apply keepsScope_trans.
  intros w Hw st. destruct value as [e|]; simplify_eq/=.
  pose proof (sameFrame_walk_Expression cfg e st) as H.
  destruct (walk_Expression cfg e st); try done; destruct H as (?&?&Ha); split; try done;
    by rewrite Ha.
Qed.

Lemma addsOnly_refl S V cur D st : addsOnly S V cur D st st.
Proof. intros ? ? ?. repeat split; try done. apply union_subseteq_l. Qed.

Lemma addsOnly_trans S V cur D a b c :
  addsOnly S V cur D a b → addsOnly S V cur D b c → addsOnly S V cur D a c.
Proof.
  intros Hab Hbc HS HV Hc. destruct (Hab HS HV Hc) as (HS' & HV' & Hc' & Hsub).
  destruct (Hbc HS' HV' Hc') as (? & ? & ? & Hsub'). repeat split; try done.
  etrans; [exact Hsub'|]. apply union_least; [done | apply union_subseteq_r].
Qed.

(** A step that leaves the tables, the current scope and the active set
    alone. *)
Lemma addsOnly_unchanged S V cur D st st' :
  (scopes (m_info st') = scopes (m_info st) ∧
   virtualBlocks (m_info st') = virtualBlocks (m_info st)) →
  m_currentScope st' = m_currentScope st →
  m_activeVariables st' = m_activeVariables st →
  addsOnly S V cur D st st'.
Proof.
  intros [Hs Hv] Hc Ha HS HV Hcur. rewrite Ha, Hs, Hv, Hc.
  repeat split; try done. apply union_subseteq_l.
Qed.

Ltac addsOnly_side :=
  first
    [ apply addsOnly_refl | apply addsOnly_trans
    | by intros
    | intros; apply addsOnly_unchanged; done ].

Lemma addsOnly_walk_Expression cfg S V cur D e :
  post (addsOnly S V cur D) anyState (walk_Expression cfg e).
Proof. apply post_walk_Expression; addsOnly_side. Qed.

Lemma addsOnly_expectCondition cfg S V cur D e loc :
  post (addsOnly S V cur D) anyState (expectCondition cfg (walk_Expression cfg e) loc).
Proof. apply post_expectCondition; try addsOnly_side. apply addsOnly_walk_Expression. Qed.

(** One round of the marking loop marks its variable, in the scope that
    is current, and nothing else. *)
Lemma declareVariable_adds cfg i v s st s' st' :
  declareVariable cfg i v s st = Normal s' st' →
  ∃ sc, m_currentScope st = Some sc ∧ m_currentScope st' = Some sc ∧
        m_info st' = m_info st ∧
        m_activeVariables st' = {[ (scope_addr sc, tn_name v) ]} ∪ m_activeVariables st.
Proof.
  unfold declareVariable. intros H.
  apply bind_Normal in H as (ty & ? & Hty & H). unfold givenTypeAt in Hty.
  apply gets_Normal in Hty as [-> ->].
  apply bind_Normal in H as ([] & st1 & Hvalid & H).
  apply reportsOnly_expectValidType in Hvalid as (_ & Hc1 & Ha1 & Hi1 & _).
  apply bind_Normal in H as (s1 & st2 & Hcheck & H).
  assert (reportsOnly st1 st2) as (_ & Hc2 & Ha2 & Hi2 & _).
  { unfold typeError in Hcheck. run_inv'; by repeat split. }
  apply bind_Normal in H as (sc & st3 & Hsc & H).
  unfold currentScope in Hsc. destruct (m_currentScope st2) as [sc'|] eqn:Hcur; [|done].
  injection Hsc as -> ->.
  apply bind_Normal in H as ([] & st4 & Hmark & H). apply ret_Normal in H as [_ ->].
  unfold activateVariable in Hmark. destruct (identifiers sc !! tn_name v) as [[]|]; try done.
  apply modify_Normal in Hmark as ->. simpl.
  exists sc. rewrite Hcur, Ha2, Ha1, Hi2, Hi1. split; [congruence|]. done.
Qed.

Lemma markedBy_cons s v l : markedBy s (v :: l) = {[ (scope_addr s, tn_name v) ]} ∪ markedBy s l.
Proof. reflexivity. Qed.

Lemma markedBy_elem s l k : k ∈ markedBy s l ↔ ∃ v, v ∈ l ∧ k = (scope_addr s, tn_name v).
Proof.
  unfold markedBy. rewrite elem_of_list_to_set, list_elem_of_fmap.
  split; intros (v & H1 & H2); exists v; by split.
Qed.

(** The marking loop marks the declared variables, in the scope that is
    current, and nothing else. *)
Lemma declareVariables_add cfg (l : list (nat * TypedName)) : ∀ s st s' st',
  forEach (λ ix, declareVariable cfg ix.1 ix.2) l s st = Normal s' st' →
  m_currentScope st' = m_currentScope st ∧ m_info st' = m_info st ∧
  m_activeVariables st' =
    match m_currentScope st with
    | Some sc => markedBy sc l.*2
    | None => ∅
    end ∪ m_activeVariables st.
Proof.
  induction l as [|[i v] r IH]; intros s st s' st' H; simpl in H.
  - apply ret_Normal in H as [_ ->]. split; [done|]. split; [done|].
    destruct (m_currentScope st); unfold markedBy; simpl; by rewrite union_empty_l_L.
  - apply bind_Normal in H as (s1 & st1 & Hstep & H).
    apply declareVariable_adds in Hstep as (sc & Hsc & Hsc1 & Hi1 & Ha1).
    apply IH in H as (Hsc' & Hi' & Ha'). rewrite Hsc1 in Hsc', Ha'. rewrite Hsc.
    split; [done|]. split; [congruence|].
    rewrite Ha', Ha1. simpl. rewrite markedBy_cons.
    apply set_eq. intros x. rewrite !elem_of_union. tauto.
Qed.

Lemma visit_VariableDeclaration_adds cfg addr loc vars value st r st' :
  walk_Statement cfg (SVariableDeclaration addr loc vars value) st = Normal r st' →
  m_currentScope st' = m_currentScope st ∧
  m_activeVariables st' ⊆
    m_activeVariables st ∪
    match m_currentScope st with Some sc => markedBy sc vars | None => ∅ end ∧
  (r = true →
   m_activeVariables st' =
     m_activeVariables st ∪
     match m_currentScope st with Some sc => markedBy sc vars | None => ∅ end).
Proof.
  simpl. unfold visit_VariableDeclaration. intros Hrun.
  apply bind_Normal in Hrun as (? & st1 & Hnotify & Hrun).
  apply bind_Normal in Hrun as (proceed & st2 & Hvalue & Hrun).
  apply reportsOnly_notifyResolver in Hnotify as (_ & Hc1 & Ha1 & _).
  pose proof (keepsScope_declaredValue cfg loc (Z.of_nat (length vars)) value st1) as H2.
  rewrite Hvalue in H2. destruct H2 as [Hc2 _].
  assert (Ha2 : m_activeVariables st2 = m_activeVariables st1).
  { pose proof (post_declaredValue sameFrame anyState) as Hp.
    specialize (Hp (λ st, conj eq_refl (conj eq_refl eq_refl)) sameFrame_trans).
    specialize (Hp (λ _ _ _ _ _, I)).
    specialize (Hp (λ _ st, conj eq_refl (conj eq_refl eq_refl))
                   (λ _ st, conj eq_refl (conj eq_refl eq_refl)) (λ _ _, I)
                   loc (Z.of_nat (length vars)) (walk_Expression cfg <$> value)).
    assert (Hw : ∀ w, walk_Expression cfg <$> value = Some w → post sameFrame anyState w).
    { intros w Hw. destruct value as [e|]; simplify_eq/=. intros s0.
      pose proof (sameFrame_walk_Expression cfg e s0) as He.
      by destruct (walk_Expression cfg e s0). }
    specialize (Hp Hw st1). rewrite Hvalue in Hp. by destruct Hp as (_ & _ & Hp). }
  destruct proceed as [success|].
  - apply bind_Normal in Hrun as (success' & st3 & Hloop & Hrun). run_inv. simpl.
    unfold forEachIndexed in Hloop. apply declareVariables_add in Hloop as (Hc3 & _ & Ha3).
    rewrite snd_zip in Ha3 by (by rewrite length_seq).
    rewrite Hc2, Ha2, Hc1, Ha1 in Ha3. rewrite Ha3.
    split; [congruence|].
    split; [by rewrite union_comm_L | intros _; apply union_comm_L].
  - apply ret_Normal in Hrun as [? ?]. simplify_eq. split; [congruence|].
    split; [|done]. rewrite Ha2, Ha1. apply union_subseteq_l.
Qed.

(** The loop over the parameters and the return variables marks them, in
    the scope of the virtual block, and nothing else. *)
Lemma activateParameters_add cfg varScope (l : list TypedName) st st' :
  forEach (λ var (_ : unit),
             expectValidType cfg (tn_type var) (tn_location var);;
             activateVariable varScope (tn_name var)) l tt st = Normal tt st' →
  m_activeVariables st' ⊆ m_activeVariables st ∪ markedBy varScope l.
Proof.
  revert st st'. induction l as [|v r IH]; intros st st' H; simpl in H.
  - apply ret_Normal in H as [_ ->]. apply union_subseteq_l.
  - apply bind_Normal in H as ([] & st1 & Hstep & H).
    apply bind_Normal in Hstep as ([] & st2 & Hvalid & Hstep).
    apply reportsOnly_expectValidType in Hvalid as (_ & _ & Ha & _).
    apply IH in H.
    unfold activateVariable in Hstep. destruct (identifiers varScope !! tn_name v) as [[]|]; try done.
    apply modify_Normal in Hstep as ->. simpl in H. rewrite Ha in H.
    rewrite markedBy_cons. intros x Hx. apply H in Hx. revert Hx.
    rewrite !elem_of_union. tauto.
Qed.

Lemma subseteq_union_list_fmap {A} (f : A → gset (N * string)) (l : list A) x :
  x ∈ l → f x ⊆ ⋃ (f <$> l).
Proof.
  intros Hx k Hk. apply elem_of_union_list. exists (f x). split; [|done].
  apply list_elem_of_fmap. by exists x.
Qed.

(** What a walk marks lies among the variables its declarations and
    function definitions declare. *)
Lemma addsOnly_walk cfg :
  (∀ s S V cur D, declared_Statement S V cur s ⊆ D →
     post (addsOnly S V cur D) anyState (walk_Statement cfg s)) ∧
  (∀ b S V cur D, declared_Block S V b ⊆ D →
     post (addsOnly S V cur D) anyState (walk_Block cfg b)) ∧
  (∀ c S V cur D acc, declared_Case S V c ⊆ D →
     post (addsOnly S V cur D) anyState (walk_Case cfg c acc)).
Proof.
  apply (Walk_nested_ind
           (λ s, ∀ S V cur D, declared_Statement S V cur s ⊆ D →
                   post (addsOnly S V cur D) anyState (walk_Statement cfg s))
           (λ b, ∀ S V cur D, declared_Block S V b ⊆ D →
                   post (addsOnly S V cur D) anyState (walk_Block cfg b))
           (λ c, ∀ S V cur D acc, declared_Case S V c ⊆ D →
                   post (addsOnly S V cur D) anyState (walk_Case cfg c acc))); simpl.
  - intros. apply post_visit_ExpressionStatement; try addsOnly_side.
    apply addsOnly_walk_Expression.
  - intros. apply post_visit_Assignment; try addsOnly_side. apply addsOnly_walk_Expression.
  - intros addr loc vars value S V cur D HD st.
    pose proof (grows_walk_Statement cfg (SVariableDeclaration addr loc vars value) st) as Hg.
    simpl in Hg.
    destruct (visit_VariableDeclaration _ _ _ _ _ st) as [r st'| |] eqn:Hrun; [|done|done].
    apply (visit_VariableDeclaration_adds cfg addr loc vars value) in Hrun as (Hc & Ha & _).
    destruct Hg as (_ & _ & _ & Hs & Hv).
    intros HS HV Hcur. rewrite Hs, Hv, Hc. repeat split; try done.
    rewrite Hcur in Ha. etrans; [exact Ha|]. by apply union_mono.
  - intros addr loc name ps rs body IH S V cur D HD st.
    destruct (visit_FunctionDefinition _ _ _ _ _ _ st) as [r st'| |] eqn:Hrun; [|done|done].
    intros HS HV Hcur. unfold visit_FunctionDefinition in Hrun.
    apply bind_Normal in Hrun as (? & ? & Hassert & Hrun).
    apply yulAssert_Normal in Hassert as [_ ->].
    apply bind_Normal in Hrun as (vb & ? & Hvb & Hrun).
    destruct (virtualBlocks (m_info st) !! addr) as [[vb'|]|] eqn:Hlook; try done.
    injection Hvb as -> <-.
    apply bind_Normal in Hrun as (varScope & ? & Hscope & Hrun).
    apply scope_Normal in Hscope as [Hscope ->].
    apply bind_Normal in Hrun as ([] & st1 & Hparams & Hrun).
    apply activateParameters in Hparams as Hmarks. destruct Hmarks as ((_ & Hc1 & Hi1 & _) & _).
    apply activateParameters_add in Hparams.
    run_inv. simpl.
    assert (HDbody : declared_Block (scopes (m_info st)) (virtualBlocks (m_info st)) body ⊆ D)
      by (etrans; [apply union_subseteq_r | exact HD]).
    match goal with
    | Hb : walk_Block cfg body ?entered = Normal _ ?st2 |- _ =>
        pose proof (IH _ _ (m_currentScope st) D HDbody entered) as Hbody;
        rewrite Hb in Hbody; unfold addsOnly in Hbody; simpl in Hbody; rewrite Hi1 in Hbody;
        destruct (Hbody eq_refl eq_refl Hc1) as (HS2 & HV2 & Hc2 & Ha2)
    end.
    repeat split; try done. etrans; [exact Ha2|].
    rewrite Hlook, Hscope in HD.
    intros k Hk. apply elem_of_union in Hk as [Hk|Hk]; [|by apply elem_of_union_r].
    apply Hparams in Hk. apply elem_of_union in Hk as [Hk|Hk]; [by apply elem_of_union_l|].
    apply elem_of_union_r, HD. by apply elem_of_union_l.
  - intros addr loc c body IH S V cur D HD.
    apply post_visit_If; try addsOnly_side; [apply addsOnly_walk_Expression | by apply IH].
  - intros addr loc e cases IH S V cur D HD.
    apply post_visit_Switch; try addsOnly_side; [apply addsOnly_walk_Expression|].
    apply post_forEach; try addsOnly_side.
    apply Forall_forall. intros c Hc acc. rewrite Forall_forall in IH.
    apply IH; [done|]. etrans; [|exact HD].
    by apply (subseteq_union_list_fmap (declared_Case S V)).
  - intros addr loc pre c post_ body IHpre IHpost IHbody S V cur D HD st.
    destruct (visit_ForLoop _ _ _ _ _ _ _ _ st) as [r st'| |] eqn:Hrun; [|done|done].
    intros HS HV Hcur. unfold visit_ForLoop in Hrun. run_inv. simpl in *. simplify_eq.
    assert (HDpre : declared_Block (scopes (m_info st)) (virtualBlocks (m_info st)) pre ⊆ D).
    { etrans; [|exact HD]. etrans; [|apply union_subseteq_l]. apply union_subseteq_l. }
    assert (HDbody : declared_Block (scopes (m_info st)) (virtualBlocks (m_info st)) body ⊆ D).
    { etrans; [|exact HD]. etrans; [|apply union_subseteq_l]. apply union_subseteq_r. }
    assert (HDpost : declared_Block (scopes (m_info st)) (virtualBlocks (m_info st)) post_ ⊆ D).
    { etrans; [|exact HD]. apply union_subseteq_r. }
    match goal with
    | Hpre : walk_Block cfg pre st = Normal ?okPre ?st1,
      Hc : expectCondition cfg _ _ ?reopened = Normal ?okCondition ?st2,
      Hb : walk_Block cfg body ?entered = Normal ?okBody ?st3,
      Hp : walk_Block cfg post_ ?st3 = Normal ?okPost ?st4 |- _ =>
        pose proof (IHpre _ _ (m_currentScope st) D HDpre st) as H1; rewrite Hpre in H1;
        destruct (H1 eq_refl eq_refl eq_refl) as (HS1 & HV1 & Hc1 & Ha1);
        pose proof (addsOnly_expectCondition cfg (scopes (m_info st)) (virtualBlocks (m_info st))
                      (m_currentScope reopened) D c (locationOf c) reopened) as H2;
        rewrite Hc in H2; destruct (H2 HS1 HV1 eq_refl) as (HS2 & HV2 & Hc2 & Ha2);
        pose proof (IHbody _ _ (m_currentScope reopened) D HDbody entered) as H3;
        rewrite Hb in H3; destruct (H3 HS2 HV2 Hc2) as (HS3 & HV3 & Hc3 & Ha3);
        pose proof (IHpost _ _ (m_currentScope reopened) D HDpost st3) as H4;
        rewrite Hp in H4; destruct (H4 HS3 HV3 Hc3) as (HS4 & HV4 & Hc4 & Ha4)
    end.
    simpl in *. repeat split; try done.
    intros k Hk. apply Ha4 in Hk. revert Hk. rewrite !elem_of_union. intros [Hk|Hk]; [|by right].
    apply Ha3 in Hk. revert Hk. rewrite !elem_of_union. intros [Hk|Hk]; [|by right].
    apply Ha2 in Hk. revert Hk. rewrite !elem_of_union. intros [Hk|Hk]; [|by right].
    apply Ha1 in Hk. revert Hk. by rewrite !elem_of_union.
  - intros. apply post_visit_Marker; addsOnly_side.
  - intros. apply post_visit_Marker; addsOnly_side.
  - intros. apply post_visit_Marker; addsOnly_side.
  - done.
  - intros addr loc statements IH S V cur D HD st.
    destruct (visit_Block _ _ _ st) as [r st'| |] eqn:Hrun; [|done|done].
    intros HS HV Hcur. unfold visit_Block in Hrun.
    apply bind_Normal in Hrun as (previousScope & ? & Hprev & Hrun).
    apply gets_Normal in Hprev as [-> ->].
    apply bind_Normal in Hrun as (blockScope & ? & Hscope & Hrun).
    apply scope_Normal in Hscope as [Hscope ->].
    apply bind_Normal in Hrun as ([] & ? & Hset & Hrun). apply modify_Normal in Hset as ->.
    apply bind_Normal in Hrun as (h & ? & Hh & Hrun). apply gets_Normal in Hh as [-> ->].
    apply bind_Normal in Hrun as (success & st1 & Hloop & Hrun).
    assert (Hstatements : post (addsOnly S V (Some blockScope) D) anyState
              (forEach (λ s success, ok ← walk_Statement cfg s; mret (success && ok))
                 statements true)).
    { apply post_forEach; try addsOnly_side.
      apply Forall_forall. intros s Hs acc. rewrite Forall_forall in IH.
      apply post_bind; try addsOnly_side; [|intros; apply post_ret; addsOnly_side].
      apply IH; [done|]. etrans; [|exact HD]. rewrite <- HS, Hscope.
      by apply (subseteq_union_list_fmap (declared_Statement _ V (Some blockScope))). }
    specialize (Hstatements (set_currentScope (Some blockScope) st)).
    rewrite Hloop in Hstatements.
    destruct (Hstatements HS HV eq_refl) as (HS1 & HV1 & Hc1 & Ha1).
    run_inv; simpl in *; repeat split; done.
  - intros loc value body IH S V cur D acc HD. apply post_visit_Case; try addsOnly_side.
    by apply IH.
Qed.

Lemma addsOnly_walk_Statement cfg s st r st' :
  walk_Statement cfg s st = Normal r st' →
  scopes (m_info st') = scopes (m_info st) ∧
  virtualBlocks (m_info st') = virtualBlocks (m_info st) ∧
  m_currentScope st' = m_currentScope st ∧
  m_activeVariables st' ⊆
    m_activeVariables st ∪
    declared_Statement (scopes (m_info st)) (virtualBlocks (m_info st)) (m_currentScope st) s.
Proof.
  intros Hrun.
  pose proof (proj1 (addsOnly_walk cfg) s (scopes (m_info st)) (virtualBlocks (m_info st))
                (m_currentScope st) _ (reflexivity _) st) as H.
  rewrite Hrun in H. by apply H.
Qed.

Lemma addsOnly_walk_Block cfg b st r st' :
  walk_Block cfg b st = Normal r st' →
  scopes (m_info st') = scopes (m_info st) ∧
  virtualBlocks (m_info st') = virtualBlocks (m_info st) ∧
  m_currentScope st' = m_currentScope st ∧
  m_activeVariables st' ⊆
    m_activeVariables st ∪
    declared_Block (scopes (m_info st)) (virtualBlocks (m_info st)) b.
Proof.
  intros Hrun.
  pose proof (proj1 (proj2 (addsOnly_walk cfg)) b (scopes (m_info st))
                (virtualBlocks (m_info st)) (m_currentScope st) _ (reflexivity _) st) as H.
  rewrite Hrun in H. by apply H.
Qed.

Lemma addsOnly_walk_Statements cfg statements S V cur D :
  declared_Statements S V cur statements ⊆ D →
  post (addsOnly S V cur D) anyState (walk_Statements cfg statements).
Proof.
  intros HD. unfold walk_Statements. apply post_forEach; try addsOnly_side.
  apply Forall_forall. intros s Hs acc.
  apply post_bind; try addsOnly_side; [|intros; apply post_ret; addsOnly_side].
  apply (addsOnly_walk cfg). etrans; [|exact HD].
  by apply (subseteq_union_list_fmap (declared_Statement S V cur)).
Qed.

Lemma walk_Statements_adds cfg statements st r st' :
  walk_Statements cfg statements st = Normal r st' →
  scopes (m_info st') = scopes (m_info st) ∧
  virtualBlocks (m_info st') = virtualBlocks (m_info st) ∧
  m_currentScope st' = m_currentScope st ∧
  m_activeVariables st' ⊆
    m_activeVariables st ∪
    declared_Statements (scopes (m_info st)) (virtualBlocks (m_info st)) (m_currentScope st)
      statements.
Proof.
  intros Hrun.
  pose proof (addsOnly_walk_Statements cfg statements (scopes (m_info st))
                (virtualBlocks (m_info st)) (m_currentScope st) _ (reflexivity _) st) as H.
  rewrite Hrun in H. by apply H.
Qed.

Lemma grows_active cfg b st r st' :
  walk_Block cfg b st = Normal r st' → m_activeVariables st ⊆ m_activeVariables st'.
Proof.
  intros Hrun. pose proof (grows_walk_Block cfg b st) as H. rewrite Hrun in H.
  by destruct H as (_ & _ & H & _).
Qed.

(** The value of a case is checked without a change to the tables, to the
    current scope or to the active set, and never raises the flag; then the
    body is walked. *)
Lemma visit_Case_body cfg loc value walkBody s seen st s' seen' st' :
  visit_Case cfg loc value walkBody (s, seen) st = Normal (s', seen') st' →
  ∃ s1 okBody st1,
    walkBody st1 = Normal okBody st' ∧ s' = s1 && okBody ∧ (s1 = true → s = true) ∧
    scopes (m_info st1) = scopes (m_info st) ∧
    virtualBlocks (m_info st1) = virtualBlocks (m_info st) ∧
    m_currentScope st1 = m_currentScope st ∧
    m_activeVariables st1 = m_activeVariables st.
Proof.
  intros H. unfold visit_Case in H.
  apply bind_Normal in H as ([s1 seen1] & st1 & Hvalue & H).
  apply bind_Normal in H as (okBody & st2 & Hbody & H).
  apply ret_Normal in H as [Heq ->]. injection Heq as Hs Hseen. subst s' seen'.
  exists s1, okBody, st1. split; [done|]. split; [done|].
  assert (Hrun : visit_Case cfg loc value (mret true) (s, seen) st
                 = Normal (s1 && true, seen1) st1).
  { unfold visit_Case. by rewrite (bind_run _ _ _ _ _ Hvalue). }
  assert (Hquiet : addsOnly (scopes (m_info st)) (virtualBlocks (m_info st)) (m_currentScope st)
                     ∅ st st1).
  { eapply (post_run _ anyState); [|exact Hrun].
    apply post_visit_Case; try addsOnly_side. apply post_ret. addsOnly_side. }
  assert (Hsame : sameFrame st st1).
  { eapply (post_run _ anyState); [|exact Hrun].
    apply post_visit_Case; try (intros; by repeat split); try apply sameFrame_trans. }
  destruct (Hquiet eq_refl eq_refl eq_refl) as (? & ? & ? & _).
  destruct Hsame as (_ & _ & Ha).
  split; [|by repeat split]. intros ->.
  destruct value as [l|]; [|by run_inv].
  apply bind_Normal in Hvalue as (h & ? & Hh & Hvalue). apply gets_Normal in Hh as [-> ->].
  apply bind_Normal in Hvalue as (ok & st4 & Hlit & Hvalue).
  unfold declarationError in Hvalue. run_inv'; by simplify_eq.
Qed.

(** The loop of the block handler, when it ends with its flag raised, has
    walked statements that were all accepted. *)
Lemma marks_statements cfg statements :
  Forall (λ s, ∀ st st', walk_Statement cfg s st = Normal true st' →
                 declared_Statement (scopes (m_info st)) (virtualBlocks (m_info st))
                   (m_currentScope st) s ⊆ m_activeVariables st') statements →
  ∀ b0 st st',
    forEach (λ s success, ok ← walk_Statement cfg s; mret (success && ok)) statements b0 st
      = Normal true st' →
    declared_Statements (scopes (m_info st)) (virtualBlocks (m_info st)) (m_currentScope st)
      statements ⊆ m_activeVariables st'.
Proof.
  induction 1 as [|s r Hs _ IH]; intros b0 st st' Hrun; simpl in Hrun.
  - apply empty_subseteq.
  - apply bind_Normal in Hrun as (b1 & st1 & Hstep & Hrun).
    apply bind_Normal in Hstep as (ok & st2 & Hwalk & Hstep).
    apply ret_Normal in Hstep as [Hb Hst]. subst st1.
    assert (b1 = true) as ->.
    { eapply (forEach_flag _ r); [|exact Hrun].
      intros x s0 sa s1 sb Hx ->. apply bind_Normal in Hx as (ok' & ? & _ & Hx).
      apply ret_Normal in Hx as [Hx _]. symmetry in Hx.
      by apply andb_true_iff in Hx as [? _]. }
    symmetry in Hb. apply andb_true_iff in Hb as [-> ->].
    apply addsOnly_walk_Statement in Hwalk as Hframe. destruct Hframe as (HS & HV & Hc & _).
    apply Hs in Hwalk. apply IH in Hrun as Hrest. rewrite HS, HV, Hc in Hrest.
    assert (Hgrow : m_activeVariables st2 ⊆ m_activeVariables st').
    { pose proof (post_forEach grows grows grows_refl grows_trans grows_trans
                    (λ s success, ok ← walk_Statement cfg s; mret (success && ok)) r) as Hp.
      assert (Hall : Forall (λ x, ∀ s0, post grows grows
                        ((λ s success, ok ← walk_Statement cfg s; mret (success && ok)) x s0)) r).
      { apply Forall_forall. intros x _ s0.
        apply post_bind; [apply grows_trans | apply grows_trans | apply grows_walk_Statement|].
        intros ok st0. apply grows_refl. }
      specialize (Hp Hall true st2). rewrite Hrun in Hp. by destruct Hp as (_ & _ & Hp & _). }
    unfold declared_Statements. simpl. apply union_least; [by etrans | done].
Qed.

(** The tables a step returns with, when it maintains [addsOnly]. *)
Lemma addsOnly_tables {A} (m : M A) st a st' :
  (∀ S V cur, post (addsOnly S V cur ∅) anyState m) →
  m st = Normal a st' →
  scopes (m_info st') = scopes (m_info st) ∧
  virtualBlocks (m_info st') = virtualBlocks (m_info st).
Proof.
  intros Hp Hrun.
  specialize (Hp (scopes (m_info st)) (virtualBlocks (m_info st)) (m_currentScope st) st).
  rewrite Hrun in Hp. by destruct (Hp eq_refl eq_refl eq_refl) as (? & ? & _).
Qed.

Lemma marks_cases cfg cases :
  Forall (λ c, ∀ s seen st seen' st',
            walk_Case cfg c (s, seen) st = Normal (true, seen') st' →
            declared_Case (scopes (m_info st)) (virtualBlocks (m_info st)) c
              ⊆ m_activeVariables st') cases →
  ∀ s seen st seen' st',
    forEach (walk_Case cfg) cases (s, seen) st = Normal (true, seen') st' →
    s = true ∧ m_activeVariables st ⊆ m_activeVariables st' ∧
    ⋃ (declared_Case (scopes (m_info st)) (virtualBlocks (m_info st)) <$> cases)
      ⊆ m_activeVariables st'.
Proof.
  induction 1 as [|c r Hc _ IH]; intros s seen st seen' st' Hrun; simpl in Hrun.
  - apply ret_Normal in Hrun as [Heq ->]. injection Heq as -> _.
    split; [done|]. split; [done|]. apply empty_subseteq.
  - apply bind_Normal in Hrun as ([s1 seen1] & st1 & Hstep & Hrun).
    apply IH in Hrun as (-> & Hgrow & Hrest).
    assert (s = true ∧ m_activeVariables st ⊆ m_activeVariables st1 ∧
            scopes (m_info st1) = scopes (m_info st) ∧
            virtualBlocks (m_info st1) = virtualBlocks (m_info st)) as (-> & Hg1 & HS & HV).
    { destruct c as [loc value body]. pose proof Hstep as Hstep'. simpl in Hstep'.
      apply visit_Case_body in Hstep' as (s0 & ok & st0 & Hbody & Hs & Hflag & HS0 & HV0 & _ & Ha).
      symmetry in Hs. apply andb_true_iff in Hs as [-> ->].
      apply grows_active in Hbody as Hg. rewrite Ha in Hg.
      apply addsOnly_walk_Block in Hbody as (HS1 & HV1 & _).
      split; [by apply Hflag|]. split; [done|]. split; congruence. }
    apply Hc in Hstep. rewrite HS, HV in Hrest.
    split; [done|]. split; [by etrans|].
    simpl. apply union_least; [by etrans | done].
Qed.

(** A conjunction of verdicts that is true. *)
Ltac all_accepted :=
  repeat match goal with
    | H : true = _ && _ |- _ => symmetry in H
    | H : _ && _ = true |- _ => apply andb_true_iff in H as [? ?]
    end; subst.

(** An accepted walk has marked every variable declared within. *)
Lemma marks_walk cfg :
  (∀ s st st', walk_Statement cfg s st = Normal true st' →
     declared_Statement (scopes (m_info st)) (virtualBlocks (m_info st)) (m_currentScope st) s
       ⊆ m_activeVariables st') ∧
  (∀ b st st', walk_Block cfg b st = Normal true st' →
     declared_Block (scopes (m_info st)) (virtualBlocks (m_info st)) b ⊆ m_activeVariables st') ∧
  (∀ c s seen st seen' st', walk_Case cfg c (s, seen) st = Normal (true, seen') st' →
     declared_Case (scopes (m_info st)) (virtualBlocks (m_info st)) c ⊆ m_activeVariables st').
Proof.
  apply (Walk_nested_ind
           (λ s, ∀ st st', walk_Statement cfg s st = Normal true st' →
              declared_Statement (scopes (m_info st)) (virtualBlocks (m_info st))
                (m_currentScope st) s ⊆ m_activeVariables st')
           (λ b, ∀ st st', walk_Block cfg b st = Normal true st' →
              declared_Block (scopes (m_info st)) (virtualBlocks (m_info st)) b
                ⊆ m_activeVariables st')
           (λ c, ∀ s seen st seen' st',
              walk_Case cfg c (s, seen) st = Normal (true, seen') st' →
              declared_Case (scopes (m_info st)) (virtualBlocks (m_info st)) c
                ⊆ m_activeVariables st')); simpl.
  - intros. apply empty_subseteq.
  - intros. apply empty_subseteq.
  - intros addr loc vars value st st' Hrun.
    apply (visit_VariableDeclaration_adds cfg addr loc vars value) in Hrun as (_ & _ & Ha).
    rewrite (Ha eq_refl). apply union_subseteq_r.
  - intros addr loc name ps rs body IH st st' Hrun.
    unfold visit_FunctionDefinition in Hrun.
    apply bind_Normal in Hrun as (? & ? & Hassert & Hrun).
    apply yulAssert_Normal in Hassert as [_ ->].
    apply bind_Normal in Hrun as (vb & ? & Hvb & Hrun).
    destruct (virtualBlocks (m_info st) !! addr) as [[vb'|]|] eqn:Hlook; try done.
    injection Hvb as -> <-.
    apply bind_Normal in Hrun as (varScope & ? & Hscope & Hrun).
    apply scope_Normal in Hscope as [Hscope ->]. rewrite Hscope.
    apply bind_Normal in Hrun as ([] & st1 & Hparams & Hrun).
    apply activateParameters in Hparams as ((_ & _ & Hi1 & _) & _ & Hmarked).
    run_inv. simpl.
    match goal with
    | Hb : walk_Block cfg body ?entered = Normal _ ?st2 |- _ =>
        apply grows_active in Hb as Hgrow; apply IH in Hb; simpl in Hb, Hgrow;
        rewrite Hi1 in Hb
    end.
    apply union_least; [|done].
    intros k Hk. apply markedBy_elem in Hk as (v & Hv & ->). by apply Hgrow, Hmarked.
  - intros addr loc c body IH st st' Hrun. unfold visit_If in Hrun. run_inv. all_accepted.
    simpl.
    match goal with
    | Hc : expectCondition cfg _ _ st = Normal _ ?st1,
      Hb : walk_Block cfg body _ = Normal true _ |- _ =>
        pose proof (addsOnly_expectCondition cfg (scopes (m_info st))
                      (virtualBlocks (m_info st)) (m_currentScope st) ∅ c (locationOf c) st) as Hq;
        rewrite Hc in Hq; destruct (Hq eq_refl eq_refl eq_refl) as (HS & HV & _);
        apply IH in Hb; simpl in Hb; by rewrite HS, HV in Hb
    end.
  - intros addr loc e cases IH st st' Hrun. unfold visit_Switch in Hrun.
    apply bind_Normal in Hrun as (h & ? & Hh & Hrun). apply gets_Normal in Hh as [-> ->].
    apply bind_Normal in Hrun as (ok & st1 & Hexpr & Hrun).
    apply bind_Normal in Hrun as (valueType & st2 & Hty & Hrun).
    apply bind_Normal in Hrun as (ok' & st3 & Htypes & Hrun).
    apply bind_Normal in Hrun as ([ok'' seen] & st4 & Hcases & Hrun).
    apply addsOnly_tables in Hexpr as [HS1 HV1];
      [|intros S V cur; apply post_expectExpression; try addsOnly_side;
        apply addsOnly_walk_Expression].
    apply addsOnly_tables in Hty as [HS2 HV2];
      [|intros S V cur; destruct ok; [apply post_typeOfCurrentExpression_at0 | apply post_ret];
        addsOnly_side].
    apply addsOnly_tables in Htypes as [HS3 HV3].
    2:{ intros S V cur. apply post_forEach; try addsOnly_side.
        apply Forall_forall. intros c _ s.
        destruct (case_value c); [|apply post_ret; addsOnly_side].
        apply post_bind; try addsOnly_side; [apply post_expectType; addsOnly_side|].
        intros. apply post_ret. addsOnly_side. }
    assert (HS : scopes (m_info st3) = scopes (m_info st)) by congruence.
    assert (HV : virtualBlocks (m_info st3) = virtualBlocks (m_info st)) by congruence.
    run_inv. simpl.
    apply (marks_cases cfg cases IH) in Hcases as (_ & _ & Hcases).
    by rewrite HS, HV in Hcases.
  - intros addr loc pre c post_ body IHpre IHpost IHbody st st' Hrun.
    unfold visit_ForLoop in Hrun. run_inv. all_accepted. simpl in *. simplify_eq.
    match goal with
    | Hpre : walk_Block cfg pre st = Normal true ?st1,
      Hc : expectCondition cfg _ _ ?reopened = Normal true ?st2,
      Hb : walk_Block cfg body ?entered = Normal true ?st3,
      Hp : walk_Block cfg post_ ?st3 = Normal true ?st4 |- _ =>
        apply addsOnly_walk_Block in Hpre as Hf1; destruct Hf1 as (HS1 & HV1 & _);
        pose proof (addsOnly_expectCondition cfg (scopes (m_info st)) (virtualBlocks (m_info st))
                      (m_currentScope reopened) ∅ c (locationOf c) reopened) as H2;
        rewrite Hc in H2; destruct (H2 HS1 HV1 eq_refl) as (HS2 & HV2 & _);
        apply addsOnly_walk_Block in Hb as Hf3; destruct Hf3 as (HS3 & HV3 & _);
        apply grows_active in Hb as Hg3; apply grows_active in Hp as Hg4;
        pose proof (sameFrame_expectCondition cfg c (locationOf c) reopened) as Hg2;
        rewrite Hc in Hg2; destruct Hg2 as (_ & _ & Hg2);
        pose proof (IHpre _ _ Hpre) as Lpre; pose proof (IHbody _ _ Hb) as Lbody;
        pose proof (IHpost _ _ Hp) as Lpost
    end.
    simpl in *. rewrite HS3, HV3, HS2, HV2 in Lpost. rewrite HS2, HV2 in Lbody.
    repeat apply union_least; [|by etrans|done].
    etrans; [exact Lpre|]. rewrite <- Hg2. by etrans.
  - intros. apply empty_subseteq.
  - intros. apply empty_subseteq.
  - intros. apply empty_subseteq.
  - done.
  - intros addr loc statements IH st st' Hrun. unfold visit_Block in Hrun.
    apply bind_Normal in Hrun as (previousScope & ? & Hprev & Hrun).
    apply gets_Normal in Hprev as [-> ->].
    apply bind_Normal in Hrun as (blockScope & ? & Hscope & Hrun).
    apply scope_Normal in Hscope as [Hscope ->].
    apply bind_Normal in Hrun as ([] & ? & Hset & Hrun). apply modify_Normal in Hset as ->.
    apply bind_Normal in Hrun as (h & ? & Hh & Hrun). apply gets_Normal in Hh as [-> ->].
    apply bind_Normal in Hrun as (success & st1 & Hloop & Hrun).
    assert (success = true) as ->.
    { destruct success; [done|]. unfold declarationError in Hrun. by run_inv. }
    apply (marks_statements cfg statements IH) in Hloop. simpl in Hloop. rewrite Hscope.
    unfold declarationError in Hrun. run_inv; simpl in *; done.
  - intros loc value body IH s seen st seen' st' Hrun.
    apply visit_Case_body in Hrun as (s1 & okBody & st1 & Hbody & Hs & _ & HS & HV & _).
    all_accepted. apply IH in Hbody. by rewrite HS, HV in Hbody.
Qed.

(** The loop over the statements of a block reaches each statement from the
    state the statements before it have left. *)
Lemma walk_Statements_prefix cfg statements : ∀ b0 st r st',
  forEach (λ s success, ok ← walk_Statement cfg s; mret (success && ok)) statements b0 st
    = Normal r st' →
  ∀ k s, statements !! k = Some s →
    ∃ rk stk ok st1,
      forEach (λ s success, ok ← walk_Statement cfg s; mret (success && ok))
        (take k statements) b0 st = Normal rk stk ∧
      walk_Statement cfg s stk = Normal ok st1.
Proof.
  induction statements as [|x l IH]; intros b0 st r st' Hrun k s Hk; [done|].
  simpl in Hrun. apply bind_Normal in Hrun as (b1 & st1 & Hstep & Hrun).
  destruct k as [|k]; simpl in Hk.
  - injection Hk as ->. apply bind_Normal in Hstep as (ok & st2 & Hwalk & _).
    by exists b0, st, ok, st2.
  - destruct (IH _ _ _ _ Hrun k s Hk) as (rk & stk & ok & st2 & Hprefix & Hwalk).
    exists rk, stk, ok, st2. split; [|done]. simpl. by rewrite (bind_run _ _ _ _ _ Hstep).
Qed.

Lemma walk_Statements_marks cfg statements st st' :
  walk_Statements cfg statements st = Normal true st' →
  declared_Statements (scopes (m_info st)) (virtualBlocks (m_info st)) (m_currentScope st)
    statements ⊆ m_activeVariables st'.
Proof.
  apply marks_statements, Forall_forall. intros s _. apply (marks_walk cfg).
Qed.

Lemma walk_Statements_grows cfg statements st r st' :
  walk_Statements cfg statements st = Normal r st' →
  m_activeVariables st ⊆ m_activeVariables st'.
Proof.
  intros Hrun. pose proof (grows_walk_Statements cfg statements st) as H. rewrite Hrun in H.
  by destruct H as (_ & _ & H & _).
Qed.

(** The block handler walks the statements from the state it was entered
    with, the scope of the block made current, and returns with the active
    set they leave. *)
Lemma visit_Block_statements cfg addr loc statements st r st' :
  walk_Block cfg (MkBlock addr loc statements) st = Normal r st' →
  ∃ blockScope rs sts,
    scopes (m_info st) !! addr = Some blockScope ∧
    walk_Statements cfg statements (set_currentScope (Some blockScope) st) = Normal rs sts ∧
    (r = true → rs = true) ∧
    m_activeVariables st' = m_activeVariables sts.
Proof.
  simpl. unfold visit_Block. intros Hrun.
  apply bind_Normal in Hrun as (previousScope & ? & Hprev & Hrun).
  apply gets_Normal in Hprev as [-> ->].
  apply bind_Normal in Hrun as (blockScope & ? & Hscope & Hrun).
  apply scope_Normal in Hscope as [Hscope ->].
  apply bind_Normal in Hrun as ([] & ? & Hset & Hrun). apply modify_Normal in Hset as ->.
  apply bind_Normal in Hrun as (h & ? & Hh & Hrun). apply gets_Normal in Hh as [-> ->].
  apply bind_Normal in Hrun as (success & st1 & Hloop & Hrun).
  exists blockScope, success, st1. split; [done|]. split; [done|].
  unfold declarationError in Hrun. run_inv; simplify_eq; by split.
Qed.

(** C4, amended.  The active-variable set is never pruned, and it is
    extended only by the marking loops of the declaration handler and of the
    function-definition handler.  For a statement or a block whose walk
    returns, the set afterwards holds the variables that were active before
    and, besides them, only variables declared within: those of the
    declarations, in the scope of the block that holds them, and the
    parameters and return variables of the function definitions, in the
    scope of their virtual block.  It is exactly the union of the two when
    the walk is accepted, so that at the exit of a block the variables of
    the block and of the blocks nested in it are still active.  Inside a
    block the statements are walked from the state the block was entered
    with, its scope made current, and the block is accepted only if they
    are: when a statement is reached, the set holds the variables active at
    the entry of the block and, besides them, only variables declared by the
    statements before it, all of those when these statements were accepted.
    A variable declaration that is accepted has marked every variable it
    declares, in the scope that is current. *)
Theorem active_variables_follow_declarations cfg :
  (∀ s st r st', walk_Statement cfg s st = Normal r st' →
     m_activeVariables st ⊆ m_activeVariables st' ∧
     m_activeVariables st' ⊆
       m_activeVariables st ∪
       declared_Statement (scopes (m_info st)) (virtualBlocks (m_info st))
         (m_currentScope st) s ∧
     (r = true →
      m_activeVariables st' =
        m_activeVariables st ∪
        declared_Statement (scopes (m_info st)) (virtualBlocks (m_info st))
          (m_currentScope st) s)) ∧
  (∀ b st r st', walk_Block cfg b st = Normal r st' →
     m_activeVariables st ⊆ m_activeVariables st' ∧
     m_activeVariables st' ⊆
       m_activeVariables st ∪
       declared_Block (scopes (m_info st)) (virtualBlocks (m_info st)) b ∧
     (r = true →
      m_activeVariables st' =
        m_activeVariables st ∪
        declared_Block (scopes (m_info st)) (virtualBlocks (m_info st)) b)) ∧
  (∀ addr loc statements st r st',
     walk_Block cfg (MkBlock addr loc statements) st = Normal r st' →
     ∃ blockScope rs sts,
       scopes (m_info st) !! addr = Some blockScope ∧
       walk_Statements cfg statements (set_currentScope (Some blockScope) st)
         = Normal rs sts ∧
       (r = true → rs = true) ∧
       m_activeVariables st' = m_activeVariables sts ∧
       ∀ k s, statements !! k = Some s →
         ∃ rk stk ok st1,
           walk_Statements cfg (take k statements) (set_currentScope (Some blockScope) st)
             = Normal rk stk ∧
           walk_Statement cfg s stk = Normal ok st1 ∧
           m_currentScope stk = Some blockScope ∧
           m_activeVariables stk ⊆
             m_activeVariables st ∪
             declared_Statements (scopes (m_info st)) (virtualBlocks (m_info st))
               (Some blockScope) (take k statements) ∧
           (rk = true →
            m_activeVariables stk =
              m_activeVariables st ∪
              declared_Statements (scopes (m_info st)) (virtualBlocks (m_info st))
                (Some blockScope) (take k statements))) ∧
  (∀ addr loc variables value st sc st',
     m_currentScope st = Some sc →
     walk_Statement cfg (SVariableDeclaration addr loc variables value) st = Normal true st' →
     ∀ v, v ∈ variables → (scope_addr sc, tn_name v) ∈ m_activeVariables st').
Proof.
  split; [|split; [|split]].
  - intros s st r st' Hrun.
    pose proof (grows_walk_Statement cfg s st) as Hg. rewrite Hrun in Hg.
    destruct Hg as (_ & _ & Hg & _).
    apply addsOnly_walk_Statement in Hrun as Hadds. destruct Hadds as (_ & _ & _ & Ha).
    split; [done|]. split; [done|]. intros ->.
    apply (marks_walk cfg) in Hrun. apply (anti_symm (⊆)); [done|]. by apply union_least.
  - intros b st r st' Hrun.
    apply grows_active in Hrun as Hg.
    apply addsOnly_walk_Block in Hrun as Hadds. destruct Hadds as (_ & _ & _ & Ha).
    split; [done|]. split; [done|]. intros ->.
    apply (marks_walk cfg) in Hrun. apply (anti_symm (⊆)); [done|]. by apply union_least.
  - intros addr loc statements st r st' Hrun.
    apply visit_Block_statements in Hrun
      as (blockScope & rs & sts & Hscope & Hloop & Hverdict & Hexit).
    exists blockScope, rs, sts. split; [done|]. split; [done|]. split; [done|]. split; [done|].
    intros k s Hk.
    destruct (walk_Statements_prefix cfg statements _ _ _ _ Hloop k s Hk)
      as (rk & stk & ok & st1 & Hprefix & Hwalk).
    exists rk, stk, ok, st1. split; [done|]. split; [done|].
    apply walk_Statements_adds in Hprefix as Hadds. destruct Hadds as (_ & _ & Hc & Ha).
    split; [done|]. split; [done|]. intros ->.
    apply walk_Statements_grows in Hprefix as Hg.
    apply walk_Statements_marks in Hprefix. apply (anti_symm (⊆)); [done|]. by apply union_least.
  - intros addr loc variables value st sc st' Hsc Hrun v Hv.
    apply (visit_VariableDeclaration_adds cfg addr loc variables value) in Hrun as (_ & _ & Ha).
    rewrite (Ha eq_refl), Hsc. apply elem_of_union_r, markedBy_elem. by exists v.
Qed.

Lemma active_variables_follow_declarations_witness :
  let st := Examples.fresh Examples.nestedInfo in
  ∃ st' stk,
    walk_Block Examples.cfg Examples.nested st = Normal true st' ∧
    walk_Statements Examples.cfg (take 2 (block_statements Examples.nested))
      (set_currentScope (Some Examples.nestedScope) st) = Normal true stk ∧
    m_activeVariables stk = {[ (100%N, "a") ]} ∪ {[ (101%N, "x") ]} ∧
    m_activeVariables st' = {[ (100%N, "a") ]} ∪ {[ (101%N, "x") ]} ∪ {[ (100%N, "b") ]}.
Proof.
  intros st.
  assert (∃ st', walk_Block Examples.cfg Examples.nested st = Normal true st')
    as [st' Hrun] by (eexists; vm_compute; reflexivity).
  assert (∃ stk, walk_Statements Examples.cfg (take 2 (block_statements Examples.nested))
                   (set_currentScope (Some Examples.nestedScope) st) = Normal true stk)
    as [stk Hprefix] by (eexists; vm_compute; reflexivity).
  exists st', stk. split; [exact Hrun|]. split; [exact Hprefix|].
  destruct (active_variables_follow_declarations Examples.cfg) as (_ & Hblock & Hinside & _).
  destruct (Hblock _ _ _ _ Hrun) as (_ & _ & Hexit).
  destruct (Hinside _ _ _ _ _ _ Hrun) as (blockScope & rs & sts & Hscope & _ & _ & _ & Hat).
  assert (Hnested : scopes (m_info st) !! 1%N = Some Examples.nestedScope) by reflexivity.
  rewrite Hnested in Hscope. injection Hscope as <-.
  destruct (Hat 2%nat _ eq_refl) as (rk & stk' & ok & st1 & Hprefix' & _ & _ & _ & Hentry).
  pose proof (eq_trans (eq_sym Hprefix) Hprefix') as Heq. injection Heq as <- <-.
  rewrite (Hentry eq_refl), (Hexit eq_refl). split; vm_compute; reflexivity.
Defined.

(** ** Blocks *)

Lemma walk_Block_unfold cfg addr loc statements :
  walk_Block cfg (MkBlock addr loc statements) =
    visit_Block addr loc (walk_Statements cfg statements).
Proof. reflexivity. Qed.

(** C5 does not hold as stated: in [{ 1 }] the statement fails (a top-level
    expression that returns a value), the block ends one item above the
    height it was entered with, and the only diagnostic is the one of the
    statement; no unbalanced-stack error is recorded. *)
Lemma unbalanced_block_without_unbalanced_error :
  let st0 := Examples.fresh Examples.emptyInfo in
  let run := walk_Block Examples.cfg Examples.literalStatement st0 in
  m_stackHeight st0 = 0 ∧
  m_stackHeight <$> Examples.finalState run = Some 1 ∧
  Examples.result run = Some false ∧
  Examples.reported run =
    Some [ {| err_type := TypeError; err_location := 2; err_message := topLevelMessage 1 |} ].
Proof. by vm_compute. Qed.

(** C5, amended.  After walking its statements the block handler subtracts
    the number of variables of the block's scope from the stack height and
    compares the result with the height at entry: a block that is accepted
    leaves at the height it was entered with, and a block that leaves at
    another height is rejected.  The unbalanced-stack declaration error is
    recorded, at the block, when the heights differ and every statement of
    the block succeeded; when a statement failed the handler returns false
    with no further diagnostic. *)
Theorem block_stack_balance cfg addr loc statements st blockScope success st1 :
  scopes (m_info st) !! addr = Some blockScope →
  walk_Statements cfg statements (set_currentScope (Some blockScope) st) = Normal success st1 →
  let h := m_stackHeight st1 - Z.of_nat (numberOfVariables blockScope) in
  let stackDiff := h - m_stackHeight st in
  let leave := λ s, set_currentScope (m_currentScope st) (recordStackHeight addr s) in
  let run := walk_Block cfg (MkBlock addr loc statements) st in
  run =
    (if success && bool_decide (stackDiff ≠ 0) then
       let st2 := add_error {| err_type := DeclarationError; err_location := loc;
                               err_message := unbalancedMessage stackDiff |}
                            (set_stackHeight h st1) in
       if overCapacity (m_errorReporter st2) then FatalError st2
       else Normal false (leave st2)
     else Normal success (leave (set_stackHeight h st1))) ∧
  (∀ st', run = Normal true st' → m_stackHeight st' = m_stackHeight st) ∧
  (∀ b st', run = Normal b st' → m_stackHeight st' ≠ m_stackHeight st → b = false).
Proof.
  intros Hscope Hwalk h stackDiff leave run.
  assert (Hscope1 : scopes (m_info st1) !! addr = Some blockScope).
  { pose proof (grows_walk_Statements cfg statements (set_currentScope (Some blockScope) st)) as Hg.
    rewrite Hwalk in Hg. destruct Hg as (_ & _ & _ & Hs & _). rewrite Hs. done. }
  assert (Hrun : run =
    (if success && bool_decide (stackDiff ≠ 0) then
       let st2 := add_error {| err_type := DeclarationError; err_location := loc;
                               err_message := unbalancedMessage stackDiff |}
                            (set_stackHeight h st1) in
       if overCapacity (m_errorReporter st2) then FatalError st2
       else Normal false (leave st2)
     else Normal success (leave (set_stackHeight h st1)))).
  { unfold run. rewrite walk_Block_unfold. unfold visit_Block.
    unfold mbind at 1, M_bind at 1. simpl.
    unfold mbind at 1, M_bind at 1. unfold scope at 1. rewrite Hscope.
    unfold mbind at 1, M_bind at 1. simpl.
    unfold mbind at 1, M_bind at 1. simpl.
    rewrite (bind_run _ _ _ _ _ Hwalk).
    unfold mbind at 1, M_bind at 1. unfold scope at 1. rewrite Hscope1.
    unfold mbind at 1, M_bind at 1. simpl.
    unfold mbind at 1, M_bind at 1. simpl.
    change (m_stackHeight st1 + - Z.of_nat (numberOfVariables blockScope)) with h.
    fold stackDiff.
    destruct (success && bool_decide (stackDiff ≠ 0)); [|done].
    unfold mbind, M_bind, declarationError. rewrite error_run. simpl.
    by destruct (overCapacity _). }
  split; [exact Hrun|]. rewrite Hrun. clear Hrun.
  destruct success; simpl; [case_bool_decide as Hd; simpl|].
  - split; intros; by destruct (overCapacity _); simplify_eq/=.
  - split; [intros st' [= <-]|intros b st' [= <- <-]]; simpl; unfold stackDiff in Hd; lia.
  - split; [done | by intros b st' [= <- <-]].
Qed.

Lemma block_stack_balance_witness :
  ∃ st', walk_Block Examples.cfg Examples.program1
           (Examples.fresh (Examples.infoOf [(1%N, Examples.scope1)])) = Normal true st' ∧
         m_stackHeight st' = 0.
Proof.
  pose proof (block_stack_balance Examples.cfg 1 1 (block_statements Examples.program1)
                (Examples.fresh (Examples.infoOf [(1%N, Examples.scope1)]))
                Examples.scope1 true) as H.
  edestruct H as (_ & Hneutral & _).
  - vm_compute. reflexivity.
  - vm_compute. reflexivity.
  - assert (∃ st', walk_Block Examples.cfg Examples.program1
                     (Examples.fresh (Examples.infoOf [(1%N, Examples.scope1)])) = Normal true st')
      as [st' Hrun] by (eexists; vm_compute; reflexivity).
    exists st'. split; [exact Hrun|]. exact (Hneutral st' Hrun).
Defined.

(** ** Switch statements *)

(** The verdict of the literal handler depends on the literal alone. *)
Lemma visit_Literal_returns_literalValid cfg l st ok st' :
  visit_Literal cfg l st = Normal ok st' → ok = literalValid l.
Proof.
  unfold visit_Literal, literalValid. intros H. run_inv; simpl; try done.
  all: destruct (bigint (lit_value l)) as [v|]; [|done].
  all: match goal with
       | Hret : _ = Normal _ _ |- _ = negb _ => apply ret_Normal in Hret as [Hb _]
       end.
  all: by rewrite <- Hb.
Qed.

Lemma grows_visit_Case cfg loc value walkBody acc :
  post grows grows walkBody → post grows grows (visit_Case cfg loc value walkBody acc).
Proof.
  intros. apply post_visit_Case; try done;
    try first [apply grows_refl | apply grows_trans];
    intros; first [apply grows_add_error | by apply grows_unchanged].
Qed.

Lemma grows_errors st st' e :
  grows st st' → e ∈ errors (m_errorReporter st) → e ∈ errors (m_errorReporter st').
Proof. intros ([k ->] & _). set_solver. Qed.

(** One round of the loop over the cases. *)
Lemma visit_Case_run cfg loc value walkBody s seen st s' seen' st' :
  post grows grows walkBody →
  visit_Case cfg loc value walkBody (s, seen) st = Normal (s', seen') st' →
  seen ⊆ seen' ∧ (s = false → s' = false) ∧ grows st st' ∧
  ∀ l, value = Some l → literalValid l = true →
    ∃ v, valueOfLiteral cfg l = Some v ∧ v ∈ seen' ∧
         (v ∈ seen → s' = false ∧ duplicateCase loc ∈ errors (m_errorReporter st')).
Proof.
  intros Hbody Hrun.
  pose proof (grows_visit_Case cfg loc value walkBody (s, seen) Hbody st) as Hgrows.
  rewrite Hrun in Hgrows.
  unfold visit_Case in Hrun. apply bind_Normal in Hrun as ([s1 seen1] & st1 & Hvalue & Hrun).
  apply bind_Normal in Hrun as (okBody & st2 & Hwalk & Hrun).
  apply ret_Normal in Hrun as [[= -> ->] ->].
  pose proof (Hbody st1) as Hg2. rewrite Hwalk in Hg2.
  destruct value as [l|];
    [|run_inv; split; [done|split; [by intros ->|split; [done|by intros ? [=]]]]].
  apply bind_Normal in Hvalue as (h & ? & Hh & Hvalue). apply gets_Normal in Hh as [-> ->].
  apply bind_Normal in Hvalue as (ok & st3 & Hlit & Hvalue).
  apply visit_Literal_returns_literalValid in Hlit as Hok.
  apply bind_Normal in Hvalue as (? & st4 & Hdeposit & Hvalue).
  apply bind_Normal in Hvalue as (? & st5 & Hpop & Hvalue).
  apply bind_Normal in Hvalue as (reported & ? & Hrep & Hvalue). apply gets_Normal in Hrep as [-> ->].
  apply bind_Normal in Hvalue as (? & ? & Hassert & Hvalue).
  apply yulAssert_Normal in Hassert as [_ ->].
  destruct ok.
  - destruct (valueOfLiteral cfg l) as [v|] eqn:Hv; [|done].
    case_bool_decide as Hin.
    + apply bind_Normal in Hvalue as (? & ? & Herr & Hvalue).
      apply error_Normal in Herr as ->. apply ret_Normal in Hvalue as [[= -> ->] ->].
      split; [done|]. split; [done|]. split; [done|].
      intros l' [= <-] _. exists v. split; [done|]. split; [done|].
      intros _. split; [done|]. eapply grows_errors; [exact Hg2|].
      simpl. unfold duplicateCase. set_solver.
    + apply ret_Normal in Hvalue as [[= -> ->] ->].
      split; [set_solver|]. split; [by intros ->|]. split; [done|].
      intros l' [= <-] _. exists v. split; [done|]. split; [set_solver|]. done.
  - apply ret_Normal in Hvalue as [[= -> ->] ->].
    split; [done|]. split; [done|]. split; [done|].
    intros l' [= <-]. congruence.
Qed.

(** The loop over the cases, started with the set [seen]. *)
Lemma walk_Cases_run cfg cases : ∀ s seen st s' seen' st',
  forEach (walk_Case cfg) cases (s, seen) st = Normal (s', seen') st' →
  seen ⊆ seen' ∧ (s = false → s' = false) ∧ grows st st' ∧
  (∀ c l, c ∈ cases → case_value c = Some l → literalValid l = true →
     ∃ v, valueOfLiteral cfg l = Some v ∧ v ∈ seen' ∧
          (v ∈ seen →
             s' = false ∧ duplicateCase (case_location c) ∈ errors (m_errorReporter st'))) ∧
  (∀ i j ci cj li lj v, (i < j)%nat →
     cases !! i = Some ci → cases !! j = Some cj →
     case_value ci = Some li → case_value cj = Some lj →
     literalValid li = true → literalValid lj = true →
     valueOfLiteral cfg li = Some v → valueOfLiteral cfg lj = Some v →
     s' = false ∧ duplicateCase (case_location cj) ∈ errors (m_errorReporter st')).
Proof.
  induction cases as [|c r IH]; intros s seen st s' seen' st' Hrun.
  - apply ret_Normal in Hrun as [[= -> ->] ->].
    split; [done|]. split; [done|]. split; [apply grows_refl|].
    split; [intros c l Hc; by apply elem_of_nil in Hc|].
    intros i j ci cj li lj v _ Hi. by rewrite lookup_nil in Hi.
  - simpl in Hrun. apply bind_Normal in Hrun as ([s1 seen1] & st1 & Hstep & Hrun).
    destruct c as [loc value body]. simpl in Hstep.
    apply visit_Case_run in Hstep as (Hsub1 & Hmono1 & Hg1 & Hvalue);
      [|apply grows_walk_Block].
    apply IH in Hrun as (Hsub2 & Hmono2 & Hg2 & Hin & Hdup).
    split; [by etrans|]. split; [auto|]. split; [by eapply grows_trans|].
    split.
    + intros c l Hc Hl Hvalid. apply elem_of_cons in Hc as [->|Hc].
      * destruct (Hvalue l Hl Hvalid) as (v & Hv & Hseen1 & Hdup1).
        exists v. split; [done|]. split; [by apply Hsub2|].
        intros Hseen. destruct (Hdup1 Hseen) as [-> Herr].
        split; [auto|]. by eapply grows_errors.
      * destruct (Hin c l Hc Hl Hvalid) as (v & Hv & Hseen' & Hdup2).
        exists v. split; [done|]. split; [done|]. intros Hseen. by apply Hdup2, Hsub1.
    + intros i j ci cj li lj v Hij Hi Hj Hli Hlj Hvi Hvj Hei Hej.
      destruct j as [|j]; [lia|]. simpl in Hj. destruct i as [|i].
      * simpl in Hi. injection Hi as <-. simpl in Hli.
        destruct (Hvalue li Hli Hvi) as (v0 & Hv0 & Hseen1 & _).
        assert (v0 = v) as -> by congruence.
        apply list_elem_of_lookup_2 in Hj.
        destruct (Hin cj lj Hj Hlj Hvj) as (v1 & Hv1 & _ & Hdup2).
        assert (v1 = v) as -> by congruence. by apply Hdup2.
      * simpl in Hi. eapply (Hdup i j); eauto. lia.
Qed.

(** C6.  The switch handler keeps a set of the case values seen so far,
    empty when its loop over the cases starts.  The value of every case
    literal that the literal handler accepts is in the set when the loop
    ends.  When two cases carry accepted literals of the same value, the
    declaration error "Duplicate case defined." is in the reporter at the
    location of the later case and the handler returns false.  The handler
    returns with the stack height it was entered with. *)
Theorem switch_rejects_duplicate_cases cfg addr loc expression cases st b st' :
  walk_Statement cfg (SSwitch addr loc expression cases) st = Normal b st' →
  ∃ success0 st0 seen st1,
    forEach (walk_Case cfg) cases (success0, ∅) st0 = Normal (b, seen) st1 ∧
    errors (m_errorReporter st') = errors (m_errorReporter st1) ∧
    (∀ c l, c ∈ cases → case_value c = Some l → literalValid l = true →
       ∃ v, valueOfLiteral cfg l = Some v ∧ v ∈ seen) ∧
    (∀ i j ci cj li lj v, (i < j)%nat →
       cases !! i = Some ci → cases !! j = Some cj →
       case_value ci = Some li → case_value cj = Some lj →
       literalValid li = true → literalValid lj = true →
       valueOfLiteral cfg li = Some v → valueOfLiteral cfg lj = Some v →
       b = false ∧ duplicateCase (case_location cj) ∈ errors (m_errorReporter st')) ∧
    m_stackHeight st' = m_stackHeight st.
Proof.
  simpl. unfold visit_Switch. intros H.
  apply bind_Normal in H as (h & ? & Hh & H). apply gets_Normal in Hh as [-> ->].
  apply bind_Normal in H as (success & st2 & _ & H).
  apply bind_Normal in H as (valueType & st3 & _ & H).
  apply bind_Normal in H as (success0 & st0 & _ & H).
  apply bind_Normal in H as ([success1 seen] & st1 & Hloop & H).
  run_inv.
  exists success0, st0, seen, st1. split; [done|]. split; [done|].
  apply walk_Cases_run in Hloop as (_ & _ & _ & Hin & Hdup).
  split; [|split; [|done]].
  - intros c l Hc Hl Hvalid. destruct (Hin c l Hc Hl Hvalid) as (v & ? & ? & _). eauto.
  - intros i j ci cj li lj v Hij Hi Hj Hli Hlj Hvi Hvj Hei Hej.
    by apply (Hdup i j ci cj li lj v).
Qed.

Lemma switch_rejects_duplicate_cases_witness :
  let st := set_currentScope (Some Examples.outerScope) (Examples.fresh Examples.switchInfo) in
  ∃ st', walk_Statement Examples.cfg Examples.duplicateSwitch st = Normal false st' ∧
         duplicateCase 7 ∈ errors (m_errorReporter st') ∧
         m_stackHeight st' = 0.
Proof.
  intros st.
  assert (∃ st', walk_Statement Examples.cfg Examples.duplicateSwitch st = Normal false st')
    as [st' Hrun] by (eexists; vm_compute; reflexivity).
  exists st'. split; [exact Hrun|].
  destruct (switch_rejects_duplicate_cases Examples.cfg 2 2 _ _ _ _ _ Hrun)
    as (_ & _ & _ & _ & _ & _ & _ & Hdup & Hheight).
  split; [|exact Hheight].
  refine (proj2 (Hdup 0%nat 1%nat _ _ _ _ 1%N _ eq_refl eq_refl eq_refl eq_refl
                   eq_refl eq_refl eq_refl eq_refl)).
  lia.
Defined.

(** ** For loops *)




(** ** Jump instructions *)



(** ** Expression statements *)

(** C9 does not hold as stated: the walk of the expression [y], with no
    variable [y] in scope, returns false; the expression statement [y]
    raises the stack height from 0 to 1, and the only diagnostic is the one
    of the identifier; the error that recommends [pop()] is not recorded. *)
Lemma failed_expression_skips_top_level_check :
  let run := walk_Statement Examples.cfg Examples.unknownIdentifier Examples.insideOuter in
  m_stackHeight Examples.insideOuter = 0 ∧
  m_stackHeight <$> Examples.finalState run = Some 1 ∧
  Examples.result run = Some false ∧
  Examples.reported run =
    Some [ {| err_type := DeclarationError; err_location := 3;
              err_message := "Identifier not found." |} ].
Proof. by vm_compute. Qed.

(** C9, amended.  The stack height is saved before the inner expression is
    walked, and the comparison of the heights is guarded by the verdict of
    that walk, not by what it reported.  When the walk of the inner
    expression returned true and left another height, the type error that
    recommends [pop()] or an assignment is recorded at the statement and the
    handler returns false (or the reporter aborts, the error recorded),
    whether or not the inner expression has reported an error of its own.
    When the walk returned true and left the height it started with, the
    handler returns true.  When the walk returned false, the heights are not
    compared and nothing more is recorded: the handler returns false.  On
    every return the height reached is recorded for the statement. *)
Theorem expression_statement_checks_height_after_success
    cfg addr loc e st ok st1 :
  walk_Expression cfg e st = Normal ok st1 →
  walk_Statement cfg (SExpressionStatement addr loc e) st =
    if ok && bool_decide (m_stackHeight st1 ≠ m_stackHeight st) then
      let st2 := add_error {| err_type := TypeError; err_location := loc;
                              err_message := topLevelMessage (m_stackHeight st1 - m_stackHeight st) |}
                           st1 in
      if overCapacity (m_errorReporter st2) then FatalError st2
      else Normal false (recordStackHeight addr st2)
    else Normal ok (recordStackHeight addr st1).
Proof.
  intros Hwalk. simpl. unfold visit_ExpressionStatement.
  unfold mbind at 1, M_bind at 1. simpl.
  rewrite (bind_run _ _ _ _ _ Hwalk).
  unfold mbind at 1, M_bind at 1. simpl.
  destruct (ok && bool_decide (m_stackHeight st1 ≠ m_stackHeight st)); [|done].
  unfold mbind, M_bind. rewrite error_run. simpl.
  by destruct (overCapacity _).
Qed.

Lemma expression_statement_checks_height_after_success_witness :
  walk_Statement Examples.cfg Examples.unknownIdentifier Examples.insideOuter =
    Normal false
      (recordStackHeight 2
         (recordStackHeight 3
            (set_stackHeight 1
               (add_error {| err_type := DeclarationError; err_location := 3;
                             err_message := "Identifier not found." |}
                  (set_typeOfCurrentExpression ["u256"] Examples.insideOuter))))).
Proof.
  eapply eq_trans.
  - apply (expression_statement_checks_height_after_success Examples.cfg 2 2 _ _ false).
    vm_compute. reflexivity.
  - vm_compute. reflexivity.
Defined.

(** ** The return types of an unresolved callee *)

(** C10. A call whose callee is neither a built-in nor a function of the
    scope leaves [returnTypes] null, and the failure branch of the handler
    reads its size: [{ g() }] and [{ jump(0) }] end in a null dereference,
    in the walk and so in [analyze]. *)
Theorem unresolved_callee_dereferences_null :
  walk_Block Examples.cfg Examples.unknownCall (Examples.fresh Examples.emptyInfo)
    = Crash NullDereference ∧
  walk_Block Examples.cfg Examples.jumpCall (Examples.fresh Examples.emptyInfo)
    = Crash NullDereference ∧
  analyze Examples.cfg (Examples.fillerOf Examples.emptyInfo) Examples.unknownCall
    (Examples.fresh Examples.emptyInfo) = Crash NullDereference.
Proof. by vm_compute. Qed.

Lemma argumentStep_keeps_false cfg fn lit arg walk tys st s' tys' st' :
  argumentStep cfg fn lit arg walk (false, tys) st = Normal (s', tys') st' → s' = false.
Proof.
  unfold argumentStep. intros H.
  apply bind_Normal in H as (ok & st1 & _ & H).
  destruct ok; run_inv; done.
Qed.

Lemma walkArguments_keeps_false cfg fn lit (walk : Expression → M bool) args :
  ∀ tys st s' tys' st',
    forEachReversed (λ arg, argumentStep cfg fn lit arg (walk arg)) args (false, tys) st
      = Normal (s', tys') st' →
    s' = false.
Proof.
  induction args as [|arg r IH]; intros tys st s' tys' st' H; simpl in H.
  - by run_inv.
  - apply bind_Normal in H as ([s1 tys1] & st1 & Hrest & Hstep).
    apply IH in Hrest as ->. by eapply argumentStep_keeps_false.
Qed.

(** The handler of a call whose callee is neither a built-in nor a function
    of the scope chain never returns: when the walk of the arguments has
    returned, the failure branch reads the size of the null [returnTypes]. *)
Lemma unresolved_call_never_returns cfg addr loc fn args st sc b st' :
  builtin (m_dialect cfg) (id_name fn) = None →
  m_currentScope st = Some sc →
  (∀ a arguments returns,
     Scope_lookup sc (id_name fn) ≠ Some (a, ScopeFunction arguments returns)) →
  walk_Expression cfg (EFunctionCall addr loc fn args) st ≠ Normal b st'.
Proof.
  intros Hbuiltin Hsc Hfun H. simpl in H. unfold visit_FunctionCall in H.
  apply bind_Normal in H as (? & ? & Hassert & H). apply yulAssert_Normal in Hassert as [_ ->].
  apply bind_Normal in H as ([[[success ps] rs] lit] & st1 & Hcallee & H).
  assert (success = false ∧ rs = None) as [-> ->].
  { unfold resolveCallee in Hcallee. rewrite Hbuiltin in Hcallee.
    apply bind_Normal in Hcallee as (sc' & ? & Hcur & Hcallee).
    unfold currentScope in Hcur. rewrite Hsc in Hcur. injection Hcur as <- <-.
    destruct (Scope_lookup sc (id_name fn)) as [[a [ty|arguments returns]]|] eqn:Hlookup.
    - run_inv. done.
    - by destruct (Hfun a arguments returns).
    - run_inv. done. }
  apply bind_Normal in H as (s1 & st2 & Hcount & H). apply ret_Normal in Hcount as [-> ->].
  apply bind_Normal in H as ([s2 tys] & st3 & Hargs & H).
  apply walkArguments_keeps_false in Hargs as ->.
  apply bind_Normal in H as (s3 & st4 & Hcheck & H). apply ret_Normal in Hcheck as [-> ->].
  run_inv. done.
Qed.

(** * Further properties of the walk *)

(** ** The walk as a whole *)

(** X1.  However the walk of a block ends, by returning or by the reporter's
    fatal error, the diagnostics the reporter held before are a prefix of
    those it holds after, its capacity is the same, and the scope table and
    the table of virtual blocks that the scope filler wrote are as they
    were. *)
Theorem walk_only_appends_diagnostics cfg b st :
  match walk_Block cfg b st with
  | Normal _ st' | FatalError st' =>
      errors (m_errorReporter st) `prefix_of` errors (m_errorReporter st') ∧
      maxErrorsAllowed (m_errorReporter st') = maxErrorsAllowed (m_errorReporter st) ∧
      scopes (m_info st') = scopes (m_info st) ∧
      virtualBlocks (m_info st') = virtualBlocks (m_info st)
  | Crash _ => True
  end.
Proof.
  pose proof (grows_walk_Block cfg b st) as H.
  destruct (walk_Block cfg b st); [| |done]; by destruct H as (?&?&?&?&?).
Qed.

(** X2.  The walk of an expression leaves the current scope, the current
    for loop and the set of active variables as they were, however it ends. *)
Theorem expression_walk_leaves_frame cfg e st :
  match walk_Expression cfg e st with
  | Normal _ st' | FatalError st' =>
      m_currentScope st' = m_currentScope st ∧
      m_currentForLoop st' = m_currentForLoop st ∧
      m_activeVariables st' = m_activeVariables st
  | Crash _ => True
  end.
Proof.
  pose proof (sameFrame_walk_Expression cfg e st) as H.
  by destruct (walk_Expression cfg e st).
Qed.

(** X3.  A block whose walk returns, accepted or not, has put back the
    current scope and the current for loop it was entered with. *)
Theorem returning_block_restores_scope_and_loop cfg b st r st' :
  walk_Block cfg b st = Normal r st' →
  m_currentScope st' = m_currentScope st ∧ m_currentForLoop st' = m_currentForLoop st.
Proof. intros H. exact (post_run _ _ _ _ _ _ (restores_walk_Block cfg b) H). Qed.

Lemma returning_block_restores_scope_and_loop_witness :
  ∃ st', walk_Block Examples.cfg Examples.program1 (Examples.fresh Examples.info1)
         = Normal true st' ∧
         m_currentScope st' = None ∧ m_currentForLoop st' = None.
Proof.
  assert (∃ st', walk_Block Examples.cfg Examples.program1 (Examples.fresh Examples.info1)
                 = Normal true st') as [st' Hrun] by (eexists; vm_compute; reflexivity).
  exists st'. split; [exact Hrun|].
  exact (returning_block_restores_scope_and_loop _ _ _ _ _ Hrun).
Defined.

(** X4.  An expression or a block whose walk returns false has handed the
    reporter at least one diagnostic during that walk: the reporter holds
    more diagnostics after than before. *)
Theorem failed_walk_adds_a_diagnostic cfg :
  (∀ e st st', walk_Expression cfg e st = Normal false st' →
     (numDiagnostics st < numDiagnostics st')%nat) ∧
  (∀ b st st', walk_Block cfg b st = Normal false st' →
     (numDiagnostics st < numDiagnostics st')%nat).
Proof.
  split.
  - intros e st st' H. apply reportsFailure_walk_Expression in H as [_ H]. by apply H.
  - intros b st st' H. apply reportsFailure_walk_Block in H as [_ H]. by apply H.
Qed.

Lemma failed_walk_adds_a_diagnostic_witness :
  ∃ st', walk_Block Examples.cfg Examples.literalStatement (Examples.fresh Examples.emptyInfo)
         = Normal false st' ∧
         (0 < numDiagnostics st')%nat.
Proof.
  assert (∃ st', walk_Block Examples.cfg Examples.literalStatement
                   (Examples.fresh Examples.emptyInfo) = Normal false st')
    as [st' Hrun] by (eexists; vm_compute; reflexivity).
  exists st'. split; [exact Hrun|].
  exact (proj2 (failed_walk_adds_a_diagnostic Examples.cfg) _ _ _ Hrun).
Defined.

(** ** Literals and identifiers *)

(** What a return of the literal handler tells. *)
Lemma visit_Literal_run cfg l st ok st' :
  visit_Literal cfg l st = Normal ok st' →
  ok = literalValid l ∧
  m_stackHeight st' = m_stackHeight st + 1 ∧
  (ok = true →
     m_typeOfCurrentExpression st' = [lit_type l] ∧
     stackHeightInfo (m_info st') !! lit_addr l = Some (m_stackHeight st')).
Proof.
  intros H. split; [by eapply visit_Literal_returns_literalValid|].
  unfold visit_Literal in H.
  apply bind_Normal in H as ([] & st1 & Hvalid & H).
  apply reportsOnly_expectValidType in Hvalid as (Hh & _ & _ & Hi & _).
  unfold typeError in H.
  run_inv'; simpl; rewrite ?Hh; (split; [done|]); try done.
  all: intros _; split; [done|]; by rewrite lookup_insert_eq.
Qed.

(** X5.  When the literal handler returns, its verdict is decided by the
    literal alone: false for a string literal of more than 32 bytes and for a
    number literal above 2^256 - 1, true otherwise.  On every return the
    stack height is one above the height at entry; when the verdict is true
    the type of the current expression is the declared type of the literal
    and the height reached is recorded for the literal. *)
Theorem literal_accepted_iff_within_bounds cfg l st ok st' :
  visit_Literal cfg l st = Normal ok st' →
  ok = literalValid l ∧
  m_stackHeight st' = m_stackHeight st + 1 ∧
  (ok = true →
     m_typeOfCurrentExpression st' = [lit_type l] ∧
     stackHeightInfo (m_info st') !! lit_addr l = Some (m_stackHeight st')).
Proof. apply visit_Literal_run. Qed.

Lemma literal_accepted_iff_within_bounds_witness :
  ∃ st', visit_Literal Examples.cfg (Examples.number 3 3 "1") (Examples.fresh Examples.emptyInfo)
         = Normal true st' ∧
         true = literalValid (Examples.number 3 3 "1") ∧ m_stackHeight st' = 1.
Proof.
  assert (∃ st', visit_Literal Examples.cfg (Examples.number 3 3 "1")
                   (Examples.fresh Examples.emptyInfo) = Normal true st')
    as [st' Hrun] by (eexists; vm_compute; reflexivity).
  exists st'. split; [exact Hrun|].
  destruct (literal_accepted_iff_within_bounds _ _ _ _ _ Hrun) as (Hv & Hh & _).
  split; [exact Hv | exact Hh].
Defined.

(** X6.  A literal within the bounds, of a type the dialect knows but does
    not accept for this literal, gets the type error "Invalid type ... for
    literal ..." and is accepted all the same: the handler returns true, with
    the height raised by one and recorded, unless the error takes the
    reporter over its capacity.  A true verdict of the walk does not mean
    that no error was reported. *)
Theorem invalid_literal_type_is_reported_but_accepted cfg l st :
  lit_type l ∈ types (m_dialect cfg) →
  literalValid l = true →
  (lit_kind l = KNumber → is_Some (bigint (lit_value l))) →
  (lit_kind l = KBoolean → lit_value l = "true" ∨ lit_value l = "false") →
  validTypeForLiteral (m_dialect cfg) (lit_kind l) (lit_value l) (lit_type l) = false →
  let st1 := add_error (invalidLiteralType l) (set_stackHeight (m_stackHeight st + 1) st) in
  visit_Literal cfg l st =
    if overCapacity (m_errorReporter st1) then FatalError st1
    else Normal true (set_typeOfCurrentExpression [lit_type l] (recordStackHeight (lit_addr l) st1)).
Proof.
  intros Htype Hvalid Hnum Hbool Hinv st1.
  unfold visit_Literal, expectValidType. rewrite (bool_decide_eq_true_2 _ Htype). simpl.
  unfold mbind at 1, M_bind at 1. simpl.
  unfold mbind at 1, M_bind at 1. simpl.
  unfold literalValid in Hvalid. apply andb_true_iff in Hvalid as [Hs Hn].
  apply negb_true_iff in Hs, Hn. rewrite Hs. rewrite Hinv. simpl.
  assert (Hrest :
    (when (bool_decide (lit_kind l = KBoolean))
       (yulAssert (bool_decide (lit_value l = "true") || bool_decide (lit_value l = "false")));;
     typeError (lit_location l) (err_message (invalidLiteralType l));;
     modify (recordStackHeight (lit_addr l));;
     modify (set_typeOfCurrentExpression [lit_type l]);; mret true)
      (set_stackHeight (m_stackHeight st + 1) st) =
    if overCapacity (m_errorReporter st1) then FatalError st1
    else Normal true (set_typeOfCurrentExpression [lit_type l] (recordStackHeight (lit_addr l) st1))).
  { assert (Hassert :
      when (bool_decide (lit_kind l = KBoolean))
        (yulAssert (bool_decide (lit_value l = "true") || bool_decide (lit_value l = "false")))
        (set_stackHeight (m_stackHeight st + 1) st)
      = Normal tt (set_stackHeight (m_stackHeight st + 1) st)).
    { destruct (bool_decide (lit_kind l = KBoolean)) eqn:Hk; [|reflexivity].
      apply bool_decide_eq_true in Hk. simpl.
      destruct (Hbool Hk) as [Hv | Hv]; rewrite Hv; reflexivity. }
    rewrite (bind_run _ _ _ _ _ Hassert).
    unfold mbind, M_bind, typeError. rewrite error_run. simpl. fold st1.
    by destruct (overCapacity _). }
  destruct (bool_decide (lit_kind l = KNumber)) eqn:Hk; simpl.
  - apply bool_decide_eq_true in Hk.
    destruct (Hnum Hk) as [v Hv]. rewrite Hv in Hn |- *.
    simpl in Hn. unfold mbind at 1, M_bind at 1. simpl. rewrite Hn. exact Hrest.
  - unfold mbind at 1, M_bind at 1. simpl. exact Hrest.
Qed.

Lemma invalid_literal_type_is_reported_but_accepted_witness :
  let st := Examples.fresh Examples.emptyInfo in
  visit_Literal Examples.cfg Examples.oneAsBool st =
    Normal true
      (set_typeOfCurrentExpression ["bool"]
         (recordStackHeight 3
            (add_error (invalidLiteralType Examples.oneAsBool) (set_stackHeight 1 st)))).
Proof.
  intros st. eapply eq_trans.
  - apply (invalid_literal_type_is_reported_but_accepted Examples.cfg Examples.oneAsBool st).
    + apply (bool_decide_unpack _). vm_compute. exact I.
    + reflexivity.
    + intros _. vm_compute. eauto.
    + intros Hk. discriminate Hk.
    + reflexivity.
  - vm_compute. reflexivity.
Defined.

(** X7.  For an identifier that the scope chain binds to a variable, the
    identifier handler returns true exactly when the variable is in the
    active set.  When it is not, the declaration error "Variable ... used
    before it was declared." is the one diagnostic added; otherwise none is.
    Either way the height is raised by one and recorded for the identifier,
    and the type of the current expression is the type of the variable. *)
Theorem identifier_accepted_iff_variable_active cfg i sc a ty st b st' :
  m_currentScope st = Some sc →
  Scope_lookup sc (id_name i) = Some (a, ScopeVariable ty) →
  visit_Identifier cfg i st = Normal b st' →
  b = bool_decide ((a, id_name i) ∈ m_activeVariables st) ∧
  errors (m_errorReporter st') =
    errors (m_errorReporter st) ++ (if b then [] else [usedBeforeDeclared i]) ∧
  m_stackHeight st' = m_stackHeight st + 1 ∧
  m_typeOfCurrentExpression st' = [ty] ∧
  stackHeightInfo (m_info st') !! id_addr i = Some (m_stackHeight st').
Proof.
  intros Hsc Hlookup H. unfold visit_Identifier in H.
  apply bind_Normal in H as ([] & ? & Hassert & H). apply yulAssert_Normal in Hassert as [_ ->].
  apply bind_Normal in H as (n & ? & Hn & H). unfold numErrors in Hn.
  apply gets_Normal in Hn as [-> ->].
  apply bind_Normal in H as ([] & ? & Hty & H). apply modify_Normal in Hty as ->.
  apply bind_Normal in H as (sc' & ? & Hcur & H).
  unfold currentScope in Hcur. simpl in Hcur. rewrite Hsc in Hcur. injection Hcur as <- <-.
  rewrite Hlookup in H. unfold declarationError in H.
  run_inv'; simpl in *; rewrite ?lookup_insert_eq, ?app_nil_r; repeat split; try done.
  all: destruct (bool_decide (_ ∈ _)); simpl in *; try done.
  all: by rewrite app_nil_r.
Qed.

Lemma identifier_accepted_iff_variable_active_witness :
  ∃ st', visit_Identifier Examples.cfg (Examples.ident 9 "x") Examples.afterX = Normal true st' ∧
         m_typeOfCurrentExpression st' = ["u256"] ∧ m_stackHeight st' = 2.
Proof.
  assert (∃ st', visit_Identifier Examples.cfg (Examples.ident 9 "x") Examples.afterX
                 = Normal true st') as [st' Hrun] by (eexists; vm_compute; reflexivity).
  exists st'. split; [exact Hrun|].
  destruct (identifier_accepted_iff_variable_active Examples.cfg (Examples.ident 9 "x")
              Examples.scope1 100%N "u256" Examples.afterX true st' eq_refl eq_refl Hrun)
    as (_ & _ & Hh & Ht & _).
  split; [exact Ht | exact Hh].
Defined.

(** What an accepted identifier tells. *)
Lemma visit_Identifier_true cfg i sc st st' :
  m_currentScope st = Some sc →
  visit_Identifier cfg i st = Normal true st' →
  (∃ a ty, Scope_lookup sc (id_name i) = Some (a, ScopeVariable ty) ∧
           (a, id_name i) ∈ m_activeVariables st ∧
           m_typeOfCurrentExpression st' = [ty] ∧
           m_stackHeight st' = m_stackHeight st + 1) ∨
  (Scope_lookup sc (id_name i) = None ∧
   ∃ r, m_resolver cfg = Some r ∧
        (r i RValue (insideFunction sc)).2 ≠ size_t_max ∧
        m_typeOfCurrentExpression st' = [defaultType (m_dialect cfg)] ∧
        m_stackHeight st' =
          wrap_int (m_stackHeight st + Z.of_N (r i RValue (insideFunction sc)).2)).
Proof.
  intros Hsc H. unfold visit_Identifier in H.
  apply bind_Normal in H as ([] & ? & Hassert & H). apply yulAssert_Normal in Hassert as [_ ->].
  apply bind_Normal in H as (n & ? & Hn & H). unfold numErrors in Hn.
  apply gets_Normal in Hn as [-> ->].
  apply bind_Normal in H as ([] & ? & Hty & H). apply modify_Normal in Hty as ->.
  apply bind_Normal in H as (sc' & ? & Hcur & H).
  unfold currentScope in Hcur. simpl in Hcur. rewrite Hsc in Hcur. injection Hcur as <- <-.
  apply bind_Normal in H as (success & st1 & Hfound & H).
  apply bind_Normal in H as ([] & ? & Hrec & H). apply modify_Normal in Hrec as ->.
  apply ret_Normal in H as [<- ->].
  destruct (Scope_lookup sc (id_name i)) as [[a [ty|arguments returns]]|] eqn:Hlookup.
  - left. exists a, ty. split; [done|]. unfold declarationError in Hfound.
    run_inv'; simpl in *; count_diagnostics; try done.
    split; [|done]. symmetry in H. by apply bool_decide_eq_true in H.
  - unfold typeError in Hfound. run_inv'; done.
  - right. split; [done|].
    destruct (m_resolver cfg) as [r|] eqn:Hr.
    + exists r. split; [done|].
      apply bind_Normal in Hfound as (stackSize & st2 & Hcall & Hfound).
      assert (Hsize : stackSize = (r i RValue (insideFunction sc)).2).
      { unfold callResolver in Hcall. destruct (r i RValue (insideFunction sc)).
        apply bind_Normal in Hcall as (? & ? & _ & Hcall). by apply ret_Normal in Hcall as [-> _]. }
      apply reportsOnly_callResolver in Hcall as (Hh & _ & _ & _ & Ht & _).
      subst stackSize. unfold declarationError in Hfound.
      run_inv'; simpl in *; count_diagnostics; try done.
      all: rewrite ?Hh, ?Ht; done.
    + unfold declarationError in Hfound. run_inv'; simpl in *; count_diagnostics; done.
Qed.

(** X8.  An identifier the handler accepts is resolved: either the scope
    chain binds it to a variable that is active, the type of the current
    expression is the type of that variable and the height is raised by one;
    or the scope chain does not know it, there is a resolver, the resolver
    answered a size other than the sentinel, the type of the current
    expression is the default type and the height is raised by that size.
    With no resolver, only active variables are accepted. *)
Theorem accepted_identifier_is_resolved cfg i sc st st' :
  m_currentScope st = Some sc →
  visit_Identifier cfg i st = Normal true st' →
  (∃ a ty, Scope_lookup sc (id_name i) = Some (a, ScopeVariable ty) ∧
           (a, id_name i) ∈ m_activeVariables st ∧
           m_typeOfCurrentExpression st' = [ty] ∧
           m_stackHeight st' = m_stackHeight st + 1) ∨
  (Scope_lookup sc (id_name i) = None ∧
   ∃ r, m_resolver cfg = Some r ∧
        (r i RValue (insideFunction sc)).2 ≠ size_t_max ∧
        m_typeOfCurrentExpression st' = [defaultType (m_dialect cfg)] ∧
        m_stackHeight st' =
          wrap_int (m_stackHeight st + Z.of_N (r i RValue (insideFunction sc)).2)).
Proof. apply visit_Identifier_true. Qed.

Lemma accepted_identifier_is_resolved_witness :
  ∃ st', visit_Identifier Examples.cfg (Examples.ident 9 "x") Examples.afterX = Normal true st' ∧
         ∃ a ty, Scope_lookup Examples.scope1 "x" = Some (a, ScopeVariable ty) ∧
                 (a, "x") ∈ m_activeVariables Examples.afterX.
Proof.
  assert (∃ st', visit_Identifier Examples.cfg (Examples.ident 9 "x") Examples.afterX
                 = Normal true st') as [st' Hrun] by (eexists; vm_compute; reflexivity).
  exists st'. split; [exact Hrun|].
  destruct (accepted_identifier_is_resolved Examples.cfg (Examples.ident 9 "x")
              Examples.scope1 Examples.afterX st' eq_refl Hrun)
    as [(a & ty & Hl & Ha & _)|(Hl & _)].
  - exists a, ty. split; [exact Hl | exact Ha].
  - vm_compute in Hl. discriminate Hl.
Defined.

(** ** Assignments and declarations *)

(** The assignment check pops one item and leaves the analysis info, the scope,
    the active set and the types alone, whatever its verdict. *)
Lemma checkAssignment_run cfg v ty st b st' :
  checkAssignment cfg v ty st = Normal b st' →
  m_stackHeight st' = m_stackHeight st - 1 ∧
  m_info st' = m_info st ∧
  m_currentScope st' = m_currentScope st ∧
  m_activeVariables st' = m_activeVariables st ∧
  m_typeOfCurrentExpression st' = m_typeOfCurrentExpression st.
Proof.
  intros H. unfold checkAssignment, typeError, declarationError in H.
  run_inv';
    repeat match goal with
      | H : callResolver _ _ _ _ _ = Normal _ _ |- _ =>
          apply reportsOnly_callResolver in H as (?&?&?&?&?&?)
      end;
    simpl in *; repeat split; try congruence; lia.
Qed.

Lemma checkAssignment_true cfg v ty sc st st' :
  m_currentScope st = Some sc →
  checkAssignment cfg v ty st = Normal true st' →
  acceptedTarget cfg sc (m_activeVariables st) v ty.
Proof.
  unfold acceptedTarget. intros Hsc H. unfold checkAssignment in H.
  apply bind_Normal in H as ([] & ? & Hassert & H). apply yulAssert_Normal in Hassert as [_ ->].
  apply bind_Normal in H as (n & ? & Hn & H). unfold numErrors in Hn.
  apply gets_Normal in Hn as [-> ->].
  apply bind_Normal in H as (sc' & ? & Hcur & H).
  unfold currentScope in Hcur. rewrite Hsc in Hcur. injection Hcur as <- <-.
  apply bind_Normal in H as ([[success variableSize] variableType] & st1 & Hfound & H).
  unfold typeError, declarationError in H.
  destruct (Scope_lookup sc (id_name v)) as [[a [ty'|arguments returns]]|] eqn:Hlookup.
  - left. exists a. unfold declarationError in Hfound.
    run_inv'; simpl in *; count_diagnostics; simplify_eq; try done.
    all: try match goal with H : ¬ ?x ≠ ?y |- _ => assert (x = y) as -> by (by destruct (decide (x = y))) end.
    all: try match goal with H : true = bool_decide _ |- _ => symmetry in H; apply bool_decide_eq_true in H end.
    all: try done.
  - unfold typeError in Hfound. run_inv'; simpl in *; count_diagnostics; simplify_eq; done.
  - right. split; [done|].
    destruct (m_resolver cfg) as [r|] eqn:Hr.
    + exists r. split; [done|].
      apply bind_Normal in Hfound as (size & st2 & Hcall & Hfound).
      assert (Hsize : size = (r v LValue (insideFunction sc)).2).
      { unfold callResolver in Hcall. destruct (r v LValue (insideFunction sc)).
        apply bind_Normal in Hcall as (? & ? & _ & Hcall). by apply ret_Normal in Hcall as [-> _]. }
      apply ret_Normal in Hfound as [[= -> -> ->] ->]. rewrite <- Hsize.
      run_inv'; simpl in *; count_diagnostics; simplify_eq; try done.
      all: try match goal with H : ¬ ?x ≠ ?y |- _ => assert (x = y) by (by destruct (decide (x = y))) end.
      all: try match goal with H : ¬ ?x ≠ ?y |- _ => assert (x = y) by (by destruct (decide (x = y))); clear H end.
      all: try done.
      split; [|done].
      match goal with
      | Hc : _ && _ = false |- _ =>
          apply andb_false_iff in Hc as [Hb|Hb]; apply bool_decide_eq_false in Hb; [|done]
      end.
      by destruct (decide ((r v LValue (insideFunction sc)).2 = 1%N)).
    + run_inv'; simpl in *; count_diagnostics; simplify_eq; done.
Qed.

(** X9.  A target that [checkAssignment] accepts for a value of type [ty]
    is either a variable of the scope chain that is active and has the type
    [ty], or a name the scope chain does not know for which the resolver
    answered the size 1, [ty] being the default type. *)
Theorem accepted_assignment_target cfg v ty sc st st' :
  m_currentScope st = Some sc →
  checkAssignment cfg v ty st = Normal true st' →
  (∃ a, Scope_lookup sc (id_name v) = Some (a, ScopeVariable ty) ∧
        (a, id_name v) ∈ m_activeVariables st) ∨
  (Scope_lookup sc (id_name v) = None ∧
   ∃ r, m_resolver cfg = Some r ∧
        (r v LValue (insideFunction sc)).2 = 1%N ∧
        ty = defaultType (m_dialect cfg)).
Proof. apply checkAssignment_true. Qed.

Lemma accepted_assignment_target_witness :
  ∃ st', checkAssignment Examples.cfg (Examples.ident 8 "x") "u256" Examples.afterX
         = Normal true st' ∧
         ∃ a, Scope_lookup Examples.scope1 "x" = Some (a, ScopeVariable "u256") ∧
              (a, "x") ∈ m_activeVariables Examples.afterX.
Proof.
  assert (∃ st', checkAssignment Examples.cfg (Examples.ident 8 "x") "u256" Examples.afterX
                 = Normal true st') as [st' Hrun] by (eexists; vm_compute; reflexivity).
  exists st'. split; [exact Hrun|].
  destruct (accepted_assignment_target Examples.cfg (Examples.ident 8 "x") "u256"
              Examples.scope1 Examples.afterX st' eq_refl Hrun)
    as [Hvar|(Hl & _)].
  - exact Hvar.
  - vm_compute in Hl. discriminate Hl.
Defined.

Lemma assignTargets_height cfg names s st s' st' :
  forEachIndexed
    (λ i variable success,
       givenType ← givenTypeAt cfg i;
       ok ← checkAssignment cfg variable givenType;
       mret (success && ok)) names s st = Normal s' st' →
  m_stackHeight st' = m_stackHeight st - Z.of_nat (length names).
Proof.
  unfold forEachIndexed. intros H. apply (forEach_height (-1)) in H.
  - rewrite length_zip, length_seq, Nat.min_id in H. lia.
  - intros [i v] s0 st0 s1 st1 Hstep. simpl in Hstep. run_inv'.
    match goal with
    | H : checkAssignment _ _ _ _ = Normal _ _ |- _ => apply checkAssignment_run in H as [H _]
    end. lia.
Qed.

Lemma assignTargets_accepted cfg sc (l : list (nat * Identifier)) : ∀ s st st',
  m_currentScope st = Some sc →
  forEach (λ ix success,
             givenType ← givenTypeAt cfg ix.1;
             ok ← checkAssignment cfg ix.2 givenType;
             mret (success && ok)) l s st = Normal true st' →
  s = true ∧
  ∀ ix, ix ∈ l →
    acceptedTarget cfg sc (m_activeVariables st) ix.2
      (default (defaultType (m_dialect cfg)) (m_typeOfCurrentExpression st !! ix.1)).
Proof.
  induction l as [|[i v] r IH]; intros s st st' Hsc H; simpl in H.
  - apply ret_Normal in H as [<- _]. split; [done|]. intros ix Hix. by apply elem_of_nil in Hix.
  - apply bind_Normal in H as (s1 & st1 & Hstep & H).
    apply bind_Normal in Hstep as (ty & ? & Hty & Hstep). unfold givenTypeAt in Hty.
    apply gets_Normal in Hty as [-> ->].
    apply bind_Normal in Hstep as (ok & st2 & Hcheck & Hstep).
    apply ret_Normal in Hstep as [-> ->].
    apply checkAssignment_run in Hcheck as Hframe. destruct Hframe as (_ & _ & Hsc' & Ha & Ht).
    apply IH in H as (Hs & Hr); [|congruence].
    apply andb_true_iff in Hs as [-> ->].
    apply (checkAssignment_true _ _ _ sc) in Hcheck; [|done].
    split; [done|]. intros ix Hix. apply elem_of_cons in Hix as [->|Hix]; [done|].
    rewrite <- Ha, <- Ht. by apply Hr.
Qed.

(** X26.  In an assignment that is accepted, the value is accepted and
    raises the stack height by exactly the number of targets; the target at
    position [i] is accepted by [checkAssignment] for the type at position
    [i] of the value (the default type when there is none), so it is an
    active variable of that type or a name the resolver sized 1; and the
    stack height is back where it was before the assignment and recorded
    for it. *)
Theorem accepted_assignment cfg addr loc names value sc st st' :
  m_currentScope st = Some sc →
  walk_Statement cfg (SAssignment addr loc names value) st = Normal true st' →
  ∃ st1,
    walk_Expression cfg value st = Normal true st1 ∧
    m_stackHeight st1 = m_stackHeight st + Z.of_nat (length names) ∧
    (∀ i v, names !! i = Some v →
       acceptedTarget cfg sc (m_activeVariables st) v
         (default (defaultType (m_dialect cfg)) (m_typeOfCurrentExpression st1 !! i))) ∧
    m_stackHeight st' = m_stackHeight st ∧
    stackHeightInfo (m_info st') !! addr = Some (m_stackHeight st).
Proof.
  intros Hsc. simpl. unfold visit_Assignment, declarationError. intros H.
  apply bind_Normal in H as ([] & ? & Hassert & H). apply yulAssert_Normal in Hassert as [_ ->].
  apply bind_Normal in H as (h & ? & Hh & H). apply gets_Normal in Hh as [-> ->].
  apply bind_Normal in H as (success & st1 & Hwalk & H).
  apply bind_Normal in H as (h1 & ? & Hh & H). apply gets_Normal in Hh as [-> ->].
  destruct (bool_decide (_ ≠ _)) eqn:Hcount; [by run_inv|].
  apply bool_decide_eq_false in Hcount.
  apply bind_Normal in H as (s' & st2 & Hloop & H). run_inv.
  pose proof (post_run _ _ _ _ _ _ (sameFrame_walk_Expression cfg value) Hwalk)
    as (Hsc1 & _ & Ha1).
  apply assignTargets_height in Hloop as Hh2.
  unfold forEachIndexed in Hloop.
  apply (assignTargets_accepted _ sc) in Hloop as (-> & Htargets); [|congruence].
  exists st1. split; [done|]. split; [lia|]. split.
  - intros i v Hv. rewrite <- Ha1. apply (Htargets (i, v)).
    apply list_elem_of_lookup. exists i. apply lookup_zip_Some. split; [|done].
    apply lookup_seq. split; [done|]. by eapply lookup_lt_Some.
  - simpl. rewrite lookup_insert_eq. split; [lia|]. f_equal. lia.
Qed.

Lemma accepted_assignment_witness :
  ∃ st' st1, walk_Statement Examples.cfg Examples.assignX Examples.afterX = Normal true st' ∧
             walk_Expression Examples.cfg (ELiteral (Examples.number 12 12 "2")) Examples.afterX
             = Normal true st1 ∧
             m_stackHeight st' = 1.
Proof.
  assert (∃ st', walk_Statement Examples.cfg Examples.assignX Examples.afterX = Normal true st')
    as [st' Hrun] by (eexists; vm_compute; reflexivity).
  destruct (accepted_assignment Examples.cfg 11 11 _ _ Examples.scope1 Examples.afterX st' eq_refl Hrun)
    as (st1 & Hwalk & _ & _ & Hh & _).
  exists st', st1. split; [exact Hrun|]. split; [exact Hwalk | exact Hh].
Defined.

(** The value of a declaration leaves the height of the variables, also when the
    count of values is wrong. *)
Lemma declaredValue_height loc n walk st r st' :
  declaredValue loc n walk st = Normal r st' →
  m_stackHeight st' = m_stackHeight st + n.
Proof.
  unfold declaredValue, declarationError. intros H.
  destruct walk as [w|]; run_inv'; simpl in *; count_diagnostics; lia.
Qed.

Lemma visit_VariableDeclaration_height cfg addr loc vars walk st b st' :
  visit_VariableDeclaration cfg addr loc vars walk st = Normal b st' →
  m_stackHeight st' = m_stackHeight st + Z.of_nat (length vars).
Proof.
  unfold visit_VariableDeclaration. intros H.
  apply bind_Normal in H as ([] & st1 & Hnotify & H).
  apply reportsOnly_notifyResolver in Hnotify as (Hh1 & _).
  apply bind_Normal in H as (proceed & st2 & Hvalue & H).
  apply declaredValue_height in Hvalue.
  destruct proceed as [success|].
  - apply bind_Normal in H as (s' & st3 & Hloop & H).
    apply declareVariables_marksOnly in Hloop as (Hh3 & _).
    run_inv. simpl. lia.
  - apply ret_Normal in H as [_ ->]. lia.
Qed.

(** X10.  A variable declaration whose walk returns, accepted or not, leaves
    the stack height raised by the number of declared variables: this holds
    without a value, with a value of the right count, and also when the count
    of values is wrong, where the handler adjusts the height before it
    returns false. *)
Theorem declaration_leaves_one_slot_per_variable cfg addr loc variables value st b st' :
  walk_Statement cfg (SVariableDeclaration addr loc variables value) st = Normal b st' →
  m_stackHeight st' = m_stackHeight st + Z.of_nat (length variables).
Proof. simpl. apply visit_VariableDeclaration_height. Qed.

Lemma declaration_leaves_one_slot_per_variable_witness :
  ∃ st', walk_Statement Examples.cfg Examples.mismatchedDeclaration Examples.insideXY
         = Normal false st' ∧
         m_stackHeight st' = 2.
Proof.
  assert (∃ st', walk_Statement Examples.cfg Examples.mismatchedDeclaration Examples.insideXY
                 = Normal false st') as [st' Hrun] by (eexists; vm_compute; reflexivity).
  exists st'. split; [exact Hrun|].
  exact (declaration_leaves_one_slot_per_variable _ _ _ _ _ _ _ _ Hrun).
Defined.

Lemma declareVariable_true cfg i v s st st' :
  declareVariable cfg i v s st = Normal true st' →
  s = true ∧
  tn_type v = default (defaultType (m_dialect cfg)) (m_typeOfCurrentExpression st !! i).
Proof.
  unfold declareVariable, typeError. intros H.
  apply bind_Normal in H as (ty & ? & Hty & H). unfold givenTypeAt in Hty.
  apply gets_Normal in Hty as [-> ->].
  apply bind_Normal in H as ([] & st1 & _ & H).
  apply bind_Normal in H as (s2 & st2 & Hcheck & H).
  apply bind_Normal in H as (? & ? & _ & H).
  apply bind_Normal in H as (? & ? & _ & H).
  apply ret_Normal in H as [<- _].
  destruct (bool_decide (tn_type v ≠ _)) eqn:Hne; [by run_inv|].
  apply ret_Normal in Hcheck as [-> _]. apply bool_decide_eq_false in Hne.
  split; [done|]. by apply dec_stable in Hne.
Qed.

Lemma declareVariables_types cfg (l : list (nat * TypedName)) : ∀ s st st',
  forEach (λ ix, declareVariable cfg ix.1 ix.2) l s st = Normal true st' →
  s = true ∧
  ∀ ix, ix ∈ l →
    tn_type ix.2 = default (defaultType (m_dialect cfg)) (m_typeOfCurrentExpression st !! ix.1).
Proof.
  induction l as [|[i v] r IH]; intros s st st' H; simpl in H.
  - apply ret_Normal in H as [<- _]. split; [done|]. intros ix Hix. by apply elem_of_nil in Hix.
  - apply bind_Normal in H as (s1 & st1 & Hstep & H).
    apply IH in H as (-> & Hr).
    apply declareVariable_marksOnly in Hstep as Hm. destruct Hm as (_ & _ & _ & Ht & _).
    apply declareVariable_true in Hstep as [-> Hv]. split; [done|].
    intros ix Hix. apply elem_of_cons in Hix as [->|Hix]; [done|].
    rewrite <- Ht. by apply Hr.
Qed.

(** X11.  In a variable declaration that is accepted, the declared type of
    the variable at position [i] is the type at position [i] of the current
    expression, or the default type when there is no such position.  With a
    value, the types are those its walk left; with no value, nothing resets
    them and they are those the last walked expression left before the
    declaration. *)
Theorem accepted_declaration_types cfg addr loc variables value st st' :
  walk_Statement cfg (SVariableDeclaration addr loc variables value) st = Normal true st' →
  ∃ given,
    match value with
    | Some e =>
        ∃ st0 st1, notifyResolver cfg variables st = Normal tt st0 ∧
                   walk_Expression cfg e st0 = Normal true st1 ∧
                   given = m_typeOfCurrentExpression st1
    | None => given = m_typeOfCurrentExpression st
    end ∧
    ∀ i v, variables !! i = Some v →
      tn_type v = default (defaultType (m_dialect cfg)) (given !! i).
Proof.
  simpl. unfold visit_VariableDeclaration. intros H.
  apply bind_Normal in H as ([] & st0 & Hnotify & H).
  apply bind_Normal in H as (proceed & st1 & Hvalue & H).
  destruct proceed as [success|]; [|by apply ret_Normal in H as [? _]].
  apply bind_Normal in H as (s' & st2 & Hloop & H). run_inv.
  unfold forEachIndexed in Hloop. apply declareVariables_types in Hloop as (-> & Htypes).
  exists (m_typeOfCurrentExpression st1). split.
  - destruct value as [e|]; simpl in Hvalue.
    + exists st0, st1. split; [done|]. split; [|done].
      unfold declaredValue, declarationError in Hvalue. run_inv'; by simplify_eq.
    + apply reportsOnly_notifyResolver in Hnotify as (_ & _ & _ & _ & Ht & _).
      unfold declaredValue in Hvalue. run_inv. simpl. done.
  - intros i v Hv. apply (Htypes (i, v)).
    apply list_elem_of_lookup. exists i. apply lookup_zip_Some. split; [|done].
    apply lookup_seq. split; [done|]. by eapply lookup_lt_Some.
Qed.

Lemma accepted_declaration_types_witness :
  ∃ st', walk_Statement Examples.cfg Examples.boolDeclaration Examples.afterBool
         = Normal true st' ∧
         ∃ given, given = ["bool"] ∧
           ∀ i v, [Examples.typed 3 "x" "bool"] !! i = Some v →
             tn_type v = default "u256" (given !! i).
Proof.
  assert (∃ st', walk_Statement Examples.cfg Examples.boolDeclaration Examples.afterBool
                 = Normal true st') as [st' Hrun] by (eexists; vm_compute; reflexivity).
  exists st'. split; [exact Hrun|].
  destruct (accepted_declaration_types _ _ _ _ _ _ _ Hrun) as (given & Hg & Ht).
  exists given. split; [exact Hg | exact Ht].
Defined.

(** ** Stack heights of accepted statements *)

Lemma visit_Block_true_height addr loc walkStatements st st' :
  visit_Block addr loc walkStatements st = Normal true st' →
  m_stackHeight st' = m_stackHeight st.
Proof.
  unfold visit_Block, declarationError. intros H.
  run_inv'; simpl in *; count_diagnostics; try done; lia.
Qed.

Lemma walk_Block_true_height cfg b st st' :
  walk_Block cfg b st = Normal true st' → m_stackHeight st' = m_stackHeight st.
Proof. destruct b. apply visit_Block_true_height. Qed.

(** The stack height an accepted statement leaves, handler by handler. *)
Lemma walk_Statement_true_height cfg s st st' :
  walk_Statement cfg s st = Normal true st' →
  m_stackHeight st' = m_stackHeight st + Z.of_nat (declaredVariables s).
Proof.
  destruct s as [addr loc e|addr loc names value|addr loc vars value
                |addr loc name ps rs body|addr loc c body|addr loc e cases
                |addr loc pre c post body|addr loc|addr loc|addr loc|b]; simpl; intros H.
  - unfold visit_ExpressionStatement in H. run_inv'; simpl in *; count_diagnostics; try done; lia.
  - unfold visit_Assignment, declarationError in H.
    run_inv'; simpl in *; count_diagnostics; try done.
    match goal with
    | H : forEachIndexed _ _ _ _ = Normal _ _ |- _ => apply assignTargets_height in H
    end. lia.
  - by apply visit_VariableDeclaration_height in H.
  - unfold visit_FunctionDefinition in H.
    apply bind_Normal in H as (? & ? & Hassert & H). apply yulAssert_Normal in Hassert as [_ ->].
    apply bind_Normal in H as (vb & st1 & Hvb & H).
    assert (st1 = st) as -> by (destruct (virtualBlocks (m_info st) !! addr) as [[?|]|]; by simplify_eq).
    apply bind_Normal in H as (varScope & ? & Hscope & H). apply scope_Normal in Hscope as [_ ->].
    apply bind_Normal in H as ([] & st2 & Hloop & H).
    apply (forEach_invariant marksOnly) in Hloop as (Hh & _);
      [|apply marksOnly_refl|apply marksOnly_trans|].
    + run_inv. simpl. lia.
    + intros v [] st3 [] st4 _ Hstep.
      apply bind_Normal in Hstep as ([] & st5 & Hvalid & Hstep).
      apply reportsOnly_expectValidType, marksOnly_reportsOnly in Hvalid.
      apply activateVariable_marksOnly in Hstep. by eapply marksOnly_trans.
  - unfold visit_If in H. run_inv'.
    match goal with
    | H : walk_Block _ _ _ = Normal ?b _ |- _ =>
        destruct b; [apply walk_Block_true_height in H|by rewrite andb_false_r in *]
    end. simpl in *. lia.
  - unfold visit_Switch in H. run_inv'; simpl; lia.
  - unfold visit_ForLoop in H. run_inv'; simpl; lia.
  - unfold visit_Marker in H. run_inv. simpl. lia.
  - unfold visit_Marker in H. run_inv. simpl. lia.
  - unfold visit_Marker in H. run_inv. simpl. lia.
  - apply walk_Block_true_height in H. lia.
Qed.

(** X12.  A statement that is accepted leaves the stack height where it was,
    except a variable declaration, which leaves it raised by the number of
    variables it declares. *)
Theorem accepted_statement_height cfg s st st' :
  walk_Statement cfg s st = Normal true st' →
  m_stackHeight st' = m_stackHeight st + Z.of_nat (declaredVariables s).
Proof. apply walk_Statement_true_height. Qed.

Lemma accepted_statement_height_witness :
  ∃ st', walk_Statement Examples.cfg Examples.loop
           (set_currentScope (Some Examples.outerScope) (Examples.fresh Examples.loopInfo))
         = Normal true st' ∧
         m_stackHeight st' = 0.
Proof.
  assert (∃ st', walk_Statement Examples.cfg Examples.loop
                   (set_currentScope (Some Examples.outerScope) (Examples.fresh Examples.loopInfo))
                 = Normal true st') as [st' Hrun] by (eexists; vm_compute; reflexivity).
  exists st'. split; [exact Hrun|].
  exact (accepted_statement_height _ _ _ _ Hrun).
Defined.

Lemma runsAll_true_height cfg statements st b st' :
  runsAll (walk_Statement cfg) statements st b st' → b = true →
  m_stackHeight st' = m_stackHeight st + Z.of_nat (sum_list (declaredVariables <$> statements)).
Proof.
  induction 1 as [st|s r st ok st1 b st' Hs Hr IH]; intros Hb; [simpl; lia|].
  apply andb_true_iff in Hb as [-> ->].
  apply walk_Statement_true_height in Hs. specialize (IH eq_refl).
  change (sum_list (declaredVariables <$> s :: r))
    with (declaredVariables s + sum_list (declaredVariables <$> r))%nat.
  lia.
Qed.

(** X13.  A block is accepted only when the scope that the scope filler
    attached to it holds exactly as many variables as the declarations among
    the statements of the block declare: the balance check of the block
    handler compares the two counts. *)
Theorem accepted_block_scope_counts_declarations cfg addr loc statements blockScope st st' :
  scopes (m_info st) !! addr = Some blockScope →
  walk_Block cfg (MkBlock addr loc statements) st = Normal true st' →
  numberOfVariables blockScope = sum_list (declaredVariables <$> statements).
Proof.
  intros Hscope H. simpl in H. unfold visit_Block in H.
  apply bind_Normal in H as (previousScope & ? & Hp & H). apply gets_Normal in Hp as [-> ->].
  apply bind_Normal in H as (sc & ? & Hsc & H). apply scope_Normal in Hsc as [Hsc ->].
  rewrite Hscope in Hsc. injection Hsc as <-.
  apply bind_Normal in H as ([] & ? & Hset & H). apply modify_Normal in Hset as ->.
  apply bind_Normal in H as (h0 & ? & Hh & H). apply gets_Normal in Hh as [-> ->].
  apply bind_Normal in H as (success & st1 & Hloop & H).
  pose proof (grows_walk_Statements cfg statements (set_currentScope (Some blockScope) st)) as Hg.
  unfold walk_Statements in Hg. rewrite Hloop in Hg. destruct Hg as (_ & _ & _ & Hs & _).
  apply bind_Normal in H as (sc' & ? & Hsc & H). apply scope_Normal in Hsc as [Hsc ->].
  rewrite Hs in Hsc. simpl in Hsc. rewrite Hscope in Hsc. injection Hsc as <-.
  apply forEach_runsAll in Hloop as (b' & Hruns & ->).
  unfold declarationError in H. run_inv'; simpl in *; count_diagnostics; try done.
  apply runsAll_true_height in Hruns; [|done]. simpl in Hruns. subst b'.
  match goal with
  | Hc : true && bool_decide _ = false |- _ => simpl in Hc; apply bool_decide_eq_false in Hc
  end.
  lia.
Qed.

Lemma accepted_block_scope_counts_declarations_witness :
  ∃ st', walk_Block Examples.cfg Examples.program1 (Examples.fresh Examples.info1)
         = Normal true st' ∧
         numberOfVariables Examples.scope1 =
           sum_list (declaredVariables <$> block_statements Examples.program1).
Proof.
  assert (∃ st', walk_Block Examples.cfg Examples.program1 (Examples.fresh Examples.info1)
                 = Normal true st') as [st' Hrun] by (eexists; vm_compute; reflexivity).
  exists st'. split; [exact Hrun|].
  exact (accepted_block_scope_counts_declarations Examples.cfg 1 1 _ Examples.scope1
           (Examples.fresh Examples.info1) st' eq_refl Hrun).
Defined.

(** ** Calls *)

Lemma expectType_true e g loc st st' :
  expectType e g loc st = Normal true st' → e = g ∧ st' = st.
Proof.
  unfold expectType, typeError. intros H. run_inv'; try done.
  count_diagnostics. split; [|done]. by destruct (decide (e = g)).
Qed.

Lemma expectExpression_true walk loc st st' :
  expectExpression walk loc st = Normal true st' →
  walk st = Normal true st' ∧ m_stackHeight st' = m_stackHeight st + 1.
Proof.
  unfold expectExpression, expectDeposit, typeError. intros H.
  run_inv'; try done. count_diagnostics. split; [done|]. lia.
Qed.

Lemma expectCondition_true cfg walk loc st st' :
  expectCondition cfg walk loc st = Normal true st' →
  walk st = Normal true st' ∧ m_stackHeight st' = m_stackHeight st + 1 ∧
  ∃ rest, m_typeOfCurrentExpression st' = boolType (m_dialect cfg) :: rest.
Proof.
  unfold expectCondition. intros H.
  apply bind_Normal in H as (ok & st1 & Hexpr & H). destruct ok; [|by run_inv].
  apply expectExpression_true in Hexpr as [Hwalk Hh].
  apply bind_Normal in H as (ty & st2 & Hty & H).
  unfold typeOfCurrentExpression_at0 in Hty.
  destruct (m_typeOfCurrentExpression st1) as [|t rest] eqn:Ht; [done|].
  injection Hty as <- <-. apply expectType_true in H as [<- ->]. eauto.
Qed.

Lemma resolveCallee_true cfg fn st ps rs lit st' :
  resolveCallee cfg fn st = Normal (true, ps, rs, lit) st' →
  st' = st ∧ ∃ p r, ps = Some p ∧ rs = Some r ∧
    calleeSignature cfg (m_currentScope st) (id_name fn) = Some (p, r).
Proof.
  unfold resolveCallee, calleeSignature, typeError, declarationError. intros H.
  destruct (builtin (m_dialect cfg) (id_name fn)) as [f|].
  - apply ret_Normal in H as [[= -> -> ->] ->]. split; [done|]. by eexists _, _.
  - apply bind_Normal in H as (sc & st1 & Hsc & H).
    unfold currentScope in Hsc. destruct (m_currentScope st) as [sc'|]; [|done].
    injection Hsc as <- <-.
    destruct (Scope_lookup sc' (id_name fn)) as [[a [ty|arguments returns]]|]; run_inv'.
    split; [done|]. by eexists _, _.
Qed.

Lemma argumentStep_true cfg fn lit arg walk s tys st tys' st' :
  argumentStep cfg fn lit arg walk (s, tys) st = Normal (true, tys') st' →
  s = true ∧ ∃ st1, walk st = Normal true st1 ∧
    m_stackHeight st' = m_stackHeight st + 1 ∧ reportsOnly st1 st' ∧
    length tys' = S (length tys).
Proof.
  unfold argumentStep. intros H.
  apply bind_Normal in H as (ok & st1 & Hexpr & H). destruct ok; [|by run_inv].
  apply expectExpression_true in Hexpr as [Hwalk Hh].
  apply bind_Normal in H as (ty & st2 & Hty & H).
  assert (st2 = st1) as -> by (by run_inv').
  apply bind_Normal in H as ([] & st3 & Hlit & H). apply ret_Normal in H as [Heq ->].
  simplify_eq. split; [done|]. exists st1. split; [done|].
  assert (reportsOnly st1 st3) as Hr.
  { unfold typeError in Hlit. run_inv'; try apply reportsOnly_refl; by repeat split. }
  split; [destruct Hr as [Hr _]; lia|]. split; [done|].
  rewrite length_app. simpl. lia.
Qed.

(** The loop over the arguments, when it ends with the flag raised, started with
    it raised and raised the height by one for each argument. *)
Lemma walkArguments_true_height cfg fn lit (walk : Expression → M bool) args :
  ∀ s tys st tys' st',
    forEachReversed (λ arg, argumentStep cfg fn lit arg (walk arg)) args (s, tys) st
      = Normal (true, tys') st' →
    s = true ∧
    m_stackHeight st' = m_stackHeight st + Z.of_nat (length args) ∧
    length tys' = (length tys + length args)%nat.
Proof.
  induction args as [|arg r IH]; intros s tys st tys' st' H; simpl in H.
  - apply ret_Normal in H as [Heq ->]. simplify_eq. simpl. repeat split; lia.
  - apply bind_Normal in H as ([s1 tys1] & st1 & Hrest & Hstep).
    apply argumentStep_true in Hstep as (-> & st2 & _ & Hh & _ & Hl).
    apply IH in Hrest as (-> & Hh' & Hl'). rewrite length_cons. repeat split; lia.
Qed.

Lemma expectParameterTypes_true ps tys args st st' :
  expectParameterTypes ps tys args st = Normal true st' → st' = st.
Proof.
  unfold expectParameterTypes. intros H.
  apply (forEach_true (λ _, True)) in H as (_ & -> & _); [done|].
  intros i s st0 s' st1 Hstep ->.
  destruct (ps !! i), (tys !! i), (args !! i); try done.
  apply bind_Normal in Hstep as (ok & st2 & Htype & Hstep).
  apply ret_Normal in Hstep as [Hs ->]. symmetry in Hs. apply andb_true_iff in Hs as [-> ->].
  by apply expectType_true in Htype as [_ ->].
Qed.

(** The run of an accepted call: its callee, the loop over its arguments and the
    state it leaves. *)
Lemma visit_FunctionCall_true cfg addr loc fn args st st' :
  walk_Expression cfg (EFunctionCall addr loc fn args) st = Normal true st' →
  ∃ parameters returns lit tys st1,
    calleeSignature cfg (m_currentScope st) (id_name fn) = Some (parameters, returns) ∧
    length args = length parameters ∧
    forEachReversed (λ arg, argumentStep cfg fn lit arg (walk_Expression cfg arg)) args
      (true, []) st = Normal (true, tys) st1 ∧
    m_stackHeight st1 = m_stackHeight st + Z.of_nat (length args) ∧
    st' = set_typeOfCurrentExpression returns
            (recordStackHeight addr
               (set_stackHeight
                  (m_stackHeight st1 +
                   (Z.of_nat (length returns) - Z.of_nat (length args))) st1)).
Proof.
  simpl. unfold visit_FunctionCall. intros H.
  apply bind_Normal in H as (? & ? & Hassert & H). apply yulAssert_Normal in Hassert as [_ ->].
  apply bind_Normal in H as ([[[success ps] rs] lit] & st1 & Hcallee & H).
  apply bind_Normal in H as (s1 & st2 & Hcount & H).
  apply bind_Normal in H as ([s2 tys] & st3 & Hargs & H).
  apply bind_Normal in H as (s3 & st4 & Hcheck & H).
  apply bind_Normal in H as ([] & st5 & Hadd & H). apply addToStackHeight_Normal in Hadd as ->.
  apply bind_Normal in H as ([] & st6 & Hrec & H). apply modify_Normal in Hrec as ->.
  destruct s3; [|destruct rs; run_inv; done].
  destruct s2; [|by apply ret_Normal in Hcheck as [? _]].
  pose proof Hargs as Hargs'.
  apply walkArguments_true_height in Hargs' as (-> & Hh & _).
  destruct success; [|by apply ret_Normal in Hcount as [? _]].
  apply resolveCallee_true in Hcallee as (-> & p & r & -> & -> & Hsig).
  unfold typeError in Hcount.
  destruct (bool_decide (length args ≠ length p)) eqn:Hlen; [by run_inv|].
  apply ret_Normal in Hcount as [_ ->]. apply bool_decide_eq_false in Hlen.
  apply bind_Normal in Hcheck as ([] & ? & Hassert & Hcheck).
  apply yulAssert_Normal in Hassert as [_ ->].
  apply expectParameterTypes_true in Hcheck as ->.
  run_inv. exists p, r, lit, tys, st3.
  repeat split; try done. by destruct (decide (length args = length p)).
Qed.

(** X14.  A call that is accepted has a callee with a signature, that of a
    built-in of the dialect or else that of a function of the scope chain,
    and as many arguments as the signature has parameters.  The type of the
    current expression is then the list of return types, the stack height is
    raised by the number of return types, and that height is recorded for the
    call. *)
Theorem accepted_call_matches_signature cfg addr loc fn args st st' :
  walk_Expression cfg (EFunctionCall addr loc fn args) st = Normal true st' →
  ∃ parameters returns,
    calleeSignature cfg (m_currentScope st) (id_name fn) = Some (parameters, returns) ∧
    length args = length parameters ∧
    m_typeOfCurrentExpression st' = returns ∧
    m_stackHeight st' = m_stackHeight st + Z.of_nat (length returns) ∧
    stackHeightInfo (m_info st') !! addr = Some (m_stackHeight st').
Proof.
  intros H. apply visit_FunctionCall_true in H as (p & r & lit & tys & st1 & ? & ? & _ & Hh & ->).
  exists p, r. simpl. rewrite lookup_insert_eq. repeat split; try done. lia.
Qed.

Lemma accepted_call_matches_signature_witness :
  ∃ st' parameters returns,
    walk_Expression Examples.cfg Examples.xPlusOne Examples.afterX = Normal true st' ∧
    calleeSignature Examples.cfg (Some Examples.scope1) "add" = Some (parameters, returns) ∧
    m_typeOfCurrentExpression st' = returns.
Proof.
  assert (∃ st', walk_Expression Examples.cfg Examples.xPlusOne Examples.afterX = Normal true st')
    as [st' Hrun] by (eexists; vm_compute; reflexivity).
  destruct (accepted_call_matches_signature _ _ _ _ _ _ _ Hrun)
    as (parameters & returns & Hsig & _ & Ht & _).
  exists st', parameters, returns. split; [exact Hrun|]. split; [exact Hsig | exact Ht].
Defined.

(** X15.  With no resolver, an expression that is accepted raises the stack
    height by the number of types it leaves as the type of the current
    expression: one for a literal and for a variable, the number of return
    types for a call. *)
Theorem accepted_expression_pushes_its_types cfg e st st' :
  m_resolver cfg = None →
  walk_Expression cfg e st = Normal true st' →
  m_stackHeight st' = m_stackHeight st + Z.of_nat (length (m_typeOfCurrentExpression st')).
Proof.
  intros Hr H. destruct e as [l|i|addr loc fn args].
  - simpl in H. apply visit_Literal_run in H as (_ & Hh & Ht).
    destruct (Ht eq_refl) as [-> _]. simpl. lia.
  - simpl in H.
    assert (∃ sc, m_currentScope st = Some sc) as [sc Hsc].
    { destruct (m_currentScope st) as [sc|] eqn:Hsc; [by eauto|].
      unfold visit_Identifier in H.
      apply bind_Normal in H as (? & ? & Hassert & H). apply yulAssert_Normal in Hassert as [_ ->].
      apply bind_Normal in H as (? & ? & Hn & H). apply gets_Normal in Hn as [_ ->].
      apply bind_Normal in H as (? & ? & Hty & H). apply modify_Normal in Hty as ->.
      apply bind_Normal in H as (? & ? & Hcur & H).
      unfold currentScope in Hcur. simpl in Hcur. by rewrite Hsc in Hcur. }
    destruct (visit_Identifier_true _ _ _ _ _ Hsc H)
      as [(a & ty & _ & _ & -> & ->)|(_ & r & Hr' & _)]; [done|congruence].
  - apply visit_FunctionCall_true in H as (p & r & lit & tys & st1 & _ & _ & _ & Hh & ->).
    simpl. lia.
Qed.

Lemma accepted_expression_pushes_its_types_witness :
  ∃ st', walk_Expression Examples.cfg Examples.xPlusOne Examples.afterX = Normal true st' ∧
         m_stackHeight st' = 1 + Z.of_nat (length (m_typeOfCurrentExpression st')).
Proof.
  assert (∃ st', walk_Expression Examples.cfg Examples.xPlusOne Examples.afterX = Normal true st')
    as [st' Hrun] by (eexists; vm_compute; reflexivity).
  exists st'. split; [exact Hrun|].
  exact (accepted_expression_pushes_its_types Examples.cfg _ _ _ eq_refl Hrun).
Defined.

(** X27.  For a built-in that needs literal arguments, an argument that
    was accepted and is not a literal gets the type error "Function expects
    direct literals as arguments.", and a literal that names no known data
    object gets "Unknown data object ...", both at the name of the callee.
    Neither lowers the success flag of the call: the round of the argument
    loop ends with the flag it started with and with the type of the
    argument collected, unless the reporter raises its fatal error. *)
Theorem literal_argument_check_reports_without_rejecting
    cfg fn arg walk success argTypes st st1 t rest :
  expectExpression walk (locationOf arg) st = Normal true st1 →
  m_typeOfCurrentExpression st1 = t :: rest →
  argumentStep cfg fn true arg walk (success, argTypes) st =
    match literalArgumentError cfg fn arg with
    | None => Normal (success, argTypes ++ [t]) st1
    | Some e =>
        let st2 := add_error e st1 in
        if overCapacity (m_errorReporter st2) then FatalError st2
        else Normal (success, argTypes ++ [t]) st2
    end.
Proof.
  intros Hexpr Ht. unfold argumentStep. rewrite (bind_run _ _ _ _ _ Hexpr).
  unfold mbind at 1, M_bind at 1. unfold typeOfCurrentExpression_at0 at 1. rewrite Ht.
  unfold literalArgumentError, when, typeError.
  destruct arg as [l|i|addr loc fn' args].
  - destruct (bool_decide (lit_value l ∈ m_dataNames cfg)); simpl; [done|].
    unfold mbind, M_bind. rewrite error_run. simpl. by destruct (overCapacity _).
  - unfold mbind, M_bind. rewrite error_run. simpl. by destruct (overCapacity _).
  - unfold mbind, M_bind. rewrite error_run. simpl. by destruct (overCapacity _).
Qed.

Lemma literal_argument_check_reports_without_rejecting_witness :
  let arg := EIdentifier (Examples.ident 9 "x") in
  let fn := Examples.ident 8 "datasize" in
  ∃ st1,
    expectExpression (walk_Expression Examples.cfg arg) (locationOf arg) Examples.afterX
    = Normal true st1 ∧
    argumentStep Examples.cfg fn true arg (walk_Expression Examples.cfg arg) (true, [])
      Examples.afterX =
      (let st2 := add_error {| err_type := TypeError; err_location := 8;
                               err_message := "Function expects direct literals as arguments." |}
                            st1 in
       if overCapacity (m_errorReporter st2) then FatalError st2
       else Normal (true, ["u256"]) st2).
Proof.
  intros arg fn.
  assert (∃ st1, expectExpression (walk_Expression Examples.cfg arg) (locationOf arg)
                   Examples.afterX = Normal true st1 ∧
                 m_typeOfCurrentExpression st1 = ["u256"])
    as (st1 & Hrun & Ht) by (eexists; split; vm_compute; reflexivity).
  exists st1. split; [exact Hrun|].
  exact (literal_argument_check_reports_without_rejecting Examples.cfg fn arg _ true []
           Examples.afterX st1 "u256" [] Hrun Ht).
Defined.

(** X16.  When the legacy-instruction check returns true it has added
    exactly one diagnostic, at the location it was given: a type error for an
    instruction the target machine lacks, or the syntax error about jumps.
    When it returns false the state is untouched. *)
Theorem warnOnInstructions_true_iff_reported cfg name loc st b st' :
  warnOnInstructions cfg name loc st = Normal b st' →
  if b then
    ∃ e, st' = add_error e st ∧ err_location e = loc ∧
         (err_type e = TypeError ∨
          err_type e = SyntaxError ∧ err_message e = jumpMessage)
  else st' = st.
Proof.
  unfold warnOnInstructions, warnOnInstructions_instr, errorForVM, typeError. intros H.
  run_inv'; try done; eexists; (split; [reflexivity|]); simpl; auto.
Qed.

Lemma warnOnInstructions_true_iff_reported_witness :
  let st := Examples.fresh Examples.emptyInfo in
  ∃ st' e, warnOnInstructions Examples.cfg "jump" 4 st = Normal true st' ∧
           st' = add_error e st ∧ err_location e = 4%N.
Proof.
  intros st.
  assert (∃ st', warnOnInstructions Examples.cfg "jump" 4 st = Normal true st')
    as [st' Hrun] by (eexists; vm_compute; reflexivity).
  destruct (warnOnInstructions_true_iff_reported _ _ _ _ _ _ Hrun) as (e & He & Hloc & _).
  exists st', e. split; [exact Hrun|]. split; [exact He | exact Hloc].
Defined.

(** X17.  When the name of a callee is neither a built-in of the dialect nor
    bound in the scope chain, the resolution of the callee leaves the callee
    without parameter and return types and adds exactly one diagnostic, at
    the location of the name.  The legacy-instruction check is run on the
    name from the state the resolution started with: when it returns true,
    the diagnostic is the one it recorded, a type error or the syntax error
    on jumps, and nothing is added; when it returns false, it has recorded
    nothing and the diagnostic is the declaration error "Function not
    found.".  The latter is always the case when the reference dialect does
    not know the name either. *)
Theorem unresolved_callee_reports_once cfg fn sc st r st' :
  builtin (m_dialect cfg) (id_name fn) = None →
  m_currentScope st = Some sc →
  Scope_lookup sc (id_name fn) = None →
  resolveCallee cfg fn st = Normal r st' →
  r = (false, None, None, false) ∧
  (∃ warned st1,
     warnOnInstructions cfg (id_name fn) (id_location fn) st = Normal warned st1 ∧
     if warned then
       st' = st1 ∧
       ∃ e, st1 = add_error e st ∧ err_location e = id_location fn ∧
            (err_type e = TypeError ∨
             err_type e = SyntaxError ∧ err_message e = jumpMessage)
     else
       st1 = st ∧
       st' = add_error {| err_type := DeclarationError; err_location := id_location fn;
                          err_message := "Function not found." |} st) ∧
  ∃ e, st' = add_error e st ∧ err_location e = id_location fn ∧
       (strictAssemblyBuiltin cfg (id_name fn) = None →
        e = {| err_type := DeclarationError; err_location := id_location fn;
               err_message := "Function not found." |}).
Proof.
  intros Hbuiltin Hsc Hlookup H. unfold resolveCallee in H. rewrite Hbuiltin in H.
  apply bind_Normal in H as (sc' & ? & Hcur & H).
  unfold currentScope in Hcur. rewrite Hsc in Hcur. injection Hcur as <- <-.
  rewrite Hlookup in H.
  apply bind_Normal in H as (warned & st1 & Hwarn & H).
  apply bind_Normal in H as ([] & st2 & Herr & H). apply ret_Normal in H as [-> ->].
  split; [done|].
  assert (Hw : if warned then
                 ∃ e, st1 = add_error e st ∧ err_location e = id_location fn ∧
                      (err_type e = TypeError ∨
                       err_type e = SyntaxError ∧ err_message e = jumpMessage) ∧
                      is_Some (strictAssemblyBuiltin cfg (id_name fn))
               else st1 = st).
  { pose proof Hwarn as Hwarn'. unfold warnOnInstructions in Hwarn'.
    destruct (strictAssemblyBuiltin cfg (id_name fn)) as [[instr|]|]; [|done|by run_inv].
    unfold warnOnInstructions_instr, errorForVM, typeError in Hwarn'.
    run_inv'; try done; eexists; (split; [reflexivity|]); simpl; eauto. }
  destruct warned; simpl in Herr.
  - apply ret_Normal in Herr as [_ ->]. destruct Hw as (e & -> & Hloc & Hkind & Hsome).
    split.
    + exists true, (add_error e st). split; [done|]. split; [done|]. by exists e.
    + exists e. split; [done|]. split; [done|]. intros Hnone. rewrite Hnone in Hsome.
      by destruct Hsome.
  - unfold declarationError in Herr. apply error_Normal in Herr as ->. subst st1.
    split.
    + by exists false, st.
    + eexists. split; [reflexivity|]. by split.
Qed.

Lemma unresolved_callee_reports_once_witness :
  let st := set_currentScope (Some Examples.outerScope) (Examples.fresh Examples.emptyInfo) in
  ∃ st', resolveCallee Examples.cfg (Examples.ident 4 "shl") st
         = Normal (false, None, None, false) st' ∧
         warnOnInstructions Examples.cfg "shl" 4 st = Normal false st ∧
         st' = add_error {| err_type := DeclarationError; err_location := 4;
                            err_message := "Function not found." |} st.
Proof.
  intros st.
  assert (∃ st', resolveCallee Examples.cfg (Examples.ident 4 "shl") st
                 = Normal (false, None, None, false) st')
    as [st' Hrun] by (eexists; vm_compute; reflexivity).
  exists st'. split; [exact Hrun|].
  destruct (unresolved_callee_reports_once Examples.cfg (Examples.ident 4 "shl")
              Examples.outerScope st _ st' eq_refl eq_refl eq_refl Hrun)
    as (_ & (warned & st1 & Hwarn & Hcase) & _).
  assert (Hcomputed : warnOnInstructions Examples.cfg "shl" 4 st = Normal false st)
    by (vm_compute; reflexivity).
  split; [exact Hcomputed|].
  pose proof (eq_trans (eq_sym Hcomputed) Hwarn) as Heq. injection Heq as <- <-.
  exact (proj2 Hcase).
Defined.

(** ** Conditions, switches and function definitions *)

(** X18.  In an [if] that is accepted, the condition is accepted, it raises
    the stack height by exactly one and the first type it leaves is the
    boolean type of the dialect; the body is walked from the height the
    statement was entered with, the value of the condition dropped, and is
    accepted too. *)
Theorem accepted_if_has_boolean_condition cfg addr loc condition body st st' :
  walk_Statement cfg (SIf addr loc condition body) st = Normal true st' →
  ∃ st1 rest st2,
    walk_Expression cfg condition st = Normal true st1 ∧
    m_stackHeight st1 = m_stackHeight st + 1 ∧
    m_typeOfCurrentExpression st1 = boolType (m_dialect cfg) :: rest ∧
    walk_Block cfg body (set_stackHeight (m_stackHeight st) st1) = Normal true st2 ∧
    st' = recordStackHeight addr st2.
Proof.
  simpl. unfold visit_If. intros H.
  apply bind_Normal in H as (h & ? & Hh & H). apply gets_Normal in Hh as [-> ->].
  apply bind_Normal in H as (success & st1 & Hcond & H).
  apply bind_Normal in H as ([] & ? & Hset & H). apply modify_Normal in Hset as ->.
  apply bind_Normal in H as (okBody & st2 & Hbody & H).
  apply bind_Normal in H as ([] & ? & Hrec & H). apply modify_Normal in Hrec as ->.
  apply ret_Normal in H as [Hb ->]. symmetry in Hb. apply andb_true_iff in Hb as [-> ->].
  apply expectCondition_true in Hcond as (Hwalk & Hh & rest & Ht).
  by exists st1, rest, st2.
Qed.

Lemma accepted_if_has_boolean_condition_witness :
  ∃ st' st1, walk_Statement Examples.cfg Examples.ifTrue Examples.insideIf = Normal true st' ∧
             walk_Expression Examples.cfg (ELiteral (Examples.trueLiteral 3)) Examples.insideIf
             = Normal true st1 ∧
             m_stackHeight st1 = 1.
Proof.
  assert (∃ st', walk_Statement Examples.cfg Examples.ifTrue Examples.insideIf = Normal true st')
    as [st' Hrun] by (eexists; vm_compute; reflexivity).
  destruct (accepted_if_has_boolean_condition _ _ _ _ _ _ _ Hrun)
    as (st1 & rest & st2 & Hwalk & Hh & _).
  exists st', st1. split; [exact Hrun|]. split; [exact Hwalk | exact Hh].
Defined.

(** The loop of the switch handler over the cases, when it ends with the flag
    raised: every case literal was accepted by the literal handler. *)
Lemma walk_Cases_true cfg cases : ∀ s seen st seen' st',
  forEach (walk_Case cfg) cases (s, seen) st = Normal (true, seen') st' →
  s = true ∧ ∀ c l, c ∈ cases → case_value c = Some l → literalValid l = true.
Proof.
  induction cases as [|c r IH]; intros s seen st seen' st' H; simpl in H.
  - apply ret_Normal in H as [Heq _]. simplify_eq. split; [done|].
    intros c l Hc. by apply elem_of_nil in Hc.
  - apply bind_Normal in H as ([s1 seen1] & st1 & Hstep & H).
    apply IH in H as (-> & Hr). destruct c as [loc value body]. simpl in Hstep.
    unfold visit_Case in Hstep.
    apply bind_Normal in Hstep as ([s2 seen2] & st2 & Hvalue & Hstep).
    apply bind_Normal in Hstep as (okBody & st3 & Hbody & Hstep).
    apply ret_Normal in Hstep as [Heq _]. injection Heq as Hs <-.
    symmetry in Hs. apply andb_true_iff in Hs as [-> ->].
    assert (s = true ∧ ∀ l, value = Some l → literalValid l = true) as [-> Hv].
    { destruct value as [l|]; [|by run_inv].
      apply bind_Normal in Hvalue as (h & ? & Hh & Hvalue). apply gets_Normal in Hh as [-> ->].
      apply bind_Normal in Hvalue as (ok & st4 & Hlit & Hvalue).
      apply visit_Literal_returns_literalValid in Hlit.
      unfold declarationError in Hvalue. run_inv'; simplify_eq.
      split; [done|]. by intros l' [= <-]. }
    split; [done|]. intros c l Hc Hl. apply elem_of_cons in Hc as [->|Hc]; [|by eapply Hr].
    by apply Hv.
Qed.

(** X19.  In a [switch] that is accepted, the scrutinee is accepted and
    raises the stack height by exactly one; every case literal has the first
    type the scrutinee left and is within the bounds of the literal handler;
    and no two case literals have the same value. *)
Theorem accepted_switch_cases_typed_and_distinct cfg addr loc expression cases st st' :
  walk_Statement cfg (SSwitch addr loc expression cases) st = Normal true st' →
  ∃ st1 valueType rest,
    walk_Expression cfg expression st = Normal true st1 ∧
    m_stackHeight st1 = m_stackHeight st + 1 ∧
    m_typeOfCurrentExpression st1 = valueType :: rest ∧
    (∀ c l, c ∈ cases → case_value c = Some l →
       lit_type l = valueType ∧ literalValid l = true) ∧
    (∀ i j ci cj li lj, (i < j)%nat →
       cases !! i = Some ci → cases !! j = Some cj →
       case_value ci = Some li → case_value cj = Some lj →
       valueOfLiteral cfg li ≠ valueOfLiteral cfg lj).
Proof.
  simpl. unfold visit_Switch. intros H.
  apply bind_Normal in H as (h & ? & Hh & H). apply gets_Normal in Hh as [-> ->].
  apply bind_Normal in H as (s0 & st1 & Hexpr & H).
  apply bind_Normal in H as (valueType & st2 & Htype & H).
  apply bind_Normal in H as (s1 & st3 & Htypes & H).
  apply bind_Normal in H as ([s2 seen] & st4 & Hcases & H).
  apply bind_Normal in H as ([] & ? & Hset & H). apply modify_Normal in Hset as ->.
  apply bind_Normal in H as ([] & ? & Hrec & H). apply modify_Normal in Hrec as ->.
  apply ret_Normal in H as [<- ->].
  pose proof (walk_Cases_run _ _ _ _ _ _ _ _ Hcases) as (_ & _ & _ & Hin & Hdup).
  apply walk_Cases_true in Hcases as (-> & Hvalid).
  apply (forEach_true (λ c, ∀ l, case_value c = Some l → lit_type l = valueType))
    in Htypes as (-> & -> & Hty).
  2: { intros c s st5 s' st6 Hstep ->. destruct (case_value c) as [l|].
       - apply bind_Normal in Hstep as (ok & st7 & Hok & Hstep).
         apply ret_Normal in Hstep as [Hs ->]. symmetry in Hs.
         apply andb_true_iff in Hs as [-> ->]. apply expectType_true in Hok as [-> ->].
         split; [done|]. split; [done|]. by intros l' [= <-].
       - apply ret_Normal in Hstep as [-> ->]. by repeat split. }
  apply expectExpression_true in Hexpr as [Hwalk Hh].
  unfold typeOfCurrentExpression_at0 in Htype.
  destruct (m_typeOfCurrentExpression st1) as [|t rest] eqn:Ht; [done|].
  injection Htype as -> ->.
  exists st2, valueType, rest. split; [done|]. split; [done|]. split; [done|]. split.
  - intros c l Hc Hl. split; [|by eapply Hvalid].
    rewrite Forall_forall in Hty. by apply (Hty c).
  - intros i j ci cj li lj Hij Hi Hj Hli Hlj Heq.
    pose proof (Hvalid ci li (list_elem_of_lookup_2 _ _ _ Hi) Hli) as Hvi.
    pose proof (Hvalid cj lj (list_elem_of_lookup_2 _ _ _ Hj) Hlj) as Hvj.
    destruct (Hin ci li (list_elem_of_lookup_2 _ _ _ Hi) Hli Hvi) as (v & Hv & _).
    assert (Hv' : valueOfLiteral cfg lj = Some v) by congruence.
    by destruct (Hdup i j ci cj li lj v Hij Hi Hj Hli Hlj Hvi Hvj Hv Hv').
Qed.

Lemma accepted_switch_cases_typed_and_distinct_witness :
  ∃ st' st1,
    walk_Statement Examples.cfg Examples.distinctSwitch Examples.insideSwitch = Normal true st' ∧
    walk_Expression Examples.cfg (ELiteral (Examples.number 3 3 "1")) Examples.insideSwitch
    = Normal true st1.
Proof.
  assert (∃ st', walk_Statement Examples.cfg Examples.distinctSwitch Examples.insideSwitch
                 = Normal true st') as [st' Hrun] by (eexists; vm_compute; reflexivity).
  destruct (accepted_switch_cases_typed_and_distinct _ _ _ _ _ _ _ Hrun)
    as (st1 & _ & _ & Hwalk & _).
  exists st', st1. split; [exact Hrun | exact Hwalk].
Defined.



(** ** Stack-height entries of an accepted walk *)

Lemma keepsEntries_refl st : keepsEntries st st.
Proof. by intros n. Qed.

Lemma keepsEntries_trans a b c : keepsEntries a b → keepsEntries b c → keepsEntries a c.
Proof. intros H1 H2 n Hn. by apply H2, H1. Qed.

Lemma keepsEntries_info st st' : m_info st' = m_info st → keepsEntries st st'.
Proof. intros H n. by rewrite H. Qed.

Lemma keepsEntries_record a st : keepsEntries st (recordStackHeight a st).
Proof.
  intros n Hn. simpl. destruct (decide (n = a)) as [->|Hne].
  - by rewrite lookup_insert_eq.
  - by rewrite lookup_insert_ne.
Qed.

Lemma keepsEntries_walk_Expression cfg e : post keepsEntries anyState (walk_Expression cfg e).
Proof.
  apply post_walk_Expression;
    first [apply keepsEntries_refl | apply keepsEntries_trans | done
          | intros; apply keepsEntries_record | intros; by apply keepsEntries_info].
Qed.

Lemma keepsEntries_walk_Block cfg b : post keepsEntries anyState (walk_Block cfg b).
Proof.
  apply post_walk_Block;
    first [apply keepsEntries_refl | apply keepsEntries_trans | done
          | intros; apply keepsEntries_record | intros; by apply keepsEntries_info].
Qed.

Lemma keepsEntries_walk_Case cfg c acc : post keepsEntries anyState (walk_Case cfg c acc).
Proof.
  destruct c as [loc value body]. simpl.
  apply post_visit_Case;
    first [apply keepsEntries_refl | apply keepsEntries_trans | done
          | apply keepsEntries_walk_Block
          | intros; apply keepsEntries_record | intros; by apply keepsEntries_info].
Qed.

Lemma keepsEntries_walk_Statement cfg s : post keepsEntries anyState (walk_Statement cfg s).
Proof.
  apply post_walk_Statement;
    first [apply keepsEntries_refl | apply keepsEntries_trans | done
          | intros; apply keepsEntries_record | intros; by apply keepsEntries_info].
Qed.

Lemma annotated_nil st : annotated [] st.
Proof. intros n Hn. by apply elem_of_nil in Hn. Qed.

Lemma annotated_cons a ns st :
  is_Some (stackHeightInfo (m_info st) !! a) → annotated ns st → annotated (a :: ns) st.
Proof. intros Ha Hns n Hn. apply elem_of_cons in Hn as [->|Hn]; [done|by apply Hns]. Qed.

Lemma annotated_app ns1 ns2 st : annotated ns1 st → annotated ns2 st → annotated (ns1 ++ ns2) st.
Proof. intros H1 H2 n Hn. apply elem_of_app in Hn as [Hn|Hn]; [by apply H1|by apply H2]. Qed.

Lemma annotated_keeps ns st st' : keepsEntries st st' → annotated ns st → annotated ns st'.
Proof. intros Hk Hns n Hn. by apply Hk, Hns. Qed.

Lemma annotated_record a ns st : annotated ns st → annotated (a :: ns) (recordStackHeight a st).
Proof.
  intros Hns. apply annotated_cons; [simpl; by rewrite lookup_insert_eq|].
  eapply annotated_keeps; [apply keepsEntries_record|done].
Qed.

Lemma visit_Identifier_records cfg i st b st' :
  visit_Identifier cfg i st = Normal b st' →
  stackHeightInfo (m_info st') !! id_addr i = Some (m_stackHeight st').
Proof.
  unfold visit_Identifier. intros H.
  apply bind_Normal in H as (? & ? & _ & H).
  apply bind_Normal in H as (? & ? & _ & H).
  apply bind_Normal in H as (? & ? & _ & H).
  apply bind_Normal in H as (? & ? & _ & H).
  apply bind_Normal in H as (? & ? & _ & H).
  run_inv. simpl. by rewrite lookup_insert_eq.
Qed.

Lemma walkArguments_annotated cfg fn lit args :
  Forall (λ e, ∀ st st', walk_Expression cfg e st = Normal true st' →
                 annotated (nodes_Expression e) st') args →
  ∀ s tys st tys' st',
    forEachReversed (λ arg, argumentStep cfg fn lit arg (walk_Expression cfg arg)) args (s, tys) st
      = Normal (true, tys') st' →
    keepsEntries st st' ∧ annotated (concat (nodes_Expression <$> args)) st'.
Proof.
  induction 1 as [|arg r Harg _ IH]; intros s tys st tys' st' H; simpl in H.
  - apply ret_Normal in H as [_ ->]. split; [apply keepsEntries_refl|apply annotated_nil].
  - apply bind_Normal in H as ([s1 tys1] & st1 & Hrest & Hstep).
    apply argumentStep_true in Hstep as (-> & st2 & Hwalk & _ & (_ & _ & _ & Hi & _) & _).
    apply IH in Hrest as [Hk Hr].
    pose proof (post_run _ _ _ _ _ _ (keepsEntries_walk_Expression cfg arg) Hwalk) as Hk2.
    apply keepsEntries_info in Hi.
    split; [eauto using keepsEntries_trans|].
    rewrite fmap_cons. simpl. apply annotated_app.
    + eapply annotated_keeps; [exact Hi|]. by eapply Harg.
    + eapply annotated_keeps; [|exact Hr]. eauto using keepsEntries_trans.
Qed.

Lemma annotates_walk_Expression cfg e : annotates (nodes_Expression e) (walk_Expression cfg e).
Proof.
  induction e as [l|i|addr loc fn args IH] using Expression_nested_ind; intros st st' H.
  - simpl in H. apply visit_Literal_run in H as (_ & _ & Ht).
    destruct (Ht eq_refl) as [_ Hrec]. apply annotated_cons; [by rewrite Hrec|apply annotated_nil].
  - simpl in H. apply visit_Identifier_records in H.
    apply annotated_cons; [by rewrite H|apply annotated_nil].
  - apply visit_FunctionCall_true in H as (p & r & lit & tys & st1 & _ & _ & Hargs & _ & ->).
    apply (walkArguments_annotated _ _ _ _ IH) in Hargs as [_ Hargs].
    simpl. apply annotated_cons; [simpl; by rewrite lookup_insert_eq|].
    eapply annotated_keeps; [apply keepsEntries_record|].
    eapply annotated_keeps; [|exact Hargs]. by apply keepsEntries_info.
Qed.

Lemma annotates_visit_ExpressionStatement addr loc ns walk :
  annotates ns walk → annotates (addr :: ns) (visit_ExpressionStatement addr loc walk).
Proof.
  intros Hw st st' H. unfold visit_ExpressionStatement in H.
  run_inv'; try done. apply annotated_record. by eapply Hw.
Qed.

Lemma assignTargets_true cfg names s st st' :
  forEachIndexed
    (λ i variable success,
       givenType ← givenTypeAt cfg i;
       ok ← checkAssignment cfg variable givenType;
       mret (success && ok)) names s st = Normal true st' →
  s = true ∧ m_info st' = m_info st.
Proof.
  unfold forEachIndexed. intros H. split.
  - eapply forEach_flag; [|exact H]. intros [i v] s0 st0 s1 st1 Hstep ->. simpl in Hstep.
    run_inv'. by destruct s0.
  - revert H. apply (forEach_invariant (λ a b, m_info b = m_info a)); [done|congruence|].
    intros [i v] s0 st0 s1 st1 _ Hstep. simpl in Hstep. run_inv'.
    match goal with
    | H : checkAssignment _ _ _ _ = Normal _ _ |- _ =>
        by apply checkAssignment_run in H as (_ & ? & _)
    end.
Qed.

Lemma annotates_visit_Assignment cfg addr loc names ns walk :
  annotates ns walk → annotates (addr :: ns) (visit_Assignment cfg addr loc names walk).
Proof.
  intros Hw st st' H. unfold visit_Assignment, declarationError in H.
  run_inv'; try done.
  match goal with
  | H : forEachIndexed _ _ _ _ = Normal _ _ |- _ => apply assignTargets_true in H as [-> Hi]
  end.
  apply annotated_record. eapply annotated_keeps; [|by eapply Hw]. by apply keepsEntries_info.
Qed.

Lemma declareVariables_true cfg vars s st st' :
  forEachIndexed (declareVariable cfg) vars s st = Normal true st' → s = true.
Proof.
  unfold forEachIndexed. apply forEach_flag. intros [i v] s0 st0 s1 st1 Hstep ->.
  unfold declareVariable, typeError in Hstep. simpl in Hstep.
  apply bind_Normal in Hstep as (ty & ? & _ & Hstep).
  apply bind_Normal in Hstep as ([] & ? & _ & Hstep).
  apply bind_Normal in Hstep as (s2 & ? & Hcheck & Hstep).
  apply bind_Normal in Hstep as (? & ? & _ & Hstep).
  apply bind_Normal in Hstep as (? & ? & _ & Hstep).
  apply ret_Normal in Hstep as [<- _]. by run_inv'.
Qed.

Lemma annotates_visit_VariableDeclaration cfg addr loc vars walk ns :
  (∀ w, walk = Some w → annotates ns w) →
  annotates (addr :: match walk with Some _ => ns | None => [] end)
    (visit_VariableDeclaration cfg addr loc vars walk).
Proof.
  intros Hw st st' H. unfold visit_VariableDeclaration in H.
  apply bind_Normal in H as ([] & st1 & Hnotify & H).
  apply reportsOnly_notifyResolver in Hnotify as (_ & _ & _ & Hi1 & _).
  apply bind_Normal in H as (proceed & st2 & Hvalue & H).
  destruct proceed as [success|]; [|by apply ret_Normal in H as [? _]].
  apply bind_Normal in H as (s' & st3 & Hloop & H).
  run_inv. apply declareVariables_true in Hloop as Hs. subst success.
  apply declareVariables_marksOnly in Hloop as (_ & _ & Hi3 & _).
  apply annotated_record.
  unfold declaredValue, declarationError in Hvalue.
  destruct walk as [w|]; [|apply annotated_nil].
  run_inv'; simplify_eq.
  eapply annotated_keeps; [|by eapply (Hw w)]. by apply keepsEntries_info.
Qed.

Lemma annotates_visit_FunctionDefinition cfg addr name ps rs ns walk :
  annotates ns walk → annotates (addr :: ns) (visit_FunctionDefinition cfg addr name ps rs walk).
Proof.
  intros Hw st st' H. unfold visit_FunctionDefinition in H.
  apply bind_Normal in H as (? & ? & _ & H).
  apply bind_Normal in H as (? & ? & _ & H).
  apply bind_Normal in H as (? & ? & _ & H).
  apply bind_Normal in H as (? & ? & _ & H).
  run_inv.
  apply annotated_record. eapply annotated_keeps; [|by eapply Hw]. by apply keepsEntries_info.
Qed.

Lemma annotates_visit_If cfg addr c nsc nsb walkCondition walkBody :
  annotates nsc walkCondition → annotates nsb walkBody →
  post keepsEntries anyState walkBody →
  annotates (addr :: nsc ++ nsb) (visit_If cfg addr c walkCondition walkBody).
Proof.
  intros Hc Hb Hk st st' H. unfold visit_If in H.
  apply bind_Normal in H as (h & ? & Hh & H). apply gets_Normal in Hh as [-> ->].
  apply bind_Normal in H as (success & st1 & Hcond & H).
  apply bind_Normal in H as ([] & ? & Hset & H). apply modify_Normal in Hset as ->.
  apply bind_Normal in H as (okBody & st2 & Hbody & H).
  apply bind_Normal in H as ([] & ? & Hrec & H). apply modify_Normal in Hrec as ->.
  apply ret_Normal in H as [Hs ->]. symmetry in Hs. apply andb_true_iff in Hs as [-> ->].
  apply expectCondition_true in Hcond as (Hwalk & _).
  apply annotated_record, annotated_app; [|by eapply Hb].
  eapply annotated_keeps; [exact (post_run _ _ _ _ _ _ Hk Hbody)|].
  eapply annotated_keeps; [|by eapply Hc]. by apply keepsEntries_info.
Qed.

Lemma visit_Case_true cfg loc value walkBody s seen st seen' st' nsb :
  annotates nsb walkBody → post keepsEntries anyState walkBody →
  visit_Case cfg loc value walkBody (s, seen) st = Normal (true, seen') st' →
  s = true ∧
  annotated (match value with Some l => [lit_addr l] | None => [] end ++ nsb) st'.
Proof.
  intros Hb Hk H. unfold visit_Case in H.
  apply bind_Normal in H as ([s1 seen1] & st1 & Hvalue & H).
  apply bind_Normal in H as (okBody & st2 & Hbody & H).
  apply ret_Normal in H as [Heq ->]. injection Heq as Hs <-.
  symmetry in Hs. apply andb_true_iff in Hs as [-> ->].
  pose proof (post_run _ _ _ _ _ _ Hk Hbody) as Hk12.
  assert (s = true ∧ annotated (match value with Some l => [lit_addr l] | None => [] end) st1)
    as [-> Hv].
  { destruct value as [l|]; [|run_inv; split; [done|apply annotated_nil]].
    apply bind_Normal in Hvalue as (h & ? & Hh & Hvalue). apply gets_Normal in Hh as [-> ->].
    apply bind_Normal in Hvalue as (ok & st3 & Hlit & Hvalue).
    apply bind_Normal in Hvalue as (okDeposit & st4 & Hdeposit & Hvalue).
    apply bind_Normal in Hvalue as ([] & ? & Hpop & Hvalue).
    apply addToStackHeight_Normal in Hpop as ->.
    assert (Hi : m_info st4 = m_info st3).
    { unfold expectDeposit, typeError in Hdeposit. run_inv'; done. }
    unfold declarationError in Hvalue. run_inv'; simplify_eq.
    split; [done|]. apply visit_Literal_run in Hlit as (_ & _ & Ht).
    destruct (Ht eq_refl) as [_ Hrec].
    apply annotated_cons; [|apply annotated_nil]. simpl. rewrite Hi. by rewrite Hrec. }
  split; [done|]. apply annotated_app; [|by eapply Hb].
  by eapply annotated_keeps.
Qed.

Lemma walk_Cases_annotated cfg cases :
  Forall (λ c, ∀ s seen st seen' st',
            walk_Case cfg c (s, seen) st = Normal (true, seen') st' →
            s = true ∧ annotated (nodes_Case c) st') cases →
  ∀ s seen st seen' st',
    forEach (walk_Case cfg) cases (s, seen) st = Normal (true, seen') st' →
    s = true ∧ keepsEntries st st' ∧ annotated (concat (nodes_Case <$> cases)) st'.
Proof.
  induction 1 as [|c r Hc _ IH]; intros s seen st seen' st' H; simpl in H.
  - apply ret_Normal in H as [Heq ->]. simplify_eq.
    split; [done|]. split; [apply keepsEntries_refl|apply annotated_nil].
  - apply bind_Normal in H as ([s1 seen1] & st1 & Hstep & H).
    apply IH in H as (-> & Hk & Hr).
    pose proof (post_run _ _ _ _ _ _ (keepsEntries_walk_Case cfg c (s, seen)) Hstep) as Hk1.
    apply Hc in Hstep as [-> Hn].
    split; [done|]. split; [by eapply keepsEntries_trans|].
    rewrite fmap_cons. simpl. apply annotated_app; [by eapply annotated_keeps|done].
Qed.

Lemma annotates_visit_Switch cfg addr e cases nse nsc walkExpression walkCases :
  annotates nse walkExpression →
  (∀ s seen st seen' st', walkCases (s, seen) st = Normal (true, seen') st' →
     s = true ∧ keepsEntries st st' ∧ annotated nsc st') →
  annotates (addr :: nse ++ nsc) (visit_Switch cfg addr e cases walkExpression walkCases).
Proof.
  intros He Hc st st' H. unfold visit_Switch in H.
  apply bind_Normal in H as (h & ? & Hh & H). apply gets_Normal in Hh as [-> ->].
  apply bind_Normal in H as (s0 & st1 & Hexpr & H).
  apply bind_Normal in H as (valueType & st2 & Htype & H).
  apply bind_Normal in H as (s1 & st3 & Htypes & H).
  apply bind_Normal in H as ([s2 seen] & st4 & Hcases & H).
  apply bind_Normal in H as ([] & ? & Hset & H). apply modify_Normal in Hset as ->.
  apply bind_Normal in H as ([] & ? & Hrec & H). apply modify_Normal in Hrec as ->.
  apply ret_Normal in H as [<- ->].
  apply Hc in Hcases as (-> & Hk & Hn).
  apply (forEach_true (λ _, True)) in Htypes as (-> & -> & _).
  2: { intros c s st5 s' st6 Hstep ->. destruct (case_value c) as [l|].
       - apply bind_Normal in Hstep as (ok & st7 & Hok & Hstep).
         apply ret_Normal in Hstep as [Hs ->]. symmetry in Hs.
         apply andb_true_iff in Hs as [-> ->]. by apply expectType_true in Hok as [_ ->].
       - by apply ret_Normal in Hstep as [-> ->]. }
  apply expectExpression_true in Hexpr as [Hwalk _].
  assert (st2 = st1) as -> by (by run_inv').
  apply annotated_record.
  eapply annotated_keeps; [|apply annotated_app; [|exact Hn]].
  - by apply keepsEntries_info.
  - eapply annotated_keeps; [exact Hk|]. by eapply He.
Qed.

Lemma annotates_visit_ForLoop cfg addr pre c nsPre nsc nsBody nsPost
    walkPre walkCondition walkBody walkPost :
  annotates nsPre walkPre → annotates nsc walkCondition →
  annotates nsBody walkBody → annotates nsPost walkPost →
  post keepsEntries anyState walkCondition →
  post keepsEntries anyState walkBody →
  post keepsEntries anyState walkPost →
  annotates (addr :: nsPre ++ nsc ++ nsBody ++ nsPost)
    (visit_ForLoop cfg addr pre c walkPre walkCondition walkBody walkPost).
Proof.
  intros Hpre Hc Hbody Hpost Hkc Hkb Hkp st st' H. unfold visit_ForLoop in H.
  apply bind_Normal in H as (outerScope & ? & Hg & H). apply gets_Normal in Hg as [-> ->].
  apply bind_Normal in H as (h & ? & Hg & H). apply gets_Normal in Hg as [-> ->].
  apply bind_Normal in H as (okPre & st1 & Hrun1 & H).
  apply bind_Normal in H as (preScope & ? & Hs & H). apply scope_Normal in Hs as [_ ->].
  apply bind_Normal in H as ([] & ? & Hadd & H). apply addToStackHeight_Normal in Hadd as ->.
  apply bind_Normal in H as (preScope' & ? & Hs & H). apply scope_Normal in Hs as [_ ->].
  apply bind_Normal in H as ([] & ? & Hset & H). apply modify_Normal in Hset as ->.
  apply bind_Normal in H as (okCondition & st2 & Hrun2 & H).
  apply bind_Normal in H as ([] & ? & Hadd & H). apply addToStackHeight_Normal in Hadd as ->.
  apply bind_Normal in H as (outerForLoop & ? & Hg & H). apply gets_Normal in Hg as [-> ->].
  apply bind_Normal in H as ([] & ? & Hset & H). apply modify_Normal in Hset as ->.
  apply bind_Normal in H as (okBody & st3 & Hrun3 & H).
  apply bind_Normal in H as (okPost & st4 & Hrun4 & H).
  run_inv.
  match goal with
  | H : true = _ |- _ =>
      symmetry in H; apply andb_true_iff in H as [H ->];
      apply andb_true_iff in H as [H ->]; apply andb_true_iff in H as [-> ->]
  end.
  apply expectCondition_true in Hrun2 as (Hrun2 & _).
  pose proof (post_run _ _ _ _ _ _ Hkc Hrun2) as Hk2.
  pose proof (post_run _ _ _ _ _ _ Hkb Hrun3) as Hk3.
  pose proof (post_run _ _ _ _ _ _ Hkp Hrun4) as Hk4.
  apply Hpre in Hrun1. apply Hc in Hrun2. apply Hbody in Hrun3. apply Hpost in Hrun4.
  set (final := set_stackHeight _ st4).
  assert (Hn : annotated (nsPre ++ nsc ++ nsBody ++ nsPost) st4).
  { repeat apply annotated_app; try done.
    - eapply annotated_keeps; [|exact Hrun1].
      eapply keepsEntries_trans; [|exact Hk4]. eapply keepsEntries_trans; [|exact Hk3].
      eapply keepsEntries_trans; [|exact Hk2]. by apply keepsEntries_info.
    - eapply annotated_keeps; [|exact Hrun2].
      eapply keepsEntries_trans; [|exact Hk4]. eapply keepsEntries_trans; [|exact Hk3].
      by apply keepsEntries_info.
    - by eapply annotated_keeps. }
  intros n Hn'. simpl. apply elem_of_cons in Hn' as [->|Hn'].
  - by rewrite lookup_insert_eq.
  - destruct (decide (n = addr)) as [->|Hne]; [by rewrite lookup_insert_eq|].
    rewrite lookup_insert_ne by done. by apply Hn.
Qed.

Lemma annotates_visit_Block addr loc ns walkStatements :
  annotates ns walkStatements → annotates (addr :: ns) (visit_Block addr loc walkStatements).
Proof.
  intros Hw st st' H. unfold visit_Block, declarationError in H.
  run_inv'; try done.
  match goal with
  | Hr : walkStatements _ = Normal _ _ |- _ => apply Hw in Hr; rename Hr into Hann
  end.
  intros n Hn'. simpl. apply elem_of_cons in Hn' as [->|Hn'].
  - by rewrite lookup_insert_eq.
  - destruct (decide (n = addr)) as [->|Hne]; [by rewrite lookup_insert_eq|].
    rewrite lookup_insert_ne by done. by apply Hann.
Qed.

Lemma runsAll_keepsEntries cfg statements st b st' :
  runsAll (walk_Statement cfg) statements st b st' → keepsEntries st st'.
Proof.
  induction 1 as [st|s r st ok st1 b st' Hs Hr IH]; [apply keepsEntries_refl|].
  eapply keepsEntries_trans; [|exact IH].
  exact (post_run _ _ _ _ _ _ (keepsEntries_walk_Statement cfg s) Hs).
Qed.

Lemma runsAll_annotated cfg statements st b st' :
  Forall (λ s, annotates (nodes_Statement s) (walk_Statement cfg s)) statements →
  runsAll (walk_Statement cfg) statements st b st' → b = true →
  annotated (concat (nodes_Statement <$> statements)) st'.
Proof.
  intros Hall Hruns. induction Hruns as [st|s r st ok st1 b st' Hs Hr IH]; intros Hb.
  - apply annotated_nil.
  - apply andb_true_iff in Hb as [-> ->]. apply Forall_cons in Hall as [Hs' Hr'].
    rewrite fmap_cons. simpl. apply annotated_app; [|by apply IH].
    eapply annotated_keeps; [by eapply runsAll_keepsEntries|]. by eapply Hs'.
Qed.

(** Every node of an accepted block has its entry, by induction over the block. *)
Lemma annotates_walk_Block cfg b : annotates (nodes_Block b) (walk_Block cfg b).
Proof.
  revert b.
  apply (Block_nested_ind
           (λ s, annotates (nodes_Statement s) (walk_Statement cfg s))
           (λ b, annotates (nodes_Block b) (walk_Block cfg b))
           (λ c, ∀ s seen st seen' st',
              walk_Case cfg c (s, seen) st = Normal (true, seen') st' →
              s = true ∧ annotated (nodes_Case c) st')); simpl; intros.
  - apply annotates_visit_ExpressionStatement, annotates_walk_Expression.
  - apply annotates_visit_Assignment, annotates_walk_Expression.
  - destruct value as [e|]; simpl.
    + apply (annotates_visit_VariableDeclaration _ _ _ _ (Some (walk_Expression cfg e))).
      intros w [= <-]. apply annotates_walk_Expression.
    + apply (annotates_visit_VariableDeclaration _ _ _ _ None []). by intros w.
  - by apply annotates_visit_FunctionDefinition.
  - apply annotates_visit_If;
      [apply annotates_walk_Expression | done | apply keepsEntries_walk_Block].
  - apply annotates_visit_Switch; [apply annotates_walk_Expression|].
    by apply walk_Cases_annotated.
  - apply annotates_visit_ForLoop;
      auto using annotates_walk_Expression, keepsEntries_walk_Expression, keepsEntries_walk_Block.
  - intros st st' Hm. unfold visit_Marker in Hm. run_inv. apply annotated_record, annotated_nil.
  - intros st st' Hm. unfold visit_Marker in Hm. run_inv. apply annotated_record, annotated_nil.
  - intros st st' Hm. unfold visit_Marker in Hm. run_inv. apply annotated_record, annotated_nil.
  - done.
  - apply annotates_visit_Block. intros st st' Hloop.
    apply forEach_runsAll in Hloop as (b' & Hruns & Hb). by eapply runsAll_annotated.
  - eapply visit_Case_true; [done|apply keepsEntries_walk_Block|done].
Qed.

(** X21.  When the walk of a block returns true, [stackHeightInfo] has an
    entry for every node of the block: the block itself, its statements, and
    the blocks, case literals and expressions inside them, down to every
    literal, identifier and call. *)
Theorem accepted_walk_annotates_every_node cfg b st st' :
  walk_Block cfg b st = Normal true st' →
  ∀ n, n ∈ nodes_Block b → is_Some (stackHeightInfo (m_info st') !! n).
Proof. apply annotates_walk_Block. Qed.

Lemma accepted_walk_annotates_every_node_witness :
  ∃ st', walk_Block Examples.cfg Examples.program1 (Examples.fresh Examples.info1)
         = Normal true st' ∧
         ∀ n, n ∈ [1; 2; 4; 5; 7; 9; 10]%N → is_Some (stackHeightInfo (m_info st') !! n).
Proof.
  assert (∃ st', walk_Block Examples.cfg Examples.program1 (Examples.fresh Examples.info1)
                 = Normal true st') as [st' Hrun] by (eexists; vm_compute; reflexivity).
  exists st'. split; [exact Hrun|].
  exact (accepted_walk_annotates_every_node _ _ _ _ Hrun).
Defined.

(** ** The scope table *)

Lemma scoped_nil st : scoped [] st.
Proof. intros a Ha. by apply elem_of_nil in Ha. Qed.

Lemma scoped_app bs1 bs2 st : scoped bs1 st → scoped bs2 st → scoped (bs1 ++ bs2) st.
Proof. intros H1 H2 a Ha. apply elem_of_app in Ha as [Ha|Ha]; [by apply H1|by apply H2]. Qed.

Lemma scoped_scopes bs st st' :
  scopes (m_info st') = scopes (m_info st) → scoped bs st' → scoped bs st.
Proof. intros Hs H a Ha. rewrite <- Hs. by apply H. Qed.

Lemma scoped_grows bs st st' : grows st st' → scoped bs st' → scoped bs st.
Proof. intros (_ & _ & _ & Hs & _). by apply scoped_scopes. Qed.

Lemma grows_expectExpression cfg e loc :
  post grows grows (expectExpression (walk_Expression cfg e) loc).
Proof.
  apply post_expectExpression; [apply grows_refl | apply grows_trans | apply grows_trans | ..];
    try (intros; first [apply grows_add_error | by apply grows_unchanged]).
  apply grows_walk_Expression.
Qed.

Lemma grows_expectCondition cfg e loc :
  post grows grows (expectCondition cfg (walk_Expression cfg e) loc).
Proof.
  apply post_expectCondition; [apply grows_refl | apply grows_trans | apply grows_trans | ..];
    try (intros; first [apply grows_add_error | by apply grows_unchanged]).
  apply grows_walk_Expression.
Qed.

Lemma grows_walk_Case cfg c acc : post grows grows (walk_Case cfg c acc).
Proof. destruct c. simpl. apply grows_visit_Case, grows_walk_Block. Qed.

Lemma runsAll_scoped cfg statements st b st' :
  Forall (λ s, ∀ st r st', walk_Statement cfg s st = Normal r st' →
                 scoped (blocks_Statement s) st) statements →
  runsAll (walk_Statement cfg) statements st b st' →
  scoped (concat (blocks_Statement <$> statements)) st.
Proof.
  intros Hall Hruns. induction Hruns as [st|s r st ok st1 b st' Hs Hr IH].
  - apply scoped_nil.
  - apply Forall_cons in Hall as [Hs' Hr'].
    rewrite fmap_cons. simpl. apply scoped_app; [by eapply Hs'|].
    eapply scoped_grows; [|by apply IH].
    exact (post_run _ _ _ _ _ _ (grows_walk_Statement cfg s) Hs).
Qed.

Lemma walk_Cases_scoped cfg cases :
  Forall (λ c, ∀ acc st acc' st', walk_Case cfg c acc st = Normal acc' st' →
                 scoped (blocks_Case c) st) cases →
  ∀ acc st acc' st',
    forEach (walk_Case cfg) cases acc st = Normal acc' st' →
    scoped (concat (blocks_Case <$> cases)) st.
Proof.
  induction 1 as [|c r Hc _ IH]; intros acc st acc' st' H; simpl in H.
  - apply scoped_nil.
  - apply bind_Normal in H as (acc1 & st1 & Hstep & H).
    rewrite fmap_cons. simpl. apply scoped_app; [by eapply Hc|].
    eapply scoped_grows; [|by eapply IH].
    exact (post_run _ _ _ _ _ _ (grows_walk_Case cfg c acc) Hstep).
Qed.

(** Every block of a block whose walk returns has its scope, by induction over
    the block. *)
Lemma scoped_walk_Block cfg b st r st' :
  walk_Block cfg b st = Normal r st' → scoped (blocks_Block b) st.
Proof.
  revert b st r st'.
  apply (Block_nested_ind
           (λ s, ∀ st r st', walk_Statement cfg s st = Normal r st' →
                   scoped (blocks_Statement s) st)
           (λ b, ∀ st r st', walk_Block cfg b st = Normal r st' → scoped (blocks_Block b) st)
           (λ c, ∀ acc st acc' st', walk_Case cfg c acc st = Normal acc' st' →
                   scoped (blocks_Case c) st)); simpl.
  - intros. apply scoped_nil.
  - intros. apply scoped_nil.
  - intros. apply scoped_nil.
  - intros addr loc name ps rs body IH st r st' H. unfold visit_FunctionDefinition in H.
    apply bind_Normal in H as (? & ? & Hassert & H). apply yulAssert_Normal in Hassert as [_ ->].
    apply bind_Normal in H as (vb & st0 & Hvb & H).
    assert (st0 = st) as -> by (destruct (virtualBlocks (m_info st) !! addr) as [[?|]|]; by simplify_eq).
    apply bind_Normal in H as (varScope & ? & Hscope & H). apply scope_Normal in Hscope as [_ ->].
    apply bind_Normal in H as ([] & st1 & Hloop & H).
    apply activateParameters in Hloop as ((_ & _ & Hi & _) & _).
    apply bind_Normal in H as (h & ? & Hg & H). apply gets_Normal in Hg as [-> ->].
    apply bind_Normal in H as ([] & ? & Hset & H). apply modify_Normal in Hset as ->.
    apply bind_Normal in H as (success & st2 & Hbody & H).
    apply IH in Hbody. eapply scoped_scopes; [|exact Hbody]. simpl. by rewrite Hi.
  - intros addr loc c body IH st r st' H. unfold visit_If in H.
    apply bind_Normal in H as (h & ? & Hh & H). apply gets_Normal in Hh as [-> ->].
    apply bind_Normal in H as (success & st1 & Hcond & H).
    apply bind_Normal in H as ([] & ? & Hset & H). apply modify_Normal in Hset as ->.
    apply bind_Normal in H as (okBody & st2 & Hbody & H).
    apply IH in Hbody.
    pose proof (post_run _ _ _ _ _ _ (grows_expectCondition cfg c (locationOf c)) Hcond) as Hg.
    eapply scoped_grows; [exact Hg|]. by eapply scoped_scopes; [|exact Hbody].
  - intros addr loc e cases IH st r st' H. unfold visit_Switch in H.
    apply bind_Normal in H as (h & ? & Hh & H). apply gets_Normal in Hh as [-> ->].
    apply bind_Normal in H as (s0 & st1 & Hexpr & H).
    apply bind_Normal in H as (valueType & st2 & Htype & H).
    apply bind_Normal in H as (s1 & st3 & Htypes & H).
    apply bind_Normal in H as ([s2 seen] & st4 & Hcases & H).
    pose proof (post_run _ _ _ _ _ _ (grows_expectExpression cfg e (locationOf e)) Hexpr) as Hg1.
    assert (st2 = st1) as -> by (destruct s0; by run_inv').
    assert (Hg3 : grows st1 st3).
    { revert Htypes. apply (forEach_invariant grows); [apply grows_refl|apply grows_trans|].
      intros c s st5 s' st6 _ Hstep. destruct (case_value c) as [l|]; [|run_inv; apply grows_refl].
      apply bind_Normal in Hstep as (ok & st7 & Hok & Hstep). apply ret_Normal in Hstep as [_ ->].
      unfold expectType, typeError in Hok.
      run_inv'; first [apply grows_add_error | apply grows_refl]. }
    eapply scoped_grows; [exact (grows_trans _ _ _ Hg1 Hg3)|].
    by eapply walk_Cases_scoped.
  - intros addr loc pre c post body IHpre IHpost IHbody st r st' H. unfold visit_ForLoop in H.
    apply bind_Normal in H as (outerScope & ? & Hg & H). apply gets_Normal in Hg as [-> ->].
    apply bind_Normal in H as (h & ? & Hg & H). apply gets_Normal in Hg as [-> ->].
    apply bind_Normal in H as (okPre & st1 & Hrun1 & H).
    apply bind_Normal in H as (preScope & ? & Hs & H). apply scope_Normal in Hs as [_ ->].
    apply bind_Normal in H as ([] & ? & Hadd & H). apply addToStackHeight_Normal in Hadd as ->.
    apply bind_Normal in H as (preScope' & ? & Hs & H). apply scope_Normal in Hs as [_ ->].
    apply bind_Normal in H as ([] & ? & Hset & H). apply modify_Normal in Hset as ->.
    apply bind_Normal in H as (okCondition & st2 & Hrun2 & H).
    apply bind_Normal in H as ([] & ? & Hadd & H). apply addToStackHeight_Normal in Hadd as ->.
    apply bind_Normal in H as (outerForLoop & ? & Hg & H). apply gets_Normal in Hg as [-> ->].
    apply bind_Normal in H as ([] & ? & Hset & H). apply modify_Normal in Hset as ->.
    apply bind_Normal in H as (okBody & st3 & Hrun3 & H).
    apply bind_Normal in H as (okPost & st4 & Hrun4 & H).
    pose proof (post_run _ _ _ _ _ _ (grows_walk_Block cfg pre) Hrun1) as Hg1.
    pose proof (post_run _ _ _ _ _ _ (grows_expectCondition cfg c (locationOf c)) Hrun2) as Hg2.
    pose proof (post_run _ _ _ _ _ _ (grows_walk_Block cfg body) Hrun3) as Hg3.
    apply IHpre in Hrun1. apply IHbody in Hrun3. apply IHpost in Hrun4.
    destruct Hg1 as (_ & _ & _ & Hs1 & _), Hg2 as (_ & _ & _ & Hs2 & _),
             Hg3 as (_ & _ & _ & Hs3 & _). simpl in *.
    repeat apply scoped_app; [done| |].
    + eapply scoped_scopes; [|exact Hrun3]. simpl. congruence.
    + eapply scoped_scopes; [|exact Hrun4]. congruence.
  - intros. apply scoped_nil.
  - intros. apply scoped_nil.
  - intros. apply scoped_nil.
  - done.
  - intros addr loc statements IH st r st' H. unfold visit_Block in H.
    apply bind_Normal in H as (previousScope & ? & Hp & H). apply gets_Normal in Hp as [-> ->].
    apply bind_Normal in H as (sc & ? & Hsc & H). apply scope_Normal in Hsc as [Hsc ->].
    apply bind_Normal in H as ([] & ? & Hset & H). apply modify_Normal in Hset as ->.
    apply bind_Normal in H as (h0 & ? & Hh & H). apply gets_Normal in Hh as [-> ->].
    apply bind_Normal in H as (success & st1 & Hloop & H).
    apply forEach_runsAll in Hloop as (b' & Hruns & _).
    apply (runsAll_scoped _ _ _ _ _ IH) in Hruns.
    intros a Ha. apply elem_of_cons in Ha as [->|Ha]; [by rewrite Hsc|by apply Hruns].
  - intros loc value body IH [s seen] st acc' st' H. unfold visit_Case in H.
    apply bind_Normal in H as ([s1 seen1] & st1 & Hvalue & H).
    apply bind_Normal in H as (okBody & st2 & Hbody & H).
    apply IH in Hbody. eapply scoped_grows; [|exact Hbody].
    pose proof (grows_visit_Case cfg loc value (mret true) (s, seen)) as Hg.
    assert (Hpost : post grows grows (mret true : M bool)) by (intros st0; apply grows_refl).
    specialize (Hg Hpost st). unfold visit_Case in Hg.
    unfold mbind at 1, M_bind at 1 in Hg. rewrite Hvalue in Hg.
    unfold mbind, M_bind, mret, M_ret in Hg. done.
Qed.

(** X22.  The walk of a block returns, with whatever verdict, only when the
    scope table of the analysis info has a scope for the block and for every
    block inside it: the bodies of function definitions, of [if]s, of cases
    and of loops, and the [pre] and [post] blocks of loops.  Errors do not
    cut the walk short, so each of these blocks is entered. *)
Theorem walk_returns_only_with_scopes cfg b st r st' :
  walk_Block cfg b st = Normal r st' →
  ∀ a, a ∈ blocks_Block b → is_Some (scopes (m_info st) !! a).
Proof. apply scoped_walk_Block. Qed.

Lemma walk_returns_only_with_scopes_witness :
  ∃ st', walk_Block Examples.cfg Examples.siblings (Examples.fresh Examples.siblingsInfo)
         = Normal true st' ∧
         ∀ a, a ∈ [1; 2; 6]%N →
           is_Some (scopes (m_info (Examples.fresh Examples.siblingsInfo)) !! a).
Proof.
  assert (∃ st', walk_Block Examples.cfg Examples.siblings (Examples.fresh Examples.siblingsInfo)
                 = Normal true st') as [st' Hrun] by (eexists; vm_compute; reflexivity).
  exists st'. split; [exact Hrun|].
  exact (walk_returns_only_with_scopes _ _ _ _ _ Hrun).
Defined.

(** ** The entry points *)

Lemma hasReported_walk_Block cfg b : post anyState hasReported (walk_Block cfg b).
Proof.
  apply post_walk_Block; try done.
  intros e st. unfold hasReported. simpl. by destruct (errors (m_errorReporter st)).
Qed.

(** X23.  When the scope filler succeeds and the walk ends in the
    reporter's fatal error, [analyze] returns false: the reporter holds a
    diagnostic by then, so the assertion of the catch clause holds, and the
    fatal error does not leave [analyze]. *)
Theorem fatal_error_in_walk_is_caught cfg filler b st st1 st2 :
  runScopeFiller filler b st = Normal true st1 →
  walk_Block cfg b st1 = FatalError st2 →
  analyze cfg filler b st = Normal false st2 ∧ errors (m_errorReporter st2) ≠ [].
Proof.
  intros Hfill Hwalk.
  pose proof (hasReported_walk_Block cfg b st1) as Hrep. rewrite Hwalk in Hrep.
  unfold analyze. rewrite Hfill, Hwalk. unfold catchFatalError.
  rewrite bool_decide_eq_false_2 by done. done.
Qed.

Lemma fatal_error_in_walk_is_caught_witness :
  ∃ st2, analyze Examples.cfg (Examples.fillerOf Examples.emptyInfo) Examples.literalStatement
           (Examples.zeroCapacity Examples.emptyInfo) = Normal false st2 ∧
         errors (m_errorReporter st2) ≠ [].
Proof.
  assert (∃ st2, walk_Block Examples.cfg Examples.literalStatement
                   (Examples.zeroCapacity Examples.emptyInfo) = FatalError st2)
    as [st2 Hwalk] by (eexists; vm_compute; reflexivity).
  exists st2.
  exact (fatal_error_in_walk_is_caught Examples.cfg (Examples.fillerOf Examples.emptyInfo)
           Examples.literalStatement (Examples.zeroCapacity Examples.emptyInfo)
           (Examples.zeroCapacity Examples.emptyInfo) st2 eq_refl Hwalk).
Defined.

(** The run of [analyze] behind a true verdict. *)
Lemma analyze_true cfg filler b st st' :
  analyze cfg filler b st = Normal true st' →
  ∃ st1, runScopeFiller filler b st = Normal true st1 ∧
         walk_Block cfg b st1 = Normal true st' ∧
         hasErrors (m_errorReporter st') = false.
Proof.
  unfold analyze, catchFatalError. intros H.
  destruct (runScopeFiller filler b st) as [[] st1|st1|] eqn:Hfill; try done.
  - destruct (walk_Block cfg b st1) as [success st2|st2|] eqn:Hwalk; try done.
    + destruct success, (hasErrors (m_errorReporter st2)) eqn:He; simplify_eq/=. eauto.
    + by case_bool_decide.
  - by case_bool_decide.
Qed.

(** X24.  When [analyze] returns true, the analysis info it leaves has a
    stack-height entry for each node of the program that [nodes_Block]
    lists: every block, every statement, the literal of every case that has
    a value, and every literal, identifier and call in expression position
    (the expression of an expression statement, the value of an assignment
    or of a declaration, a condition, the expression of a switch, the
    arguments of a call, at any depth).  The name of a callee, the targets
    of an assignment, the typed names of a declaration or of a function
    definition and the cases themselves are not among these nodes.  The info
    has a scope for every block of the program, and the analyzer is back at
    the stack height, the current scope and the current for loop it was
    called with. *)
Theorem accepted_program_is_annotated cfg filler b st st' :
  analyze cfg filler b st = Normal true st' →
  (∀ n, n ∈ nodes_Block b → is_Some (stackHeightInfo (m_info st') !! n)) ∧
  (∀ a, a ∈ blocks_Block b → is_Some (scopes (m_info st') !! a)) ∧
  m_stackHeight st' = m_stackHeight st ∧
  m_currentScope st' = m_currentScope st ∧
  m_currentForLoop st' = m_currentForLoop st.
Proof.
  intros H. apply analyze_true in H as (st1 & Hfill & Hwalk & _).
  assert (Hframe : m_stackHeight st1 = m_stackHeight st ∧ m_currentScope st1 = m_currentScope st ∧
                   m_currentForLoop st1 = m_currentForLoop st).
  { unfold runScopeFiller in Hfill. destruct (filler b _ _); by simplify_eq. }
  destruct Hframe as (Hh & Hs & Hf).
  split; [by eapply annotates_walk_Block|]. split.
  - pose proof (post_run _ _ _ _ _ _ (grows_walk_Block cfg b) Hwalk) as (_ & _ & _ & Hsc & _).
    intros a Ha. rewrite Hsc. by eapply scoped_walk_Block.
  - apply walk_Block_true_height in Hwalk as Hh'.
    pose proof (post_run _ _ _ _ _ _ (restores_walk_Block cfg b) Hwalk) as [Hs' Hf'].
    repeat split; congruence.
Qed.

Lemma accepted_program_is_annotated_witness :
  ∃ st', analyze Examples.cfg (Examples.fillerOf Examples.info1) Examples.program1
           (Examples.fresh Examples.info1) = Normal true st' ∧
         (∀ n, n ∈ [1; 2; 4; 5; 7; 9; 10]%N → is_Some (stackHeightInfo (m_info st') !! n)) ∧
         m_stackHeight st' = 0.
Proof.
  assert (∃ st', analyze Examples.cfg (Examples.fillerOf Examples.info1) Examples.program1
                   (Examples.fresh Examples.info1) = Normal true st')
    as [st' Hrun] by (eexists; vm_compute; reflexivity).
  exists st'. split; [exact Hrun|].
  destruct (accepted_program_is_annotated _ _ _ _ _ Hrun) as (Hn & _ & Hh & _).
  split; [exact Hn | exact Hh].
Defined.

(** [analyze] catches the reporter's fatal error: it returns or it fails
    an assertion. *)
Lemma analyze_never_fatal cfg filler b st st' : analyze cfg filler b st ≠ FatalError st'.
Proof.
  unfold analyze, catchFatalError.
  destruct (runScopeFiller filler b st) as [[] st1|st1|]; try done.
  - destruct (walk_Block cfg b st1) as [success st2|st2|]; try done.
    + by destruct (negb success && negb (hasErrors (m_errorReporter st2))).
    + by case_bool_decide.
  - by case_bool_decide.
Qed.

(** X25.  The strict helper returns analysis info only when [analyze], run
    with no resolver on a new analysis info and an empty error list, returned
    true and the error list is still empty, warnings included.  The info it
    returns is the one that run left: it has a stack-height entry for each
    node of the object's code that [nodes_Block] lists (blocks, statements,
    case literals, and the literals, identifiers and calls in expression
    position) and a scope for every block of it.  When [analyze] returns false, or returns with an
    error on the list, the helper fails its assertion.  When [analyze] does
    not return, the helper ends as [analyze] did, on a failed assertion, an
    access out of range or a null dereference: the last for [{ g() }] with no
    function [g].  The helper never ends in the reporter's fatal error. *)
Theorem strict_analysis_returns_annotated_info
    filler other defaults maxErrors dialect object :
  (∀ info st',
     analyzeStrictAssertCorrect filler other defaults maxErrors dialect object
       = Normal info st' →
     analyze (strictConfig other dialect object) filler (code object)
       (strictAnalyzer defaults maxErrors) = Normal true st' ∧
     errors (m_errorReporter st') = [] ∧
     info = m_info st' ∧
     (∀ n, n ∈ nodes_Block (code object) → is_Some (stackHeightInfo info !! n)) ∧
     (∀ a, a ∈ blocks_Block (code object) → is_Some (scopes info !! a))) ∧
  (∀ success st,
     analyze (strictConfig other dialect object) filler (code object)
       (strictAnalyzer defaults maxErrors) = Normal success st →
     success = false ∨ errors (m_errorReporter st) ≠ [] →
     analyzeStrictAssertCorrect filler other defaults maxErrors dialect object
       = Crash AssertionFailed) ∧
  (∀ w,
     analyze (strictConfig other dialect object) filler (code object)
       (strictAnalyzer defaults maxErrors) = Crash w →
     analyzeStrictAssertCorrect filler other defaults maxErrors dialect object = Crash w) ∧
  (∀ st,
     analyzeStrictAssertCorrect filler other defaults maxErrors dialect object
       ≠ FatalError st).
Proof.
  unfold analyzeStrictAssertCorrect. split; [|split; [|split]].
  - intros info st' H.
    destruct (analyze _ _ _ _) as [success st|st|] eqn:Hrun; try done.
    destruct success; simpl in H; [|done]. case_bool_decide as He; [|done].
    injection H as <- <-. split; [done|]. split; [done|]. split; [done|].
    apply analyze_true in Hrun as (st1 & Hfill & Hwalk & _).
    split; [by eapply annotates_walk_Block|].
    pose proof (post_run _ _ _ _ _ _ (grows_walk_Block _ _) Hwalk) as (_ & _ & _ & Hsc & _).
    intros a Ha. rewrite Hsc. by eapply scoped_walk_Block.
  - intros success st -> [->|He]; [done|].
    rewrite (bool_decide_eq_false_2 _ He). by rewrite andb_false_r.
  - by intros w ->.
  - intros st H.
    destruct (analyze _ _ _ _) as [success st0|st0|] eqn:Hrun; try done.
    + by destruct (success && bool_decide (errors (m_errorReporter st0) = [])).
    + by apply analyze_never_fatal in Hrun.
Qed.

Lemma strict_analysis_returns_annotated_info_witness :
  ∃ info st',
    analyzeStrictAssertCorrect (Examples.fillerOf Examples.info1) Examples.cfg
      (Examples.fresh Examples.emptyInfo) 256 Examples.dialect Examples.object1
    = Normal info st' ∧
    (∀ n, n ∈ [1; 2; 4; 5; 7; 9; 10]%N → is_Some (stackHeightInfo info !! n)) ∧
    analyzeStrictAssertCorrect (Examples.fillerOf Examples.emptyInfo) Examples.cfg
      (Examples.fresh Examples.emptyInfo) 256 Examples.dialect Examples.objectG
    = Crash NullDereference.
Proof.
  assert (∃ info st',
            analyzeStrictAssertCorrect (Examples.fillerOf Examples.info1) Examples.cfg
              (Examples.fresh Examples.emptyInfo) 256 Examples.dialect Examples.object1
            = Normal info st')
    as (info & st' & Hrun) by (eexists _, _; vm_compute; reflexivity).
  exists info, st'. split; [exact Hrun|]. split.
  - exact (proj1 (proj2 (proj2 (proj2
             (proj1 (strict_analysis_returns_annotated_info _ _ _ _ _ _) _ _ Hrun))))).
  - apply (proj1 (proj2 (proj2 (strict_analysis_returns_annotated_info
             (Examples.fillerOf Examples.emptyInfo) Examples.cfg
             (Examples.fresh Examples.emptyInfo) 256 Examples.dialect Examples.objectG)))).
    vm_compute. reflexivity.
Defined.
